(** * ADIS: automaton-derived key and XOR cipher

    A shallow embedding of [ADIS.py] (classes [Color] and [ADISFile], and the
    three statements of [ADISEncryptionApp] that store a ciphertext together
    with its key image), followed by the properties of the automaton step,
    the time scheduler, the key derivation and the cipher.

    Conventions of the embedding.
    - A Python [int] is a [Z]; [//] and [%] are [Z.div] and [Z.modulo] (both
      round towards minus infinity, as Python does) guarded by the
      [ZeroDivisionError] test.
    - A method that can raise returns a [result]; a method that mutates
      [self] returns the new object.
    - [image_array] is a numpy array of shape (resolution, resolution, 3) and
      dtype uint8: a list of rows of RGB triples, indexed with numpy's rules
      (negative indices wrap once, anything else out of range raises
      [IndexError]).
    - The text handed to [encrypt_string] is a Python [str], a sequence of
      Unicode code points ([list Z]); the key, the bit string and the hex
      string only ever hold ASCII characters and are lists of [ascii]. *)

From Stdlib Require Import ZArith Lia List Ascii String DecimalString Permutation.
From stdpp Require Import base option list strings gmap.

Local Open Scope Z_scope.

(** ** Exceptions and the error monad *)

Inductive exn : Set :=
| IndexError
| ZeroDivisionError
| ValueError
| UnicodeEncodeError
| UnicodeDecodeError
| OverflowError.

Inductive result (A : Type) : Type :=
| Ok (a : A)
| Raise (e : exn).
Arguments Ok {A} a.
Arguments Raise {A} e.

#[global] Instance result_ret : MRet result := fun _ a => Ok a.
#[global] Instance result_bind : MBind result := fun _ _ f m =>
  match m with
  | Ok a => f a
  | Raise e => Raise e
  end.

(** [for v in l: body] over a state [s] that the body may replace or abort. *)
Fixpoint for_each {A S : Type} (l : list A) (body : A -> S -> result S) (s : S)
  : result S :=
  match l with
  | [] => Ok s
  | v :: l' => s' ← body v s; for_each l' body s'
  end.

(** [range(n)] *)
Definition range (n : Z) : list Z := seqZ 0 n.

(** [a // b] and [a % b] *)
Definition floordiv (a b : Z) : result Z :=
  if b =? 0 then Raise ZeroDivisionError else Ok (a / b).
Definition pymod (a b : Z) : result Z :=
  if b =? 0 then Raise ZeroDivisionError else Ok (a mod b).

(** ** Data model *)

Abbreviation RGB := (Z * Z * Z)%type.
Abbreviation ndarray := (list (list RGB)).

(** class Color *)
Record Color : Type := mkColor {
  rgb : RGB;
  check_direction : string;
  activation_colors : list RGB
}.

(** class ADISFile *)
Record ADISFile : Type := mkADISFile {
  resolution : Z;
  color_depth : Z;
  iteration_speed : Z;
  last_time : Z;
  now_time : Z;
  iteration_count : Z;
  color_set : list Color;
  image_array : ndarray;
  encrypted_string : option (list ascii);
  key_image : option ndarray
}.

Definition set_image_array (self : ADISFile) (a : ndarray) : ADISFile :=
  mkADISFile (resolution self) (color_depth self) (iteration_speed self)
    (last_time self) (now_time self) (iteration_count self) (color_set self)
    a (encrypted_string self) (key_image self).

Definition set_iteration_count (self : ADISFile) (n : Z) : ADISFile :=
  mkADISFile (resolution self) (color_depth self) (iteration_speed self)
    (last_time self) (now_time self) n (color_set self)
    (image_array self) (encrypted_string self) (key_image self).

Definition set_times (self : ADISFile) (l n : Z) : ADISFile :=
  mkADISFile (resolution self) (color_depth self) (iteration_speed self)
    l n (iteration_count self) (color_set self)
    (image_array self) (encrypted_string self) (key_image self).

Definition set_color_set (self : ADISFile) (cs : list Color) : ADISFile :=
  mkADISFile (resolution self) (color_depth self) (iteration_speed self)
    (last_time self) (now_time self) (iteration_count self) cs
    (image_array self) (encrypted_string self) (key_image self).

Definition set_encrypted (self : ADISFile) (h : list ascii) (k : ndarray)
  : ADISFile :=
  mkADISFile (resolution self) (color_depth self) (iteration_speed self)
    (last_time self) (now_time self) (iteration_count self) (color_set self)
    (image_array self) (Some h) (Some k).

(** ** numpy indexing *)

(** An index [i] into an axis of length [n]. *)
Definition index (n : nat) (i : Z) : result nat :=
  if (0 <=? i) && (i <? Z.of_nat n) then Ok (Z.to_nat i)
  else if (- Z.of_nat n <=? i) && (i <? 0) then Ok (Z.to_nat (i + Z.of_nat n))
  else Raise IndexError.

(** [a[x, y]] *)
Definition getitem (a : ndarray) (x y : Z) : result RGB :=
  i ← index (length a) x;
  match a !! i with
  | None => Raise IndexError
  | Some row =>
      j ← index (length row) y;
      match row !! j with
      | None => Raise IndexError
      | Some v => Ok v
      end
  end.

(** [a[x, y] = v] *)
Definition setitem (a : ndarray) (x y : Z) (v : RGB) : result ndarray :=
  i ← index (length a) x;
  match a !! i with
  | None => Raise IndexError
  | Some row =>
      j ← index (length row) y;
      Ok (<[i := <[j := v]> row]> a)
  end.

(** [np.zeros((n, n, 3), dtype=np.uint8)]; a negative dimension is refused. *)
Definition np_zeros (n : Z) : result ndarray :=
  if n <? 0 then Raise ValueError
  else Ok (replicate (Z.to_nat n) (replicate (Z.to_nat n) (0, 0, 0))).

(** ** The automaton *)

(** ADISFile.__init__ *)
Definition init (resolution color_depth iteration_speed : Z)
    (last_time now_time iteration_count : Z) : result ADISFile :=
  image ← np_zeros resolution;
  Ok (mkADISFile resolution color_depth iteration_speed last_time now_time
        iteration_count [] image None None).

(** ADISFile.get_check_position *)
Definition get_check_position (self : ADISFile) (x y : Z) (direction : string)
  : result (Z * Z) :=
  if String.eqb direction "right" then
    y' ← pymod (y + 1) (resolution self); Ok (x, y')
  else if String.eqb direction "left" then
    y' ← pymod (y - 1) (resolution self); Ok (x, y')
  else if String.eqb direction "up" then
    x' ← pymod (x - 1) (resolution self); Ok (x', y)
  else
    x' ← pymod (x + 1) (resolution self); Ok (x', y).

(** The body of the two loops of [iterate_once], at cell [(x, y)]: every read
    is from [self.image_array], every write goes to [new_array]. *)
Definition iterate_cell (self : ADISFile) (x y : Z) (new_array : ndarray)
  : result ndarray :=
  current_color ← getitem (image_array self) x y;
  match find (fun c => bool_decide (rgb c = current_color)) (color_set self) with
  | None => Ok new_array
  | Some color_obj =>
      '(check_x, check_y) ← get_check_position self x y (check_direction color_obj);
      neighbor_color ← getitem (image_array self) check_x check_y;
      if bool_decide (neighbor_color ∈ activation_colors color_obj) then
        v ← getitem (image_array self) check_x check_y;
        new_array ← setitem new_array x y v;
        w ← getitem (image_array self) x y;
        setitem new_array check_x check_y w
      else Ok new_array
  end.

(** ADISFile.iterate_once *)
Definition iterate_once (self : ADISFile) : result ADISFile :=
  let new_array := image_array self in
  new_array ←
    for_each (range (resolution self))
      (fun x new_array =>
         for_each (range (resolution self))
           (fun y new_array => iterate_cell self x y new_array) new_array)
      new_array;
  Ok (set_image_array self new_array).

(** ** The time scheduler *)

(** ADISFile.update_times; [current_time] is what [get_internet_time]
    returned. *)
Definition update_times (self : ADISFile) (current_time : Z) : ADISFile :=
  if last_time self =? 0 then
    set_times self current_time (current_time + iteration_speed self)
  else
    set_times self (now_time self) current_time.

(** One round of the loop of [iterate_required]. *)
Definition iterate_and_count (self : ADISFile) : result ADISFile :=
  self ← iterate_once self;
  Ok (set_iteration_count self (iteration_count self + 1)).

(** ADISFile.iterate_required *)
Definition iterate_required (self : ADISFile) : result ADISFile :=
  let time_diff := now_time self - last_time self in
  iterations_needed ← floordiv time_diff (iteration_speed self);
  for_each (range iterations_needed) (fun _ self => iterate_and_count self) self.

(** ** Key derivation *)

(** [format(value, '08b')] for a uint8 [value]: eight binary digits, most
    significant first. *)
Definition bit_char (b : bool) : ascii := if b then "1"%char else "0"%char.
Definition format_08b (value : Z) : list ascii :=
  map (fun i => bit_char (Z.testbit value i)) [7; 6; 5; 4; 3; 2; 1; 0].

(** [f"{count}"]: the decimal spelling of an [int]. *)
Definition str_int (count : Z) : list ascii :=
  list_ascii_of_string (NilZero.string_of_int (Z.to_int count)).

(** The first loop nest of [generate_key]: the bit string of the image. *)
Definition image_bits (self : ADISFile) : result (list ascii) :=
  for_each (range (resolution self))
    (fun x binary =>
       for_each (range (resolution self))
         (fun y binary =>
            '(r, g, b) ← getitem (image_array self) x y;
            Ok (((binary ++ format_08b r) ++ format_08b g) ++ format_08b b))
         binary)
    [].

(** The loop [for bit in binary[1:]] of [generate_key] with its three
    variables, and the statement that follows it. *)
Fixpoint compress_loop (rest compressed : list ascii) (current_bit : ascii)
    (count : Z) : list ascii :=
  match rest with
  | [] => compressed ++ current_bit :: str_int count
  | bit :: rest' =>
      if Ascii.eqb bit current_bit then
        compress_loop rest' compressed current_bit (count + 1)
      else
        compress_loop rest' (compressed ++ current_bit :: str_int count) bit 1
  end.

(** ADISFile.generate_key; [binary[0]] raises on the empty string. *)
Definition generate_key (self : ADISFile) : result (list ascii) :=
  binary ← image_bits self;
  match binary with
  | [] => Raise IndexError
  | current_bit :: rest => Ok (compress_loop rest [] current_bit 1)
  end.

(** ** The cipher *)

Definition len {A : Type} (l : list A) : Z := Z.of_nat (length l).

(** [s[i:j]] for [0 <= i <= j]. *)
Definition slice {A : Type} (s : list A) (i j : Z) : list A :=
  take (Z.to_nat (j - i)) (drop (Z.to_nat i) s).

(** [range(0, stop, 2)] *)
Definition range2 (stop : Z) : list Z :=
  map (fun k => 2 * k) (seqZ 0 ((stop + 1) / 2)).

(** A list comprehension whose element expression may raise. *)
Fixpoint comprehension {A B : Type} (f : A -> result B) (l : list A)
  : result (list B) :=
  match l with
  | [] => Ok []
  | a :: l' => b ← f a; bs ← comprehension f l'; Ok (b :: bs)
  end.

Definition digit_val (c : ascii) : option Z :=
  let n := Z.of_N (N_of_ascii c) in
  if (48 <=? n) && (n <=? 57) then Some (n - 48) else None.

Fixpoint int_loop (s : list ascii) (acc : Z) : result Z :=
  match s with
  | [] => Ok acc
  | c :: s' =>
      match digit_val c with
      | Some d => int_loop s' (10 * acc + d)
      | None => Raise ValueError
      end
  end.

(** [int(s, 10)] on a string of decimal digits. Python also accepts a sign,
    surrounding blanks and underscores between digits; those spellings, like
    the empty string, are refused here, and the key never contains them
    (see [generate_key_digits]). *)
Definition int10 (s : list ascii) : result Z :=
  match s with
  | [] => Raise ValueError
  | _ => int_loop s 0
  end.

(** [[int(key[i:i+2], 10) for i in range(0, len(key), 2)]] *)
Definition key_bytes_of (key : list ascii) : result (list Z) :=
  comprehension (fun i => int10 (slice key i (i + 2))) (range2 (len key)).

(** [l * n] on lists. *)
Definition list_mul {A : Type} (l : list A) (n : Z) : list A :=
  concat (replicate (Z.to_nat n) l).

(** [bytes(iterable)]: every item must be in [range(256)]. *)
Definition bytes_of (l : list Z) : result (list Z) :=
  comprehension
    (fun v => if (0 <=? v) && (v <? 256) then Ok v else Raise ValueError) l.

(** [a ^ b] on a pair that [zip] produced. *)
Definition xor_pair (ab : Z * Z) : Z := Z.lxor ab.1 ab.2.

(** [bytes(a ^ b for a, b in zip(data, key_bytes * (len(data) // len(key_bytes) + 1)))] *)
Definition xor_bytes (data key_bytes : list Z) : result (list Z) :=
  q ← floordiv (len data) (len key_bytes);
  bytes_of (map xor_pair (combine data (list_mul key_bytes (q + 1)))).

(** [str.encode('utf-8')], one code point. *)
Definition encode_char (c : Z) : result (list Z) :=
  if (0 <=? c) && (c <? 128) then Ok [c]
  else if (128 <=? c) && (c <? 2048) then Ok [192 + c / 64; 128 + c mod 64]
  else if (2048 <=? c) && (c <? 65536) then
    if (55296 <=? c) && (c <? 57344) then Raise UnicodeEncodeError
    else Ok [224 + c / 4096; 128 + (c / 64) mod 64; 128 + c mod 64]
  else if (65536 <=? c) && (c <? 1114112) then
    Ok [240 + c / 262144; 128 + (c / 4096) mod 64; 128 + (c / 64) mod 64;
        128 + c mod 64]
  else Raise UnicodeEncodeError.

Fixpoint utf8_encode (text : list Z) : result (list Z) :=
  match text with
  | [] => Ok []
  | c :: text' =>
      bs ← encode_char c; rest ← utf8_encode text'; Ok (bs ++ rest)
  end.

Definition is_cont (b : Z) : bool := (128 <=? b) && (b <? 192).

(** [bytes.decode('utf-8')], the strict decoder: no overlong forms, no
    surrogates, nothing above U+10FFFF. *)
Fixpoint utf8_decode (bs : list Z) : result (list Z) :=
  match bs with
  | [] => Ok []
  | b0 :: r0 =>
      if (0 <=? b0) && (b0 <? 128) then
        cs ← utf8_decode r0; Ok (b0 :: cs)
      else if (194 <=? b0) && (b0 <? 224) then
        match r0 with
        | b1 :: r1 =>
            if is_cont b1 then
              cs ← utf8_decode r1;
              Ok ((b0 - 192) * 64 + (b1 - 128) :: cs)
            else Raise UnicodeDecodeError
        | _ => Raise UnicodeDecodeError
        end
      else if (224 <=? b0) && (b0 <? 240) then
        match r0 with
        | b1 :: b2 :: r2 =>
            let c := (b0 - 224) * 4096 + (b1 - 128) * 64 + (b2 - 128) in
            if is_cont b1 && is_cont b2 && (2048 <=? c)
               && negb ((55296 <=? c) && (c <? 57344)) then
              cs ← utf8_decode r2; Ok (c :: cs)
            else Raise UnicodeDecodeError
        | _ => Raise UnicodeDecodeError
        end
      else if (240 <=? b0) && (b0 <? 245) then
        match r0 with
        | b1 :: b2 :: b3 :: r3 =>
            let c := (b0 - 240) * 262144 + (b1 - 128) * 4096
                     + (b2 - 128) * 64 + (b3 - 128) in
            if is_cont b1 && is_cont b2 && is_cont b3
               && (65536 <=? c) && (c <? 1114112) then
              cs ← utf8_decode r3; Ok (c :: cs)
            else Raise UnicodeDecodeError
        | _ => Raise UnicodeDecodeError
        end
      else Raise UnicodeDecodeError
  end.

(** [bytes.hex()] *)
Definition hex_digit (n : Z) : ascii :=
  nth (Z.to_nat n) (list_ascii_of_string "0123456789abcdef") "0"%char.
Definition hex (bs : list Z) : list ascii :=
  flat_map (fun b => [hex_digit (b / 16); hex_digit (b mod 16)]) bs.

Definition hex_val (c : ascii) : option Z :=
  let n := Z.of_N (N_of_ascii c) in
  if (48 <=? n) && (n <=? 57) then Some (n - 48)
  else if (97 <=? n) && (n <=? 102) then Some (n - 87)
  else if (65 <=? n) && (n <=? 70) then Some (n - 55)
  else None.

Definition is_space (c : ascii) : bool :=
  let n := Z.of_N (N_of_ascii c) in
  (n =? 32) || ((9 <=? n) && (n <=? 13)).

(** [bytes.fromhex(s)]: pairs of hex digits, blanks allowed between pairs. *)
Fixpoint fromhex (s : list ascii) : result (list Z) :=
  match s with
  | [] => Ok []
  | c :: r =>
      if is_space c then fromhex r
      else
        match r with
        | d :: r' =>
            match hex_val c, hex_val d with
            | Some h, Some l => bs ← fromhex r'; Ok (16 * h + l :: bs)
            | _, _ => Raise ValueError
            end
        | [] => Raise ValueError
        end
  end.

(** ADISFile.encrypt_string *)
Definition encrypt_string (self : ADISFile) (text : list Z)
  : result (list ascii) :=
  key ← generate_key self;
  key_bytes ← key_bytes_of key;
  text_bytes ← utf8_encode text;
  encrypted_bytes ← xor_bytes text_bytes key_bytes;
  Ok (hex encrypted_bytes).

(** ADISFile.decrypt_string *)
Definition decrypt_string (self : ADISFile) (encrypted_hex : list ascii)
  : result (list Z) :=
  key ← generate_key self;
  key_bytes ← key_bytes_of key;
  encrypted_bytes ← fromhex encrypted_hex;
  decrypted_bytes ← xor_bytes encrypted_bytes key_bytes;
  utf8_decode decrypted_bytes.

(** The three statements both menus of [ADISEncryptionApp] run to encrypt:
    [encrypted = adis.encrypt_string(s)], [adis.encrypted_string = encrypted],
    [adis.key_image = np.copy(adis.image_array)]. *)
Definition app_encrypt_string (adis : ADISFile) (s : list Z) : result ADISFile :=
  encrypted ← encrypt_string adis s;
  Ok (set_encrypted adis encrypted (image_array adis)).

(** The decrypt button of [ADISEncryptionApp]: [None] when the object holds
    no (or an empty) encrypted string, and otherwise
    [adis_file.decrypt_string(adis_file.encrypted_string)]. *)
Definition app_decrypt_string (adis : ADISFile) : option (result (list Z)) :=
  match encrypted_string adis with
  | None | Some [] => None
  | Some h => Some (decrypt_string adis h)
  end.

(** ** Palette generation *)

(** The generator of module [random] is a tape of raw draws: each call takes
    the next draw and reduces it to the range asked for, so that every run of
    the program is the run on some tape. A computation is [None] when the
    tape ends before it does. *)
Definition rand (A : Type) : Type := list Z -> option (result A * list Z).

#[global] Instance rand_ret : MRet rand := fun _ a t => Some (Ok a, t).
#[global] Instance rand_bind : MBind rand := fun _ _ f m t =>
  match m t with
  | None => None
  | Some (Raise e, t') => Some (Raise e, t')
  | Some (Ok a, t') => f a t'
  end.

Definition rand_raise {A : Type} (e : exn) : rand A := fun t => Some (Raise e, t).

(** [random.randint(a, b)] *)
Definition randint (a b : Z) : rand Z := fun t =>
  if b <? a then Some (Raise ValueError, t)
  else
    match t with
    | [] => None
    | d :: t' => Some (Ok (a + d mod (b - a + 1)), t')
    end.

(** [random.choice(seq)] *)
Definition random_choice {A : Type} (seq : list A) : rand A :=
  match seq with
  | [] => rand_raise IndexError
  | _ =>
      j ← randint 0 (len seq - 1);
      match seq !! Z.to_nat j with
      | Some v => mret v
      | None => rand_raise IndexError
      end
  end.

Fixpoint sample_loop {A : Type} (pool : list A) (k : nat) : rand (list A) :=
  match k with
  | O => mret []
  | S k' =>
      j ← randint 0 (len pool - 1);
      match pool !! Z.to_nat j with
      | Some v => rest ← sample_loop (delete (Z.to_nat j) pool) k'; mret (v :: rest)
      | None => rand_raise IndexError
      end
  end.

(** [random.sample(population, k)]: [k] items from distinct positions. *)
Definition random_sample {A : Type} (population : list A) (k : Z) : rand (list A) :=
  if (k <? 0) || (len population <? k) then rand_raise ValueError
  else sample_loop population (Z.to_nat k).

(** The [while True] loop of [generate_random_colors]; each round takes three
    draws, so a tape of [fuel] draws never needs more than [fuel] rounds. *)
Fixpoint fresh_rgb_loop (used_colors : gset RGB) (fuel : nat) : rand RGB :=
  match fuel with
  | O => fun _ => None
  | S fuel' =>
      r ← randint 0 255;
      g ← randint 0 255;
      b ← randint 0 255;
      if bool_decide ((r, g, b) ∉ used_colors) then mret (r, g, b)
      else fresh_rgb_loop used_colors fuel'
  end.

Definition fresh_rgb (used_colors : gset RGB) : rand RGB := fun t =>
  fresh_rgb_loop used_colors (length t) t.

Definition directions : list string := ["left"; "right"; "up"; "down"]%string.

(** One round of [for _ in range(self.color_depth)]. The order in which
    [list(used_colors - {rgb})] lists a set is that of [elements]. *)
Definition generate_color (acc : gset RGB * list Color)
  : rand (gset RGB * list Color) :=
  let '(used_colors, color_set) := acc in
  rgb ← fresh_rgb used_colors;
  let used_colors := {[rgb]} ∪ used_colors in
  let available_colors := elements (used_colors ∖ {[rgb]}) in
  activation_colors ←
    (if 1 <=? len available_colors then
       num_activation_colors ← randint 1 (Z.min 2 (len available_colors));
       random_sample available_colors num_activation_colors
     else mret []);
  check_direction ← random_choice directions;
  mret (used_colors, color_set ++ [mkColor rgb check_direction activation_colors]).

Fixpoint rand_repeat {S : Type} (n : nat) (body : S -> rand S) (s : S) : rand S :=
  match n with
  | O => mret s
  | S n' => s' ← body s; rand_repeat n' body s'
  end.

(** ADISFile.generate_random_colors *)
Definition generate_random_colors (self : ADISFile) : rand ADISFile :=
  acc ← rand_repeat (Z.to_nat (color_depth self)) generate_color
          (∅, color_set self);
  mret (set_color_set self (snd acc)).

(** ** Well-formed objects and the pure reading of the step *)

(** The shape (resolution, resolution, 3) of [image_array]. *)
Definition shape_ok (R : Z) (a : ndarray) : Prop :=
  length a = Z.to_nat R /\ Forall (fun row => length row = Z.to_nat R) a.

(** dtype uint8. *)
Definition is_u8 (v : Z) : Prop := 0 <= v < 256.
Definition dtype_ok (a : ndarray) : Prop :=
  Forall (Forall (fun px : RGB => is_u8 px.1.1 /\ is_u8 px.1.2 /\ is_u8 px.2)) a.

(** The value at an in-range cell, and the array with one cell replaced. *)
Definition cell (a : ndarray) (p : Z * Z) : RGB :=
  match a !! Z.to_nat p.1 with
  | Some row => default (0, 0, 0) (row !! Z.to_nat p.2)
  | None => (0, 0, 0)
  end.

Definition put (a : ndarray) (p : Z * Z) (v : RGB) : ndarray :=
  match a !! Z.to_nat p.1 with
  | Some row => <[Z.to_nat p.1 := <[Z.to_nat p.2 := v]> row]> a
  | None => a
  end.

Definition in_grid (R : Z) (p : Z * Z) : Prop :=
  0 <= p.1 < R /\ 0 <= p.2 < R.

(** The cells in the order the two loops visit them. *)
Definition scan_order (R : Z) : list (Z * Z) :=
  flat_map (fun x => map (fun y => (x, y)) (range R)) (range R).

(** The coordinate [get_check_position] returns when [resolution] is not 0. *)
Definition check_position (R : Z) (p : Z * Z) (direction : string) : Z * Z :=
  if String.eqb direction "right" then (p.1, (p.2 + 1) mod R)
  else if String.eqb direction "left" then (p.1, (p.2 - 1) mod R)
  else if String.eqb direction "up" then ((p.1 - 1) mod R, p.2)
  else ((p.1 + 1) mod R, p.2).

(** The cell that [p] swaps with in this pass, if its rule fires. *)
Definition swap_target (self : ADISFile) (p : Z * Z) : option (Z * Z) :=
  match find (fun c => bool_decide (rgb c = cell (image_array self) p))
             (color_set self) with
  | None => None
  | Some color_obj =>
      let q := check_position (resolution self) p (check_direction color_obj) in
      if bool_decide (cell (image_array self) q ∈ activation_colors color_obj)
      then Some q else None
  end.

(** What [iterate_cell] does to [new_array] on a well-shaped image. *)
Definition apply_cell (self : ADISFile) (new_array : ndarray) (p : Z * Z)
  : ndarray :=
  match swap_target self p with
  | None => new_array
  | Some q =>
      put (put new_array p (cell (image_array self) q)) q
          (cell (image_array self) p)
  end.

(** The image [iterate_once] leaves on a well-shaped image. *)
Definition step_image (self : ADISFile) : ndarray :=
  fold_left (apply_cell self) (scan_order (resolution self)) (image_array self).

(** The cells written during the pass, in the order of the writes. *)
Definition touched (self : ADISFile) : list (Z * Z) :=
  flat_map (fun p => match swap_target self p with
                     | Some q => [p; q]
                     | None => []
                     end)
           (scan_order (resolution self)).

(** Every cell holds a colour of the palette. *)
Definition palette_ok (self : ADISFile) : Prop :=
  forall v, v ∈ concat (image_array self) -> v ∈ map rgb (color_set self).

(** [n] calls of [iterate_once] in a row. *)
Fixpoint iterate_times (n : nat) (self : ADISFile) : result ADISFile :=
  match n with
  | O => Ok self
  | S n' => self' ← iterate_once self; iterate_times n' self'
  end.

(** ** The step as section 4.2 of the specification words it *)

Module Ref.

Inductive Direction : Set := left | right | up | down.

Record ColorRule : Type := mkColorRule {
  rule_rgb : RGB;
  direction : Direction;
  activation : gset RGB
}.

(** A grid is read and written by coordinate. *)
Definition Grid : Type := Z * Z -> RGB.

Definition write (g : Grid) (p : Z * Z) (v : RGB) : Grid :=
  fun c => if bool_decide (c = p) then v else g c.

(** Row-major order: outer index x ascending, inner index y ascending. *)
Definition row_major (R : Z) : list (Z * Z) :=
  x ← seqZ 0 R; y ← seqZ 0 R; [(x, y)].

(** The rule whose colour is [c]; none when no rule, or more than one,
    carries it. *)
Definition lookup_rule (palette : list ColorRule) (c : RGB) : option ColorRule :=
  match filter (fun r => rule_rgb r = c) palette with
  | [r] => Some r
  | _ => None
  end.

(** Toroidal neighbour. *)
Definition neighbor (R : Z) (p : Z * Z) (d : Direction) : Z * Z :=
  match d with
  | right => (p.1, (p.2 + 1) mod R)
  | left => (p.1, (p.2 - 1) mod R)
  | up => ((p.1 - 1) mod R, p.2)
  | down => ((p.1 + 1) mod R, p.2)
  end.

(** Steps 1 to 4 for one cell: reads from [grid], writes to [grid']. *)
Definition visit (R : Z) (palette : list ColorRule) (grid : Grid)
    (grid' : Grid) (p : Z * Z) : Grid :=
  match lookup_rule palette (grid p) with
  | None => grid'
  | Some rule =>
      let q := neighbor R p (direction rule) in
      if bool_decide (grid q ∈ activation rule) then
        write (write grid' p (grid q)) q (grid p)
      else grid'
  end.

Definition step (R : Z) (palette : list ColorRule) (grid : Grid) : Grid :=
  fold_left (visit R palette grid) (row_major R) grid.

End Ref.

(** How an object of the program is read as the specification's data. *)
Definition direction_of (s : string) : Ref.Direction :=
  if String.eqb s "right" then Ref.right
  else if String.eqb s "left" then Ref.left
  else if String.eqb s "up" then Ref.up
  else Ref.down.

Definition rule_of (c : Color) : Ref.ColorRule :=
  Ref.mkColorRule (rgb c) (direction_of (check_direction c))
    (list_to_set (activation_colors c)).

Definition palette_of (self : ADISFile) : list Ref.ColorRule :=
  map rule_of (color_set self).

(** The palette invariant the lookup relies on, and the four direction
    names. *)
Definition distinct_colors (self : ADISFile) : Prop :=
  NoDup (map rgb (color_set self)).
Definition known_directions (self : ADISFile) : Prop :=
  Forall (fun c => check_direction c ∈ directions) (color_set self).

(** ** Sample objects *)

(** A 2 x 2 image in which the white cell swaps with its right neighbour. *)
Definition black : RGB := (0, 0, 0).
Definition white : RGB := (255, 255, 255).

Definition two_colors : list Color :=
  [mkColor black "right" []; mkColor white "right" [black]].

Definition small_adis : ADISFile :=
  mkADISFile 2 2 1 0 0 0 two_colors
    [[white; black]; [black; black]] None None.

(** A 3 x 3 image whose first row holds two overlapping swaps: cell (0,0)
    swaps with (0,1), and (0,1) swaps with (0,2). The palette is one that
    [generate_random_colors] can build: each activation list names colours
    generated earlier. *)
Definition chain_colors : list Color :=
  [mkColor (3, 3, 3) "right" [];
   mkColor (2, 2, 2) "right" [(3, 3, 3)];
   mkColor (1, 1, 1) "right" [(2, 2, 2)]].

Definition chain_adis : ADISFile :=
  mkADISFile 3 3 1 0 0 0 chain_colors
    [[(1, 1, 1); (2, 2, 2); (3, 3, 3)];
     [(3, 3, 3); (3, 3, 3); (3, 3, 3)];
     [(3, 3, 3); (3, 3, 3); (3, 3, 3)]] None None.

(** The text "hi". *)
Definition hi : list Z := [104; 105].

(** "h", e-acute, the euro sign and an emoji: one to four bytes each. *)
Definition mixed_text : list Z := [104; 233; 8364; 128512].

(** [small_adis] three ticks after its last update. *)
Definition three_ticks_adis : ADISFile := set_times small_adis 100 103.

(** An object asked for a palette of one colour. *)
Definition one_color_adis : ADISFile :=
  mkADISFile 4 1 1 0 0 0 [] (replicate 4 (replicate 4 black)) None None.

(** An object asked for a palette of no colours. *)
Definition no_colors_adis : ADISFile :=
  mkADISFile 4 0 1 0 0 0 [] (replicate 4 (replicate 4 black)) None None.

(** ** Predicates and specification-side functions of the key and cipher *)

Definition is_digit (c : ascii) : Prop := c ∈ list_ascii_of_string "0123456789".
Definition is_bit (c : ascii) : Prop := c = "0"%char \/ c = "1"%char.
Definition is_byte (v : Z) : Prop := 0 <= v < 256.

(** A code point that UTF-8 can carry: a Unicode scalar value. *)
Definition is_scalar (c : Z) : Prop :=
  0 <= c < 1114112 /\ ~ 55296 <= c < 57344.

(** The 24 bits one cell contributes to the bit string. *)
Definition pixel_bits (px : RGB) : list ascii :=
  format_08b px.1.1 ++ format_08b px.1.2 ++ format_08b px.2.

(** Consecutive two-character chunks; the last one is shorter when the
    length is odd. *)
Fixpoint chunks2 {A : Type} (s : list A) : list (list A) :=
  match s with
  | [] => []
  | [a] => [[a]]
  | a :: b :: s' => [a; b] :: chunks2 s'
  end.

(** Run-length encoding as section 4.3 words it: the maximal runs of equal
    characters, each written as its character followed by the decimal digits
    of its length. *)
Definition push_run (r : ascii * Z) (rs : list (ascii * Z)) : list (ascii * Z) :=
  match rs with
  | (d, n) :: rs' => if Ascii.eqb r.1 d then (d, n + r.2) :: rs' else r :: rs
  | [] => [r]
  end.

Fixpoint runs (s : list ascii) : list (ascii * Z) :=
  match s with
  | [] => []
  | c :: s' => push_run (c, 1) (runs s')
  end.

Definition rle (s : list ascii) : list ascii :=
  flat_map (fun r => r.1 :: str_int r.2) (runs s).

(** The [k]-th colour of the 24-bit space. *)
Definition nth_color (k : Z) : RGB := (k / 65536, (k / 256) mod 256, k mod 256).

(** [m] never raises, and what it returns satisfies [Q]. *)
Definition returns {A : Type} (m : rand A) (Q : A -> Prop) : Prop :=
  forall t, match m t with
            | None => True
            | Some (Ok a, _) => Q a
            | Some (Raise _, _) => False
            end.

(** ** Image initialisation and the creation of an object *)

(** A step that cannot draw, inside a computation that can. *)
Definition rand_lift {A : Type} (m : result A) : rand A := fun t => Some (m, t).

(** [for v in l: body] in a computation that draws. *)
Fixpoint rand_for {A S : Type} (l : list A) (body : A -> S -> rand S) (s : S)
  : rand S :=
  match l with
  | [] => mret s
  | v :: l' => s' ← body v s; rand_for l' body s'
  end.

(** The conversion of a Python int stored into an array of dtype uint8: a
    value outside 0..255 raises [OverflowError]. (This is NumPy 2; NumPy 1
    stored the value modulo 256 instead. The two agree on 0..255, and
    nothing below is stated outside that range.) *)
Definition uint8 (v : Z) : result Z :=
  if (0 <=? v) && (v <? 256) then Ok v else Raise OverflowError.

Definition uint8_rgb (c : RGB) : result RGB :=
  r ← uint8 c.1.1;
  g ← uint8 c.1.2;
  b ← uint8 c.2;
  Ok (r, g, b).

(** [image[i, j] = color] for a tuple of Python ints and an image of dtype
    uint8: the index is resolved, then the tuple is converted and stored. *)
Definition setitem_uint8 (image : ndarray) (i j : Z) (color : RGB)
  : result ndarray :=
  _ ← getitem image i j;
  color ← uint8_rgb color;
  setitem image i j color.

(** The body of the two loops of [initialize_image], at cell [(i, j)]. *)
Definition initialize_cell (self : ADISFile) (i j : Z) (image : ndarray)
  : rand ndarray :=
  color_obj ← random_choice (color_set self);
  rand_lift (setitem_uint8 image i j (rgb color_obj)).

(** ADISFile.initialize_image *)
Definition initialize_image (self : ADISFile) : rand ADISFile :=
  image ←
    rand_for (range (resolution self))
      (fun i image =>
         rand_for (range (resolution self))
           (fun j image => initialize_cell self i j image) image)
      (image_array self);
  mret (set_image_array self image).

(** The body of [create_adis] in [show_new_adis_menu], from the construction
    of the object to the storing of the ciphertext and the key image; the
    three numbers are what [int(...)] read from the form, [current_time] is
    what [get_internet_time] returned. Whatever is raised is what the
    [except] clause reports. *)
Definition create_adis (resolution color_depth iteration_speed : Z)
    (text : list Z) (current_time : Z) : rand ADISFile :=
  adis ← rand_lift (init resolution color_depth iteration_speed 0 0 0);
  adis ← generate_random_colors adis;
  adis ← initialize_image adis;
  adis ← rand_lift (iterate_required (update_times adis current_time));
  rand_lift (app_encrypt_string adis text).

(** ** Predicates of the further properties *)

(** Channel values of dtype uint8. *)
Definition rgb_u8 (c : RGB) : Prop := is_u8 c.1.1 /\ is_u8 c.1.2 /\ is_u8 c.2.

(** What [generate_random_colors] guarantees of a colour given the colours
    generated before it. *)
Definition rule_ok (earlier : list Color) (c : Color) : Prop :=
  rgb_u8 (rgb c)
  /\ (check_direction c ∈ directions)
  /\ (rgb c ∉ map rgb earlier)
  /\ NoDup (activation_colors c)
  /\ (forall a, a ∈ activation_colors c -> a ∈ map rgb earlier)
  /\ (length (activation_colors c) <= 2)%nat
  /\ (earlier <> [] -> (1 <= length (activation_colors c))%nat).

Definition generated_palette (cs : list Color) : Prop :=
  forall i c, cs !! i = Some c -> rule_ok (take i cs) c.

(** The loop invariant: the set of used colours is the set of colours of the
    palette, and every colour of the palette is as [rule_ok] says. *)
Definition palette_inv (acc : gset RGB * list Color) : Prop :=
  acc.1 = list_to_set (map rgb acc.2) /\ generated_palette acc.2.

(** [m] takes exactly [n] draws: on a tape of at least [n] draws it returns
    a value satisfying [Q] and leaves the rest of the tape, on a shorter tape
    it is still drawing when the tape ends. *)
Definition draws {A : Type} (m : rand A) (n : nat) (Q : A -> Prop) : Prop :=
  forall t,
    ((n <= length t)%nat -> exists a, m t = Some (Ok a, drop n t) /\ Q a)
    /\ ((length t < n)%nat -> m t = None).

(** The cells [V] of the image hold palette colours. *)
Definition painted (self : ADISFile) (V : Z * Z -> Prop) (image : ndarray) : Prop :=
  shape_ok (resolution self) image
  /\ forall p, in_grid (resolution self) p -> V p ->
       cell image p ∈ map rgb (color_set self).

(** The direction that undoes [direction]; a name [get_check_position] does
    not know moves down, so it is undone by moving up. *)
Definition opposite (direction : string) : string :=
  if String.eqb direction "right" then "left"
  else if String.eqb direction "left" then "right"
  else if String.eqb direction "up" then "down"
  else "up".

(** The bit string a list of runs stands for. *)
Definition expand (rs : list (ascii * Z)) : list ascii :=
  flat_map (fun r => replicate (Z.to_nat r.2) r.1) rs.

(** Neighbouring runs carry different characters. *)
Fixpoint alternating (rs : list (ascii * Z)) : Prop :=
  match rs with
  | r :: (r' :: _) as rs' => r.1 <> r'.1 /\ alternating rs'
  | _ => True
  end.

Definition is_hex_digit (c : ascii) : Prop :=
  c ∈ list_ascii_of_string "0123456789abcdef".

(** An object asked for a palette of three colours, a tape on which the
    second and third colour are first drawn as a colour already used, and the
    palette generated on it. *)
Definition three_color_adis : ADISFile :=
  mkADISFile 4 3 1 0 0 0 [] (replicate 4 (replicate 4 black)) None None.

Definition three_color_tape : list Z :=
  [1; 2; 3; 0; 1; 2; 3; 4; 5; 6; 0; 0; 2; 260; 5; 6; 7; 8; 9; 1; 1; 0; 3].

Definition three_colors : list Color :=
  [mkColor (1, 2, 3) "left" [];
   mkColor (4, 5, 6) "up" [(1, 2, 3)];
   mkColor (7, 8, 9) "down" [(4, 5, 6); (1, 2, 3)]].

(** [small_adis] before its image is drawn, and four draws. *)
Definition blank_adis : ADISFile :=
  mkADISFile 2 2 1 0 0 0 two_colors (replicate 2 (replicate 2 black)) None None.

(** A tape on which [create_adis 2 2 1] builds the palette [two_colors] and
    the image of [small_adis]. *)
Definition creation_tape : list Z :=
  [0; 0; 0; 1; 255; 255; 255; 0; 0; 1; 1; 0; 0; 0].

(** What [create_adis 2 2 1 hi 29000000] returns on [creation_tape]. *)
Definition created_adis : ADISFile :=
  mkADISFile 2 2 1 29000000 29000001 1 two_colors
    [[black; white]; [black; black]]
    (Some (list_ascii_of_string "6a40")) (Some [[black; white]; [black; black]]).

(** An image with fewer rows than its resolution. *)
Definition short_adis : ADISFile :=
  mkADISFile 2 2 1 0 0 0 two_colors [[white; black]] None None.

(** An object of resolution 0. *)
Definition empty_adis : ADISFile := mkADISFile 0 2 1 0 0 0 two_colors [] None None.

(** [small_adis] with a clock that does not move. *)
Definition stopped_adis : ADISFile :=
  mkADISFile 2 2 0 0 0 0 two_colors [[white; black]; [black; black]] None None.

(** A palette without activation colours. *)
Definition inert_adis : ADISFile :=
  mkADISFile 2 2 1 0 0 0
    [mkColor black "right" []; mkColor white "left" []]
    [[white; black]; [black; white]] None None.

(** * Proofs *)

(** ** Tactics *)

(** A closed decidable proposition, by evaluation. *)
Ltac decide_closed :=
  match goal with
  | |- ?P => refine (@bool_decide_unpack P _ _); vm_compute; exact I
  end.

Ltac digit_char := unfold is_digit; decide_closed.

Ltac closed_image :=
  first [ unfold shape_ok; decide_closed
        | unfold dtype_ok, is_u8; decide_closed ].

(** Linear arithmetic with division and remainder by constants. *)
Ltac lia_div := Z.div_mod_to_equations; lia.

Ltac decide_tests :=
  repeat match goal with
    | |- context [?a <=? ?b] =>
        first [ rewrite (proj2 (Z.leb_le a b)) by lia_div
              | rewrite (proj2 (Z.leb_gt a b)) by lia_div ]
    | |- context [?a <? ?b] =>
        first [ rewrite (proj2 (Z.ltb_lt a b)) by lia_div
              | rewrite (proj2 (Z.ltb_ge a b)) by lia_div ]
    end.

#[local] Create HintDb shape.

(** ** The error monad and the loops *)

Lemma for_each_fold {A S : Type} (I : S -> Prop) (f : S -> A -> S)
    (body : A -> S -> result S) (l : list A) (s : S) :
  (forall v s, v ∈ l -> I s -> body v s = Ok (f s v) /\ I (f s v)) ->
  I s ->
  for_each l body s = Ok (fold_left f l s) /\ I (fold_left f l s).
Proof.
  revert s. induction l as [|v l IH]; intros s Hbody Hs; simpl.
  - split; [reflexivity | assumption].
  - destruct (Hbody v s) as [-> Hs']; [left | assumption |].
    simpl. apply IH; [|assumption].
    intros w s0 Hw. apply Hbody. by right.
Qed.

Lemma fold_left_flat_map {A B S : Type} (f : S -> B -> S) (g : A -> list B)
    (l : list A) (s : S) :
  fold_left f (flat_map g l) s = fold_left (fun s x => fold_left f (g x) s) l s.
Proof.
  revert s. induction l as [|x l IH]; intros s; simpl; [reflexivity|].
  by rewrite fold_left_app, IH.
Qed.

Lemma fold_left_over_map {A B S : Type} (f : S -> B -> S) (g : A -> B)
    (l : list A) (s : S) :
  fold_left f (map g l) s = fold_left (fun s x => f s (g x)) l s.
Proof. revert s. induction l as [|x l IH]; intros s; simpl; [reflexivity|apply IH]. Qed.

Lemma elem_of_range (n v : Z) : v ∈ range n <-> 0 <= v < n.
Proof. unfold range. rewrite elem_of_seqZ. lia. Qed.

Lemma elem_of_scan_order (R : Z) (p : Z * Z) : p ∈ scan_order R <-> in_grid R p.
Proof.
  unfold scan_order, in_grid. rewrite list_elem_of_In, in_flat_map.
  split.
  - intros (x & Hx & Hp). apply in_map_iff in Hp as (y & <- & Hy).
    apply list_elem_of_In, elem_of_range in Hx.
    apply list_elem_of_In, elem_of_range in Hy. simpl. lia.
  - intros [Hx Hy]. exists p.1. split.
    + apply list_elem_of_In, elem_of_range, Hx.
    + apply in_map_iff. exists p.2. split; [by destruct p|].
      apply list_elem_of_In, elem_of_range, Hy.
Qed.

(** ** numpy indexing on a well-shaped array *)

Lemma index_in_range (n : nat) (i : Z) :
  0 <= i < Z.of_nat n -> index n i = Ok (Z.to_nat i).
Proof.
  intros H. unfold index.
  destruct (Z.leb_spec 0 i); [|lia]. destruct (Z.ltb_spec i (Z.of_nat n)); [|lia].
  reflexivity.
Qed.

Section WellShaped.

Context (R : Z) (a : ndarray) (Ha : shape_ok R a).

Lemma shape_row (x : Z) :
  0 <= x < R -> exists row, a !! Z.to_nat x = Some row /\ length row = Z.to_nat R.
Proof.
  destruct Ha as [Hlen Hrows]. intros Hx.
  destruct (lookup_lt_is_Some_2 a (Z.to_nat x)) as [row Hrow]; [lia|].
  exists row. split; [assumption|].
  by apply (Forall_lookup_1 _ _ _ _ Hrows Hrow).
Qed.

Lemma getitem_ok (x y : Z) :
  in_grid R (x, y) -> getitem a x y = Ok (cell a (x, y)).
Proof.
  intros [Hx Hy]. simpl in Hx, Hy.
  destruct (shape_row x Hx) as (row & Hrow & Hlen).
  unfold getitem, cell. simpl.
  rewrite index_in_range by (destruct Ha; lia). simpl.
  rewrite Hrow. rewrite index_in_range by lia. simpl.
  destruct (lookup_lt_is_Some_2 row (Z.to_nat y)) as [v Hv]; [lia|].
  by rewrite Hv.
Qed.

Lemma setitem_ok (x y : Z) (v : RGB) :
  in_grid R (x, y) -> setitem a x y v = Ok (put a (x, y) v).
Proof.
  intros [Hx Hy]. simpl in Hx, Hy.
  destruct (shape_row x Hx) as (row & Hrow & Hlen).
  unfold setitem, put. simpl.
  rewrite index_in_range by (destruct Ha; lia). simpl.
  rewrite Hrow. rewrite index_in_range by lia. reflexivity.
Qed.

Lemma shape_put (p : Z * Z) (v : RGB) : shape_ok R (put a p v).
Proof.
  destruct Ha as [Hlen Hrows]. unfold put.
  destruct (a !! Z.to_nat p.1) as [row|] eqn:Hrow; [|by split].
  split; [by rewrite length_insert|].
  apply Forall_insert; [assumption|].
  rewrite length_insert. by apply (Forall_lookup_1 _ _ _ _ Hrows Hrow).
Qed.

Lemma cell_put (p c : Z * Z) (v : RGB) :
  in_grid R p -> in_grid R c ->
  cell (put a p v) c = if bool_decide (c = p) then v else cell a c.
Proof.
  intros [Hx Hy] [Hx' Hy'].
  destruct (shape_row p.1 Hx) as (row & Hrow & Hlen).
  unfold put, cell. rewrite Hrow.
  destruct (decide (c.1 = p.1)) as [E1|N1].
  - rewrite E1, list_lookup_insert_eq by (apply lookup_lt_is_Some; eauto).
    rewrite Hrow.
    destruct (decide (c.2 = p.2)) as [E2|N2].
    + rewrite E2, list_lookup_insert_eq by lia. simpl.
      rewrite bool_decide_eq_true_2; [reflexivity|].
      destruct c, p; simpl in *; congruence.
    + rewrite list_lookup_insert_ne by lia.
      rewrite bool_decide_eq_false_2; [reflexivity|]. congruence.
  - rewrite list_lookup_insert_ne by lia.
    rewrite bool_decide_eq_false_2; [reflexivity|]. congruence.
Qed.

(** Replacing one cell replaces one element of the multiset of colours. *)
Lemma put_perm (p : Z * Z) :
  in_grid R p ->
  exists rest, concat a ≡ₚ cell a p :: rest
               /\ forall v, concat (put a p v) ≡ₚ v :: rest.
Proof.
  intros [Hx Hy].
  destruct (shape_row p.1 Hx) as (row & Hrow & Hlen).
  destruct (lookup_lt_is_Some_2 row (Z.to_nat p.2)) as [w Hw]; [lia|].
  exists (concat (take (Z.to_nat p.1) a)
          ++ (take (Z.to_nat p.2) row ++ drop (S (Z.to_nat p.2)) row)
          ++ concat (drop (S (Z.to_nat p.1)) a)).
  unfold cell, put. rewrite Hrow, Hw. simpl. split.
  - rewrite <- (take_drop_middle a _ _ Hrow) at 1.
    rewrite concat_app. simpl.
    rewrite <- (take_drop_middle row _ _ Hw) at 1.
    rewrite <- !app_assoc. simpl.
    rewrite !Permutation_middle. reflexivity.
  - intros v.
    rewrite insert_take_drop by (apply lookup_lt_is_Some; eauto).
    rewrite concat_app. simpl.
    rewrite insert_take_drop by lia.
    rewrite <- !app_assoc. simpl.
    rewrite !Permutation_middle. reflexivity.
Qed.

Lemma cell_in_image (p : Z * Z) : in_grid R p -> cell a p ∈ concat a.
Proof.
  intros Hp. destruct (put_perm p Hp) as (rest & -> & _). left.
Qed.

Lemma elem_of_put (p : Z * Z) (v w : RGB) :
  in_grid R p -> w ∈ concat (put a p v) -> w = v \/ w ∈ concat a.
Proof.
  intros Hp. destruct (put_perm p Hp) as (rest & -> & ->).
  rewrite !elem_of_cons. tauto.
Qed.

Lemma elem_of_image (v : RGB) :
  v ∈ concat a <-> exists p, in_grid R p /\ cell a p = v.
Proof.
  split.
  - rewrite list_elem_of_In, in_concat. intros (row & Hrow & Hv).
    apply list_elem_of_In, list_elem_of_lookup in Hrow as [i Hi].
    apply list_elem_of_In, list_elem_of_lookup in Hv as [j Hj].
    pose proof (lookup_lt_Some _ _ _ Hi) as Hilt.
    pose proof (lookup_lt_Some _ _ _ Hj) as Hjlt.
    destruct Ha as [Hlen Hrows].
    pose proof (Forall_lookup_1 _ _ _ _ Hrows Hi) as Hrowlen. simpl in Hrowlen.
    exists (Z.of_nat i, Z.of_nat j). split.
    + unfold in_grid. simpl. lia.
    + unfold cell. simpl. rewrite !Nat2Z.id, Hi, Hj. reflexivity.
  - intros (p & Hp & <-). by apply cell_in_image.
Qed.

End WellShaped.

#[local] Hint Resolve shape_put : shape.

(** Exchanging two distinct cells keeps the multiset. *)
Lemma swap_perm (R : Z) (a : ndarray) (p q : Z * Z) :
  shape_ok R a -> in_grid R p -> in_grid R q -> p <> q ->
  concat (put (put a p (cell a q)) q (cell a p)) ≡ₚ concat a.
Proof.
  intros Ha Hp Hq Hne.
  destruct (put_perm R a Ha p Hp) as (r1 & Ha1 & Hp1).
  destruct (put_perm R (put a p (cell a q)) (shape_put R a Ha p _) q Hq)
    as (r2 & Ha2 & Hp2).
  rewrite (cell_put R) in Ha2 by assumption.
  rewrite bool_decide_eq_false_2 in Ha2 by congruence.
  rewrite Hp1 in Ha2. apply Permutation_cons_inv in Ha2.
  by rewrite Hp2, Ha1, Ha2.
Qed.

Lemma check_position_in_grid (R : Z) (p : Z * Z) (d : string) :
  in_grid R p -> in_grid R (check_position R p d).
Proof.
  intros [Hx Hy]. unfold check_position, in_grid.
  repeat case_match; simpl; split; try lia; apply Z.mod_pos_bound; lia.
Qed.

Lemma get_check_position_ok (self : ADISFile) (x y : Z) (d : string) :
  resolution self <> 0 ->
  get_check_position self x y d = Ok (check_position (resolution self) (x, y) d).
Proof.
  intros HR. unfold get_check_position, check_position, pymod.
  destruct (Z.eqb_spec (resolution self) 0); [contradiction|].
  repeat case_match; reflexivity.
Qed.

Lemma swap_target_in_grid (self : ADISFile) (p q : Z * Z) :
  in_grid (resolution self) p -> swap_target self p = Some q ->
  in_grid (resolution self) q.
Proof.
  intros Hp. unfold swap_target. repeat case_match; intros [= <-]; try discriminate.
  by apply check_position_in_grid.
Qed.

#[local] Hint Resolve check_position_in_grid swap_target_in_grid : shape.

(** ** [iterate_once] on a well-shaped image *)

Lemma iterate_cell_ok (self : ADISFile) (x y : Z) (new_array : ndarray) :
  shape_ok (resolution self) (image_array self) ->
  shape_ok (resolution self) new_array ->
  in_grid (resolution self) (x, y) ->
  iterate_cell self x y new_array = Ok (apply_cell self new_array (x, y))
  /\ shape_ok (resolution self) (apply_cell self new_array (x, y)).
Proof.
  intros Himg Hnew Hp.
  assert (HR : resolution self <> 0) by (destruct Hp; simpl in *; lia).
  unfold iterate_cell, apply_cell.
  unfold swap_target.
  rewrite (getitem_ok _ _ Himg _ _ Hp). simpl.
  destruct (find _ (color_set self)) as [color_obj|]; [|by split].
  rewrite get_check_position_ok by assumption. simpl.
  set (q := check_position (resolution self) (x, y) (check_direction color_obj)) in *.
  assert (Hq' : in_grid (resolution self) q) by by apply check_position_in_grid.
  destruct q as [cx cy] eqn:Eq.
  rewrite (getitem_ok _ _ Himg _ _ Hq'). simpl.
  case_bool_decide; [|by split].
  rewrite (setitem_ok _ _ Hnew _ _ _ Hp). simpl.
  rewrite (setitem_ok (resolution self)); [|by apply shape_put|assumption].
  split; [reflexivity | auto with shape].
Qed.

Lemma iterate_once_ok (self : ADISFile) :
  shape_ok (resolution self) (image_array self) ->
  iterate_once self = Ok (set_image_array self (step_image self))
  /\ shape_ok (resolution self) (step_image self).
Proof.
  intros Himg. unfold iterate_once, step_image, scan_order.
  rewrite fold_left_flat_map.
  destruct (for_each_fold (shape_ok (resolution self))
              (fun s x => fold_left (apply_cell self)
                            (map (fun y => (x, y)) (range (resolution self))) s)
              (fun x new_array =>
                 for_each (range (resolution self))
                   (fun y new_array => iterate_cell self x y new_array) new_array)
              (range (resolution self)) (image_array self)) as [-> Hshape];
    [|assumption|by split].
  intros x s Hx Hs. apply elem_of_range in Hx.
  rewrite fold_left_over_map.
  apply (for_each_fold (shape_ok (resolution self))
           (fun s y => apply_cell self s (x, y))); [|assumption].
  intros y s' Hy Hs'. apply elem_of_range in Hy.
  apply iterate_cell_ok; try assumption. by split.
Qed.

Lemma fold_left_invariant {A S : Type} (I : S -> Prop) (f : S -> A -> S)
    (l : list A) (s : S) :
  (forall s x, x ∈ l -> I s -> I (f s x)) -> I s -> I (fold_left f l s).
Proof.
  revert s. induction l as [|x l IH]; intros s Hf Hs; simpl; [assumption|].
  apply IH.
  - intros s0 y Hy. apply Hf. by right.
  - apply Hf; [left | assumption].
Qed.

(** ** Properties of one pass *)

(** A pass only copies colours of the image it started from. *)
Lemma step_image_colors (self : ADISFile) (v : RGB) :
  shape_ok (resolution self) (image_array self) ->
  v ∈ concat (step_image self) -> v ∈ concat (image_array self).
Proof.
  intros Himg. unfold step_image.
  set (R := resolution self). set (old := image_array self).
  cut (shape_ok R (fold_left (apply_cell self) (scan_order R) old)
       /\ forall w, w ∈ concat (fold_left (apply_cell self) (scan_order R) old)
                    -> w ∈ concat old).
  { intros [_ H]. apply H. }
  apply (fold_left_invariant
           (fun new => shape_ok R new /\ forall w, w ∈ concat new -> w ∈ concat old));
    [|by split].
  intros new p Hp [Hnew Hsub]. apply elem_of_scan_order in Hp.
  unfold apply_cell.
  destruct (swap_target self p) as [q|] eqn:Hq; [|by split].
  pose proof (swap_target_in_grid self p q Hp Hq) as Hqin.
  split; [auto with shape|].
  intros w Hw.
  apply (elem_of_put R) in Hw as [->|Hw]; [| |by apply shape_put|assumption].
  { by apply (cell_in_image R). }
  apply (elem_of_put R) in Hw as [->|Hw]; [| |assumption|assumption].
  { by apply (cell_in_image R). }
  by apply Hsub.
Qed.

Lemma iterate_times_ok (n : nat) (self : ADISFile) :
  shape_ok (resolution self) (image_array self) ->
  exists self', iterate_times n self = Ok self'
    /\ shape_ok (resolution self') (image_array self')
    /\ resolution self' = resolution self
    /\ color_set self' = color_set self
    /\ iteration_count self' = iteration_count self
    /\ last_time self' = last_time self /\ now_time self' = now_time self
    /\ iteration_speed self' = iteration_speed self
    /\ (palette_ok self -> palette_ok self').
Proof.
  revert self. induction n as [|n IH]; intros self Himg; simpl.
  - exists self. tauto.
  - destruct (iterate_once_ok self Himg) as [-> Hshape]. simpl.
    destruct (IH (set_image_array self (step_image self)) Hshape)
      as (self' & -> & H1 & H2 & H3 & H4 & H5 & H6 & H7 & H8).
    exists self'. simpl in *.
    split; [reflexivity|]. do 7 (split; [assumption|]).
    intros Hpal. apply H8. intros v Hv. simpl in *.
    apply Hpal. by apply step_image_colors.
Qed.

Lemma touched_in_grid (self : ADISFile) (ps : list (Z * Z)) (c : Z * Z) :
  (forall p, p ∈ ps -> in_grid (resolution self) p) ->
  c ∈ flat_map (fun p => match swap_target self p with
                         | Some q => [p; q]
                         | None => []
                         end) ps ->
  in_grid (resolution self) c.
Proof.
  intros Hps. rewrite list_elem_of_In, in_flat_map. intros (p & Hp & Hc).
  apply list_elem_of_In in Hp. specialize (Hps p Hp).
  destruct (swap_target self p) as [q|] eqn:Hq; [|destruct Hc].
  destruct Hc as [<-|[<-|[]]]; [assumption|].
  by apply (swap_target_in_grid self p).
Qed.

Lemma fold_swaps_perm (self : ADISFile) (ps : list (Z * Z)) (new : ndarray) :
  (forall p, p ∈ ps -> in_grid (resolution self) p) ->
  NoDup (flat_map (fun p => match swap_target self p with
                            | Some q => [p; q]
                            | None => []
                            end) ps) ->
  shape_ok (resolution self) new ->
  (forall c, c ∈ flat_map (fun p => match swap_target self p with
                                    | Some q => [p; q]
                                    | None => []
                                    end) ps ->
             cell new c = cell (image_array self) c) ->
  concat (fold_left (apply_cell self) ps new) ≡ₚ concat new.
Proof.
  revert new. induction ps as [|p ps IH]; intros new Hps Hnd Hnew Hsame; simpl.
  - reflexivity.
  - assert (Hp : in_grid (resolution self) p) by (apply Hps; left).
    assert (Hps' : forall p0, p0 ∈ ps -> in_grid (resolution self) p0)
      by (intros p0 H0; apply Hps; by right).
    simpl in Hnd, Hsame. unfold apply_cell at 2.
    destruct (swap_target self p) as [q|] eqn:Hq.
    + pose proof (swap_target_in_grid self p q Hp Hq) as Hqin.
      simpl in Hnd, Hsame.
      apply NoDup_cons in Hnd as [Hp_notin Hnd].
      apply NoDup_cons in Hnd as [Hq_notin Hnd].
      assert (Hpq : p <> q) by (intros ->; apply Hp_notin; left).
      rewrite <- (Hsame p) by left.
      rewrite <- (Hsame q) by (right; left).
      rewrite IH; [by apply (swap_perm (resolution self))|assumption|assumption| |].
      * by do 2 apply shape_put.
      * intros c Hc.
        pose proof (touched_in_grid self ps c Hps' Hc) as Hcin.
        rewrite (cell_put (resolution self)); [|by apply shape_put|assumption..].
        rewrite bool_decide_eq_false_2 by (intros ->; contradiction).
        rewrite (cell_put (resolution self)) by assumption.
        rewrite bool_decide_eq_false_2
          by (intros ->; apply Hp_notin; by right).
        apply Hsame. by do 2 right.
    + by apply IH.
Qed.

(** ** The pass against the reference step *)

Lemma list_bind_flat_map {A B : Type} (f : A -> list B) (l : list A) :
  l ≫= f = flat_map f l.
Proof.
  induction l as [|x l IH]; [reflexivity|].
  change ((x :: l) ≫= f) with (f x ++ (l ≫= f)). simpl. by rewrite IH.
Qed.

Lemma row_major_scan_order (R : Z) : Ref.row_major R = scan_order R.
Proof.
  unfold Ref.row_major, scan_order, range.
  rewrite list_bind_flat_map. apply flat_map_ext. intros x.
  rewrite list_bind_flat_map.
  induction (seqZ 0 R) as [|y ys IH]; simpl; [reflexivity|by rewrite IH].
Qed.

Lemma filter_rule_absent (cs : list Color) (c : RGB) :
  c ∉ map rgb cs -> filter (fun r => Ref.rule_rgb r = c) (map rule_of cs) = [].
Proof.
  induction cs as [|col cs IH]; intros Hc; simpl; [reflexivity|].
  simpl in Hc. apply not_elem_of_cons in Hc as [Hne Hc].
  rewrite filter_cons_False by (simpl; congruence). by apply IH.
Qed.

Lemma lookup_rule_find (cs : list Color) (c : RGB) :
  NoDup (map rgb cs) ->
  Ref.lookup_rule (map rule_of cs) c
  = rule_of <$> find (fun col => bool_decide (rgb col = c)) cs.
Proof.
  unfold Ref.lookup_rule.
  induction cs as [|col cs IH]; intros Hnd; simpl; [reflexivity|].
  simpl in Hnd. apply NoDup_cons in Hnd as [Hnotin Hnd].
  case_bool_decide as Hc.
  - rewrite filter_cons_True by (simpl; assumption).
    rewrite filter_rule_absent by congruence. reflexivity.
  - rewrite filter_cons_False by (simpl; assumption). by apply IH.
Qed.

Lemma neighbor_check_position (R : Z) (p : Z * Z) (d : string) :
  Ref.neighbor R p (direction_of d) = check_position R p d.
Proof.
  unfold direction_of, check_position. by repeat case_match.
Qed.

Lemma visit_apply_cell (self : ADISFile) (new : ndarray) (grid' : Ref.Grid)
    (p : Z * Z) :
  let R := resolution self in
  distinct_colors self ->
  shape_ok R new -> in_grid R p ->
  (forall c, in_grid R c -> cell new c = grid' c) ->
  forall c, in_grid R c ->
    cell (apply_cell self new p) c
    = Ref.visit R (palette_of self) (cell (image_array self)) grid' p c.
Proof.
  intros R Hdist Hnew Hp Hagree c Hc.
  unfold Ref.visit, apply_cell, swap_target, palette_of.
  rewrite lookup_rule_find by assumption.
  destruct (find _ (color_set self)) as [col|]; simpl; [|by apply Hagree].
  rewrite neighbor_check_position. fold R.
  set (q := check_position R p (check_direction col)).
  assert (Hq : in_grid R q) by by apply check_position_in_grid.
  rewrite (bool_decide_ext (cell (image_array self) q ∈ activation_colors col)
             (cell (image_array self) q
                ∈ (list_to_set (activation_colors col) : gset RGB)))
    by (by rewrite elem_of_list_to_set).
  case_bool_decide; [|by apply Hagree].
  rewrite (cell_put R); [|by apply shape_put|assumption..].
  rewrite (cell_put R) by assumption.
  unfold Ref.write. rewrite Hagree by assumption. reflexivity.
Qed.

Lemma fold_visit_apply_cell (self : ADISFile) (ps : list (Z * Z))
    (new : ndarray) (grid' : Ref.Grid) :
  distinct_colors self ->
  (forall p, p ∈ ps -> in_grid (resolution self) p) ->
  shape_ok (resolution self) new ->
  (forall c, in_grid (resolution self) c -> cell new c = grid' c) ->
  forall c, in_grid (resolution self) c ->
    cell (fold_left (apply_cell self) ps new) c
    = fold_left (Ref.visit (resolution self) (palette_of self)
                   (cell (image_array self))) ps grid' c.
Proof.
  intros Hdist. revert new grid'.
  induction ps as [|p ps IH]; intros new grid' Hin Hnew Hagree;
    simpl; [assumption|].
  apply IH.
  - intros p0 H0. apply Hin. by right.
  - unfold apply_cell. destruct (swap_target self p); [|assumption].
    by do 2 apply shape_put.
  - apply visit_apply_cell; try assumption. apply Hin. left.
Qed.

Lemma step_image_ref (self : ADISFile) (c : Z * Z) :
  distinct_colors self ->
  shape_ok (resolution self) (image_array self) ->
  in_grid (resolution self) c ->
  cell (step_image self) c
  = Ref.step (resolution self) (palette_of self) (cell (image_array self)) c.
Proof.
  intros Hdist Himg Hc. unfold step_image, Ref.step.
  rewrite (row_major_scan_order (resolution self)).
  apply fold_visit_apply_cell; try assumption; [|reflexivity].
  intros p. apply elem_of_scan_order.
Qed.

(** ** Claims on the automaton *)

(** On [chain_adis] the second swap overwrites cell (0,1) of the first. *)
Example iterate_once_chain :
  image_array <$> (match iterate_once chain_adis with
                   | Ok self' => Some self'
                   | Raise _ => None
                   end)
  = Some [[(2, 2, 2); (3, 3, 3); (2, 2, 2)];
          [(3, 3, 3); (3, 3, 3); (3, 3, 3)];
          [(3, 3, 3); (3, 3, 3); (3, 3, 3)]].
Proof. vm_compute. reflexivity. Qed.

(** C2, as stated, fails: on [chain_adis] two swaps of one pass share cell
    (0,1); the colour (1,1,1) disappears and (2,2,2) is held twice. *)
Lemma step_conservation_counterexample :
  exists self', iterate_once chain_adis = Ok self'
    /\ ~ concat (image_array self') ≡ₚ concat (image_array chain_adis).
Proof.
  eexists. split; [vm_compute; reflexivity|].
  intros Hperm.
  assert (Hin : (1, 1, 1) ∈ concat (image_array chain_adis)) by decide_closed.
  rewrite <- Hperm in Hin. revert Hin.
  apply (proj1 (bool_decide_eq_false _)). vm_compute. reflexivity.
Qed.

(** C2, amended: when no cell is written by more than one swap of the pass
    (the cells of the firing pairs are pairwise distinct), the multiset of
    cell colours after [iterate_once] equals the multiset before it. *)
Theorem step_conserves_colors_when_swaps_disjoint (self : ADISFile) :
  shape_ok (resolution self) (image_array self) ->
  NoDup (touched self) ->
  exists self', iterate_once self = Ok self'
    /\ concat (image_array self') ≡ₚ concat (image_array self).
Proof.
  intros Himg Hnd. destruct (iterate_once_ok self Himg) as [-> _].
  eexists. split; [reflexivity|]. simpl. unfold step_image.
  apply fold_swaps_perm; try assumption; [|reflexivity].
  intros p. apply elem_of_scan_order.
Qed.

Lemma step_conserves_colors_witness :
  exists self', iterate_once small_adis = Ok self'
    /\ concat (image_array self') ≡ₚ concat (image_array small_adis).
Proof.
  apply (step_conserves_colors_when_swaps_disjoint small_adis).
  - unfold shape_ok. decide_closed.
  - decide_closed.
Defined.

(** C4: on an image of shape (resolution, resolution) and a palette of
    pairwise distinct colours with the four direction names, [iterate_once]
    returns the object whose image holds, at every cell, what the step of
    section 4.2 computes from the old image; nothing else changes. *)
Theorem iterate_once_refines_reference_step (self : ADISFile) :
  shape_ok (resolution self) (image_array self) ->
  distinct_colors self ->
  known_directions self ->
  exists new_array,
    iterate_once self = Ok (set_image_array self new_array)
    /\ shape_ok (resolution self) new_array
    /\ forall x y, in_grid (resolution self) (x, y) ->
         getitem new_array x y
         = Ok (Ref.step (resolution self) (palette_of self)
                 (cell (image_array self)) (x, y)).
Proof.
  intros Himg Hdist _. destruct (iterate_once_ok self Himg) as [-> Hshape].
  exists (step_image self). split; [reflexivity|]. split; [assumption|].
  intros x y Hxy. rewrite (getitem_ok _ _ Hshape _ _ Hxy).
  f_equal. by apply step_image_ref.
Qed.

Lemma iterate_once_refines_witness :
  exists new_array,
    iterate_once chain_adis = Ok (set_image_array chain_adis new_array)
    /\ shape_ok 3 new_array
    /\ forall x y, in_grid 3 (x, y) ->
         getitem new_array x y
         = Ok (Ref.step 3 (palette_of chain_adis)
                 (cell (image_array chain_adis)) (x, y)).
Proof.
  apply (iterate_once_refines_reference_step chain_adis).
  - unfold shape_ok. decide_closed.
  - unfold distinct_colors. decide_closed.
  - unfold known_directions. decide_closed.
Defined.

(** C9: after [iterate_once] every cell holds the colour some cell held
    before it; hence an image made of palette colours stays so under any
    number of steps. *)
Theorem step_only_copies_colors (self : ADISFile) :
  shape_ok (resolution self) (image_array self) ->
  (exists self', iterate_once self = Ok self'
     /\ forall x y, in_grid (resolution self) (x, y) ->
          exists x' y' v, in_grid (resolution self) (x', y')
            /\ getitem (image_array self') x y = Ok v
            /\ getitem (image_array self) x' y' = Ok v)
  /\ (palette_ok self ->
      forall n, exists self', iterate_times n self = Ok self' /\ palette_ok self').
Proof.
  intros Himg. split.
  - destruct (iterate_once_ok self Himg) as [-> Hshape].
    eexists. split; [reflexivity|]. simpl. intros x y Hp.
    set (p := (x, y)) in *.
    assert (Hin : cell (step_image self) p ∈ concat (image_array self)).
    { apply step_image_colors; [assumption|].
      by apply (cell_in_image (resolution self)). }
    apply (elem_of_image _ _ Himg) in Hin as ([x' y'] & Hq & Heq).
    exists x', y', (cell (step_image self) p). split; [assumption|].
    rewrite (getitem_ok _ _ Hshape _ _ Hp), (getitem_ok _ _ Himg _ _ Hq).
    split; [reflexivity | by rewrite Heq].
  - intros Hpal n.
    destruct (iterate_times_ok n self Himg) as (self' & Hrun & H).
    exists self'. split; [assumption|]. by apply H.
Qed.

Lemma step_only_copies_colors_witness :
  (exists self', iterate_once chain_adis = Ok self'
     /\ forall x y, in_grid 3 (x, y) ->
          exists x' y' v, in_grid 3 (x', y')
            /\ getitem (image_array self') x y = Ok v
            /\ getitem (image_array chain_adis) x' y' = Ok v)
  /\ (palette_ok chain_adis ->
      forall n, exists self', iterate_times n chain_adis = Ok self' /\ palette_ok self').
Proof.
  apply (step_only_copies_colors chain_adis).
  unfold shape_ok. decide_closed.
Defined.

(** ** The time scheduler *)

Lemma iterate_once_set_iteration_count (self : ADISFile) (c : Z) :
  iterate_once (set_iteration_count self c)
  = s ← iterate_once self; Ok (set_iteration_count s c).
Proof.
  unfold iterate_once. simpl.
  change (fun x new_array =>
            for_each (range (resolution self))
              (fun y new_array0 => iterate_cell (set_iteration_count self c) x y new_array0)
              new_array)
    with (fun x new_array =>
            for_each (range (resolution self))
              (fun y new_array0 => iterate_cell self x y new_array0) new_array).
  by destruct (for_each _ _ _).
Qed.

Lemma iterate_times_set_iteration_count (n : nat) (self : ADISFile) (c : Z) :
  iterate_times n (set_iteration_count self c)
  = s ← iterate_times n self; Ok (set_iteration_count s c).
Proof.
  revert self. induction n as [|n IH]; intros self; simpl; [reflexivity|].
  rewrite iterate_once_set_iteration_count.
  destruct (iterate_once self) as [s|e]; simpl; [apply IH | reflexivity].
Qed.

Lemma counted_loop_ok (l : list Z) (self : ADISFile) :
  shape_ok (resolution self) (image_array self) ->
  exists s, iterate_times (length l) self = Ok s
    /\ for_each l (fun _ self => iterate_and_count self) self
       = Ok (set_iteration_count s (iteration_count self + len l)).
Proof.
  revert self. induction l as [|v l IH]; intros self Himg.
  - exists self. split; [reflexivity|]. simpl. unfold len. simpl.
    rewrite Z.add_0_r. by destruct self.
  - destruct (iterate_once_ok self Himg) as [Hstep Hshape].
    set (s0 := set_image_array self (step_image self)) in *.
    assert (Hone : iterate_and_count self
                   = Ok (set_iteration_count s0 (iteration_count self + 1)))
      by (unfold iterate_and_count; by rewrite Hstep).
    simpl. rewrite Hstep, Hone. simpl.
    destruct (IH (set_iteration_count s0 (iteration_count self + 1)))
      as (s & Hs & ->); [assumption|].
    rewrite iterate_times_set_iteration_count in Hs.
    destruct (iterate_times (length l) s0) as [s2|e]; [|discriminate].
    simpl in Hs. injection Hs as <-.
    exists s2. split; [reflexivity|]. simpl. unfold set_iteration_count. simpl.
    do 2 f_equal. unfold len. simpl length. lia.
Qed.

Lemma iterate_required_ok (self : ADISFile) :
  iteration_speed self <> 0 ->
  shape_ok (resolution self) (image_array self) ->
  let pending := (now_time self - last_time self) / iteration_speed self in
  exists s, iterate_times (Z.to_nat pending) self = Ok s
    /\ iterate_required self
       = Ok (set_iteration_count s (iteration_count self + Z.max 0 pending)).
Proof.
  intros Hspeed Himg pending. unfold iterate_required, floordiv.
  destruct (Z.eqb_spec (iteration_speed self) 0); [contradiction|]. simpl.
  fold pending.
  destruct (counted_loop_ok (range pending) self Himg) as (s & Hs & ->).
  unfold range, len in *. rewrite length_seqZ in *.
  exists s. split; [assumption|]. do 2 f_equal. lia.
Qed.

Lemma iterate_once_iteration_count (self s : ADISFile) :
  iterate_once self = Ok s -> iteration_count s = iteration_count self.
Proof.
  unfold iterate_once.
  destruct (for_each _ _ _) as [new_array|e]; [|discriminate].
  simpl. by intros [= <-].
Qed.

(** ** Claims on the time scheduler *)

(** Three ticks at speed 1: three steps, and three more on a second call. *)
Example iterate_required_three_ticks :
  exists self1 self2,
    iterate_required three_ticks_adis = Ok self1
    /\ iteration_count self1 = 3
    /\ iterate_times 3 three_ticks_adis = Ok (set_iteration_count self1 0)
    /\ iterate_required self1 = Ok self2
    /\ iteration_count self2 = 6.
Proof.
  let v := eval vm_compute in (iterate_required three_ticks_adis) in
  match v with
  | Ok ?s1 =>
      exists s1;
      let w := eval vm_compute in (iterate_required s1) in
      match w with Ok ?s2 => exists s2 end
  end.
  repeat split; vm_compute; reflexivity.
Qed.

(** C7: with [iteration_speed >= 1], [update_times] on an object whose
    [last_time] is 0 sets [last_time] to the tick and [now_time] to the tick
    plus [iteration_speed], so that one iteration is pending, and the
    [iterate_required] that follows is exactly one call of [iterate_once]
    followed by [iteration_count + 1]: it fails as that call fails, and on a
    well-shaped image it returns the object that call returns, with the
    count one higher; on an object whose [last_time] is not 0 [update_times]
    moves [now_time] into [last_time] and the tick into [now_time]. *)
Theorem update_times_schedule (self : ADISFile) (current_time : Z) :
  1 <= iteration_speed self ->
  let self' := update_times self current_time in
  (last_time self = 0 ->
     last_time self' = current_time
     /\ now_time self' = current_time + iteration_speed self
     /\ (now_time self' - last_time self') / iteration_speed self' = 1
     /\ iterate_required self'
        = (s ← iterate_once self';
           Ok (set_iteration_count s (iteration_count self + 1)))
     /\ (shape_ok (resolution self) (image_array self) ->
         exists s,
           iterate_once self' = Ok s
           /\ image_array s = step_image self
           /\ iterate_required self'
              = Ok (set_iteration_count s (iteration_count self + 1))))
  /\ (last_time self <> 0 ->
     last_time self' = now_time self /\ now_time self' = current_time).
Proof.
  intros Hspeed self'. subst self'. unfold update_times. split.
  - intros ->. simpl.
    set (self' := set_times self current_time
                    (current_time + iteration_speed self)).
    assert (Hone : (current_time + iteration_speed self - current_time)
                   / iteration_speed self = 1).
    { replace (current_time + iteration_speed self - current_time)
        with (iteration_speed self) by lia.
      apply Z.div_same. lia. }
    assert (Hrun : iterate_required self'
                   = (s ← iterate_once self';
                      Ok (set_iteration_count s (iteration_count self + 1)))).
    { unfold iterate_required, floordiv. simpl.
      destruct (Z.eqb_spec (iteration_speed self) 0); [lia|].
      simpl. rewrite Hone. simpl. unfold iterate_and_count.
      destruct (iterate_once self') as [s|e] eqn:Hstep; [|reflexivity].
      simpl. by rewrite (iterate_once_iteration_count _ _ Hstep). }
    split; [reflexivity|]. split; [reflexivity|]. split; [assumption|].
    split; [exact Hrun|].
    intros Himg. destruct (iterate_once_ok self' Himg) as [Hstep _].
    exists (set_image_array self' (step_image self')).
    split; [exact Hstep|]. split; [reflexivity|].
    rewrite Hrun, Hstep. reflexivity.
  - intros Hlast. destruct (Z.eqb_spec (last_time self) 0); [contradiction|].
    split; reflexivity.
Qed.

Lemma update_times_schedule_witness :
  let self' := update_times small_adis 29000000 in
  (last_time small_adis = 0 ->
     last_time self' = 29000000
     /\ now_time self' = 29000000 + iteration_speed small_adis
     /\ (now_time self' - last_time self') / iteration_speed self' = 1
     /\ iterate_required self'
        = (s ← iterate_once self';
           Ok (set_iteration_count s (iteration_count small_adis + 1)))
     /\ (shape_ok (resolution small_adis) (image_array small_adis) ->
         exists s,
           iterate_once self' = Ok s
           /\ image_array s = step_image small_adis
           /\ iterate_required self'
              = Ok (set_iteration_count s (iteration_count small_adis + 1))))
  /\ (last_time small_adis <> 0 ->
     last_time self' = now_time small_adis /\ now_time self' = 29000000).
Proof.
  apply (update_times_schedule small_adis 29000000). simpl. lia.
Defined.

(** C8: with a non-zero [iteration_speed] and a well-shaped image,
    [iterate_required] returns an object with the same [last_time] and
    [now_time]; if [pending = (now_time - last_time) // iteration_speed] is
    not positive the object is unchanged, otherwise its image is the one
    [pending] calls of [iterate_once] produce and [iteration_count] has grown
    by [pending]; a second call does the same [pending] steps again. *)
Theorem iterate_required_frame (self : ADISFile) :
  iteration_speed self <> 0 ->
  shape_ok (resolution self) (image_array self) ->
  let pending := (now_time self - last_time self) / iteration_speed self in
  exists s1 s2,
    iterate_times (Z.to_nat pending) self = Ok s1
    /\ iterate_times (Z.to_nat pending) s1 = Ok s2
    /\ let self1 := set_iteration_count s1 (iteration_count self + Z.max 0 pending) in
       let self2 := set_iteration_count s2 (iteration_count self + 2 * Z.max 0 pending) in
       iterate_required self = Ok self1
       /\ iterate_required self1 = Ok self2
       /\ last_time self1 = last_time self /\ now_time self1 = now_time self
       /\ last_time self2 = last_time self /\ now_time self2 = now_time self
       /\ (pending <= 0 -> self1 = self /\ self2 = self).
Proof.
  intros Hspeed Himg pending.
  destruct (iterate_required_ok self Hspeed Himg) as (s1 & Hs1 & Hrun1).
  fold pending in Hs1, Hrun1.
  destruct (iterate_times_ok (Z.to_nat pending) self Himg)
    as (s1' & Hs1' & Hshape1 & HR1 & Hcs1 & Hcount1 & Hlast1 & Hnow1 & Hsp1 & _).
  rewrite Hs1 in Hs1'. injection Hs1' as <-.
  set (self1 := set_iteration_count s1 (iteration_count self + Z.max 0 pending)).
  assert (Hpending1 : (now_time self1 - last_time self1) / iteration_speed self1
                      = pending).
  { subst self1. simpl. by rewrite Hlast1, Hnow1, Hsp1. }
  destruct (iterate_required_ok self1) as (s2' & Hs2' & Hrun2).
  { subst self1. simpl. by rewrite Hsp1. }
  { assumption. }
  rewrite Hpending1 in Hs2', Hrun2.
  subst self1. rewrite iterate_times_set_iteration_count in Hs2'.
  destruct (iterate_times (Z.to_nat pending) s1) as [s2|e] eqn:Hs2; [|discriminate].
  simpl in Hs2'. injection Hs2' as <-.
  destruct (iterate_times_ok (Z.to_nat pending) s1 Hshape1)
    as (s2' & Hs2' & _ & _ & _ & _ & Hlast2 & Hnow2 & _).
  rewrite Hs2 in Hs2'. injection Hs2' as <-.
  exists s1, s2. split; [assumption|]. split; [assumption|]. simpl.
  split; [assumption|]. split.
  { rewrite Hrun2. unfold set_iteration_count. simpl. do 2 f_equal. lia. }
  split; [assumption|]. split; [assumption|].
  split; [congruence|]. split; [congruence|].
  intros Hle.
  assert (Hzero : Z.to_nat pending = 0%nat) by lia.
  rewrite Hzero in Hs1, Hs2. simpl in Hs1, Hs2.
  injection Hs1 as <-. injection Hs2 as <-.
  replace (Z.max 0 pending) with 0 by lia.
  rewrite Z.mul_0_r, Z.add_0_r. by destruct self.
Qed.

Lemma iterate_required_frame_witness :
  let self := update_times small_adis 29000000 in
  let pending := (now_time self - last_time self) / iteration_speed self in
  exists s1 s2,
    iterate_times (Z.to_nat pending) self = Ok s1
    /\ iterate_times (Z.to_nat pending) s1 = Ok s2
    /\ let self1 := set_iteration_count s1 (iteration_count self + Z.max 0 pending) in
       let self2 := set_iteration_count s2 (iteration_count self + 2 * Z.max 0 pending) in
       iterate_required self = Ok self1
       /\ iterate_required self1 = Ok self2
       /\ last_time self1 = last_time self /\ now_time self1 = now_time self
       /\ last_time self2 = last_time self /\ now_time self2 = now_time self
       /\ (pending <= 0 -> self1 = self /\ self2 = self).
Proof.
  apply (iterate_required_frame (update_times small_adis 29000000)).
  - vm_compute. discriminate.
  - unfold shape_ok. decide_closed.
Defined.


(** ** Decimal digits *)


Lemma is_bit_digit (c : ascii) : is_bit c -> is_digit c.
Proof. intros [->| ->]; digit_char. Qed.

Lemma is_digit_val (c : ascii) :
  is_digit c -> exists d, digit_val c = Some d /\ 0 <= d <= 9.
Proof.
  unfold is_digit. simpl. intros H.
  repeat (apply elem_of_cons in H as [->|H];
          [eexists; (split; [vm_compute; reflexivity | lia])|]).
  by apply elem_of_nil in H.
Qed.

Lemma uint_digits (d : Decimal.uint) :
  Forall is_digit (list_ascii_of_string (NilEmpty.string_of_uint d)).
Proof.
  induction d; simpl; constructor; try assumption; digit_char.
Qed.

Lemma str_int_digits (count : Z) :
  0 <= count -> Forall is_digit (str_int count) /\ str_int count <> [].
Proof.
  intros Hc. unfold str_int.
  destruct count as [|p|p]; [| |lia].
  - split; [|discriminate]. simpl.
    constructor; [digit_char|constructor].
  - simpl. unfold NilZero.string_of_uint.
    pose proof (uint_digits (Pos.to_uint p)) as Hd.
    destruct (Pos.to_uint p) eqn:E;
      [split; [|discriminate]; simpl; constructor; [digit_char|constructor]
      | split; [assumption | discriminate] ..].
Qed.

(** ** The bit string of the image *)

Lemma format_08b_bits (v : Z) :
  length (format_08b v) = 8%nat /\ Forall is_bit (format_08b v).
Proof.
  split; [reflexivity|]. unfold format_08b. simpl.
  repeat (constructor; [unfold bit_char, is_bit; case_match; tauto|]).
  constructor.
Qed.


Lemma pixel_bits_bits (px : RGB) :
  length (pixel_bits px) = 24%nat /\ Forall is_bit (pixel_bits px).
Proof.
  unfold pixel_bits. split.
  - rewrite !length_app. by rewrite !(proj1 (format_08b_bits _)).
  - rewrite !Forall_app. repeat split; apply format_08b_bits.
Qed.

Lemma fold_append {A B : Type} (g : A -> list B) (l : list A) (acc : list B) :
  fold_left (fun b p => b ++ g p) l acc = acc ++ flat_map g l.
Proof.
  revert acc. induction l as [|p l IH]; intros acc; simpl.
  - by rewrite app_nil_r.
  - by rewrite IH, <- app_assoc.
Qed.

Lemma image_bits_ok (self : ADISFile) :
  shape_ok (resolution self) (image_array self) ->
  image_bits self
  = Ok (flat_map (fun p => pixel_bits (cell (image_array self) p))
          (scan_order (resolution self))).
Proof.
  intros Himg. unfold image_bits, scan_order.
  rewrite <- (app_nil_l (flat_map _ _)), <- fold_append, fold_left_flat_map.
  apply (for_each_fold (fun _ => True)); [|exact I].
  intros x b Hx _. split; [|exact I]. apply elem_of_range in Hx.
  rewrite fold_left_over_map.
  apply (for_each_fold (fun _ => True)); [|exact I].
  intros y b' Hy _. split; [|exact I]. apply elem_of_range in Hy.
  rewrite (getitem_ok (resolution self)); [|assumption|by split]. simpl.
  destruct (cell (image_array self) (x, y)) as [[r g] bl]. simpl.
  unfold pixel_bits. simpl. by rewrite <- !app_assoc.
Qed.

Lemma length_scan_order (R : Z) :
  length (scan_order R) = (Z.to_nat R * Z.to_nat R)%nat.
Proof.
  unfold scan_order, range.
  assert (H : forall l : list Z,
             length (flat_map (fun x => map (fun y => (x, y)) (seqZ 0 R)) l)
             = (length l * Z.to_nat R)%nat).
  { induction l as [|x l IH]; simpl; [reflexivity|].
    by rewrite length_app, length_map, length_seqZ, IH. }
  by rewrite H, length_seqZ.
Qed.

Lemma flat_map_bits {A : Type} (g : A -> list ascii) (l : list A) :
  (forall p, length (g p) = 24%nat /\ Forall is_bit (g p)) ->
  length (flat_map g l) = (24 * length l)%nat /\ Forall is_bit (flat_map g l).
Proof.
  intros Hg. induction l as [|p l [IHlen IHbits]]; simpl.
  - split; [reflexivity | constructor].
  - destruct (Hg p) as [Hlen Hbits]. split.
    + rewrite length_app, Hlen, IHlen. lia.
    + by apply Forall_app.
Qed.

(** ** Run-length compression *)

Lemma compress_loop_digits (rest compressed : list ascii) (current_bit : ascii)
    (count : Z) :
  Forall is_digit rest -> Forall is_digit compressed ->
  is_digit current_bit -> 0 <= count ->
  Forall is_digit (compress_loop rest compressed current_bit count)
  /\ (2 <= length (compress_loop rest compressed current_bit count))%nat.
Proof.
  revert compressed current_bit count.
  induction rest as [|bit rest IH]; intros compressed current_bit count
    Hrest Hcomp Hbit Hcount; simpl.
  - destruct (str_int_digits count Hcount) as [Hd Hne]. split.
    + apply Forall_app. split; [assumption|]. by constructor.
    + rewrite length_app. simpl. destruct (str_int count); [done|simpl; lia].
  - apply Forall_cons in Hrest as [Hb Hrest].
    destruct (Ascii.eqb bit current_bit).
    + apply IH; try assumption. lia.
    + apply IH; try assumption; [|lia].
      destruct (str_int_digits count Hcount) as [Hd _].
      apply Forall_app. split; [assumption|]. by constructor.
Qed.

(** ** Two-character chunks *)


Lemma pairs_ind {A : Type} (P : list A -> Prop) :
  P [] -> (forall a, P [a]) -> (forall a b s, P s -> P (a :: b :: s)) ->
  forall s, P s.
Proof.
  intros H0 H1 H2.
  fix IH 1. intros [|a [|b s]]; [exact H0 | apply H1 | apply H2, IH].
Qed.

Lemma comprehension_map {A B C : Type} (f : B -> result C) (g : A -> B)
    (l : list A) :
  comprehension f (map g l) = comprehension (fun a => f (g a)) l.
Proof. induction l as [|a l IH]; simpl; [reflexivity|]. by rewrite IH. Qed.

Lemma slices_chunks {A : Type} (s : list A) :
  map (fun i => slice s i (i + 2)) (range2 (len s)) = chunks2 s.
Proof.
  induction s as [| a | a b s IH] using pairs_ind.
  - reflexivity.
  - reflexivity.
  - unfold range2, len in *. simpl length.
    replace ((Z.of_nat (S (S (length s))) + 1) / 2)
      with (Z.succ ((Z.of_nat (length s) + 1) / 2))
      by (rewrite Nat2Z.inj_succ, Nat2Z.inj_succ; Z.div_mod_to_equations; lia).
    rewrite seqZ_cons by (Z.div_mod_to_equations; lia).
    rewrite Z.pred_succ. simpl map at 1.
    change (chunks2 (a :: b :: s)) with ([a; b] :: chunks2 s).
    f_equal. rewrite <- IH.
    rewrite <- (fmap_add_seqZ 1 0). change (1 + 0) with 1.
    change (Z.add 1 <$> ?l) with (map (Z.add 1) l).
    rewrite !map_map. apply map_ext_in. intros k Hk.
    apply list_elem_of_In, elem_of_seqZ in Hk.
    unfold slice.
    replace (Z.to_nat (2 * (1 + k) + 2 - 2 * (1 + k))) with 2%nat by lia.
    replace (Z.to_nat (2 * k + 2 - 2 * k)) with 2%nat by lia.
    replace (Z.to_nat (2 * (1 + k))) with (S (S (Z.to_nat (2 * k)))) by lia.
    reflexivity.
Qed.

Lemma key_bytes_chunks (key : list ascii) :
  key_bytes_of key = comprehension int10 (chunks2 key).
Proof.
  unfold key_bytes_of. by rewrite <- slices_chunks, comprehension_map.
Qed.

Lemma parse_chunks (key : list ascii) :
  Forall is_digit key ->
  exists ks, comprehension int10 (chunks2 key) = Ok ks
    /\ length ks = length (chunks2 key)
    /\ Forall (fun v => 0 <= v <= 99) ks
    /\ (Nat.Odd (length key) ->
        exists c v, last key = Some c /\ last (chunks2 key) = Some [c]
                    /\ last ks = Some v /\ 0 <= v <= 9).
Proof.
  induction key as [| a | a b key IH] using pairs_ind; intros Hd.
  - exists []. repeat split; [constructor|]. intros [k Hk]. simpl in Hk. lia.
  - apply Forall_cons in Hd as [Hd _].
    apply is_digit_val in Hd as (d & Hd & Hrange).
    exists [d]. simpl. rewrite Hd. simpl.
    repeat split; [constructor; [lia|constructor]|].
    intros _. exists a, d. repeat split; lia.
  - apply Forall_cons in Hd as [Hd Hrest].
    apply is_digit_val in Hd as (d & Hd & Hrange).
    apply Forall_cons in Hrest as [He Hrest].
    apply is_digit_val in He as (e & He & Hrange').
    destruct (IH Hrest) as (ks & Hks & Hlen & Hall & Hodd).
    exists ((10 * (10 * 0 + d) + e) :: ks).
    change (chunks2 (a :: b :: key)) with ([a; b] :: chunks2 key).
    simpl. rewrite Hd, He, Hks. simpl.
    split; [reflexivity|]. split; [by rewrite Hlen|].
    split; [constructor; [lia|assumption]|].
    intros Hodd'.
    destruct Hodd as (c & v & H1 & H2 & H3 & H4).
    { destruct Hodd' as [k Hk]. exists (k - 1)%nat. simpl in Hk. lia. }
    exists c, v.
    destruct key as [|x key]; [discriminate|].
    destruct ks as [|y ks]; [discriminate|].
    destruct (chunks2 (x :: key)) as [|z zs] eqn:E; [discriminate|].
    rewrite !last_cons_cons.
    tauto.
Qed.

Lemma chunks2_nonempty {A : Type} (s : list A) : s <> [] -> chunks2 s <> [].
Proof. destruct s as [|a [|b s]]; [done|discriminate..]. Qed.

(** ** Run-length encoding *)


Lemma push_run_head (c : ascii) (k : Z) (rs : list (ascii * Z)) :
  exists n rs', push_run (c, k) rs = (c, n) :: rs'.
Proof.
  destruct rs as [|[d n] rs']; simpl; [by eauto|].
  destruct (Ascii.eqb_spec c d) as [->|]; eauto.
Qed.

Lemma push_run_same (c : ascii) (k : Z) (rs : list (ascii * Z)) :
  push_run (c, k) (push_run (c, 1) rs) = push_run (c, k + 1) rs.
Proof.
  destruct rs as [|[d n] rs']; simpl.
  - rewrite Ascii.eqb_refl. do 2 f_equal. lia.
  - destruct (Ascii.eqb_spec c d) as [->|Hne]; simpl.
    + rewrite Ascii.eqb_refl. do 2 f_equal. lia.
    + rewrite Ascii.eqb_refl. do 2 f_equal. lia.
Qed.

Lemma compress_loop_runs (rest compressed : list ascii) (current_bit : ascii)
    (count : Z) :
  compress_loop rest compressed current_bit count
  = compressed
    ++ flat_map (fun r => r.1 :: str_int r.2)
         (push_run (current_bit, count) (runs rest)).
Proof.
  revert compressed current_bit count.
  induction rest as [|bit rest IH]; intros compressed current_bit count; simpl.
  - by rewrite app_nil_r.
  - destruct (Ascii.eqb_spec bit current_bit) as [->|Hne].
    + by rewrite IH, push_run_same.
    + rewrite IH.
      destruct (push_run_head bit 1 (runs rest)) as (n & rs' & ->). simpl.
      destruct (Ascii.eqb_spec current_bit bit) as [->|_]; [contradiction|].
      simpl. by rewrite <- app_assoc.
Qed.

(** ** The key of a well-shaped image *)

Lemma generate_key_ok (self : ADISFile) :
  1 <= resolution self ->
  shape_ok (resolution self) (image_array self) ->
  exists binary,
    image_bits self = Ok binary
    /\ len binary = 3 * 8 * resolution self * resolution self
    /\ Forall is_bit binary
    /\ generate_key self = Ok (rle binary)
    /\ Forall is_digit (rle binary)
    /\ rle binary <> [].
Proof.
  intros HR Himg. unfold generate_key. rewrite (image_bits_ok self Himg).
  set (binary := flat_map _ _).
  destruct (flat_map_bits (fun p => pixel_bits (cell (image_array self) p))
              (scan_order (resolution self))) as [Hlen Hbits].
  { intros p. apply pixel_bits_bits. }
  fold binary in Hlen, Hbits. rewrite length_scan_order in Hlen.
  exists binary. split; [reflexivity|]. split; [unfold len; nia|].
  split; [assumption|]. simpl.
  destruct binary as [|current_bit rest] eqn:E; [simpl in Hlen; nia|].
  assert (Hkey : compress_loop rest [] current_bit 1 = rle (current_bit :: rest)).
  { rewrite compress_loop_runs. reflexivity. }
  rewrite <- Hkey. split; [reflexivity|].
  apply Forall_cons in Hbits as [Hb Hrest].
  destruct (compress_loop_digits rest [] current_bit 1) as [Hd Hl];
    [eapply Forall_impl; [exact Hrest | apply is_bit_digit]
    | constructor | by apply is_bit_digit | lia |].
  split; [assumption|]. intros Hnil. rewrite Hnil in Hl. simpl in Hl. lia.
Qed.


(** ** Claims on the key *)

Example rle_sample :
  rle (list_ascii_of_string "1110000000000111")
  = list_ascii_of_string "1301013".
Proof. vm_compute. reflexivity. Qed.

(** A run of ten or more moves the chunk boundaries: the key "124072" of
    [small_adis] is read as 12, 40, 72. *)
Example key_bytes_small_adis :
  generate_key small_adis = Ok (list_ascii_of_string "124072")
  /\ key_bytes_of (list_ascii_of_string "124072") = Ok [12; 40; 72].
Proof. split; vm_compute; reflexivity. Qed.

Lemma keystream_ok (self : ADISFile) :
  1 <= resolution self ->
  shape_ok (resolution self) (image_array self) ->
  exists binary key_bytes,
    image_bits self = Ok binary
    /\ len binary = 3 * 8 * resolution self * resolution self
    /\ Forall is_bit binary
    /\ generate_key self = Ok (rle binary)
    /\ Forall is_digit (rle binary)
    /\ key_bytes_of (rle binary) = Ok key_bytes
    /\ comprehension int10 (chunks2 (rle binary)) = Ok key_bytes
    /\ key_bytes <> []
    /\ Forall (fun v => 0 <= v <= 99) key_bytes
    /\ (Z.odd (len (rle binary)) = true ->
        exists c v,
          last (map (fun i => slice (rle binary) i (i + 2))
                    (range2 (len (rle binary)))) = Some [c]
          /\ is_digit c /\ last key_bytes = Some v /\ 0 <= v <= 9).
Proof.
  intros HR Himg.
  destruct (generate_key_ok self HR Himg)
    as (binary & Hbits & Hlen & Hbin & Hkey & Hdigits & Hne).
  destruct (parse_chunks (rle binary) Hdigits)
    as (ks & Hks & Hklen & Hrange & Hodd).
  exists binary, ks. do 5 (split; [assumption|]).
  split; [by rewrite key_bytes_chunks|]. split; [assumption|].
  split.
  { intros ->. apply (chunks2_nonempty _ Hne). by destruct (chunks2 _). }
  split; [assumption|].
  intros Hz. apply Z.odd_spec in Hz as [m Hm]. unfold len in Hm.
  destruct Hodd as (c & v & H1 & H2 & H3 & H4).
  { exists (Z.to_nat m). lia. }
  exists c, v. rewrite slices_chunks. repeat split; try assumption; try lia.
  rewrite Forall_forall in Hdigits. apply Hdigits.
  by apply last_Some_elem_of.
Qed.

(** C5: on an image of shape (resolution, resolution) with resolution >= 1,
    the bit string has 3 * 8 * resolution^2 characters '0'/'1', the key is its
    run-length encoding, and the key bytes, the base-10 values of the
    consecutive two-character chunks of the key, are at least one and all in
    [0, 99]. *)
Theorem generate_key_keystream (self : ADISFile) :
  1 <= resolution self ->
  shape_ok (resolution self) (image_array self) ->
  dtype_ok (image_array self) ->
  exists binary key key_bytes,
    image_bits self = Ok binary
    /\ len binary = 3 * 8 * resolution self * resolution self
    /\ Forall is_bit binary
    /\ generate_key self = Ok key
    /\ key = rle binary
    /\ key_bytes_of key = Ok key_bytes
    /\ comprehension int10 (chunks2 key) = Ok key_bytes
    /\ key_bytes <> []
    /\ Forall (fun v => 0 <= v <= 99) key_bytes.
Proof.
  intros HR Himg _.
  destruct (keystream_ok self HR Himg)
    as (binary & ks & H1 & H2 & H3 & H4 & H5 & H6 & H7 & H8 & H9 & _).
  exists binary, (rle binary), ks. tauto.
Qed.

Lemma generate_key_keystream_witness :
  exists binary key key_bytes,
    image_bits small_adis = Ok binary
    /\ len binary = 3 * 8 * 2 * 2
    /\ Forall is_bit binary
    /\ generate_key small_adis = Ok key
    /\ key = rle binary
    /\ key_bytes_of key = Ok key_bytes
    /\ comprehension int10 (chunks2 key) = Ok key_bytes
    /\ key_bytes <> []
    /\ Forall (fun v => 0 <= v <= 99) key_bytes.
Proof.
  apply (generate_key_keystream small_adis); [simpl; lia | closed_image..].
Defined.

(** C10: under the same conditions the key holds decimal digits only, every
    chunk parses, and when the key has odd length its last chunk is one digit
    and the last key byte is in [0, 9]. *)
Theorem generate_key_digits (self : ADISFile) :
  1 <= resolution self ->
  shape_ok (resolution self) (image_array self) ->
  dtype_ok (image_array self) ->
  exists key key_bytes,
    generate_key self = Ok key
    /\ Forall is_digit key
    /\ key_bytes_of key = Ok key_bytes
    /\ (Z.odd (len key) = true ->
        exists c v,
          last (map (fun i => slice key i (i + 2)) (range2 (len key))) = Some [c]
          /\ is_digit c /\ last key_bytes = Some v /\ 0 <= v <= 9).
Proof.
  intros HR Himg _.
  destruct (keystream_ok self HR Himg)
    as (binary & ks & H1 & H2 & H3 & H4 & H5 & H6 & H7 & H8 & H9 & H10).
  exists (rle binary), ks. tauto.
Qed.

Lemma generate_key_digits_witness :
  exists key key_bytes,
    generate_key (set_image_array small_adis [[black; white]; [black; black]])
    = Ok key
    /\ Forall is_digit key
    /\ key_bytes_of key = Ok key_bytes
    /\ (Z.odd (len key) = true ->
        exists c v,
          last (map (fun i => slice key i (i + 2)) (range2 (len key))) = Some [c]
          /\ is_digit c /\ last key_bytes = Some v /\ 0 <= v <= 9).
Proof.
  apply (generate_key_digits
           (set_image_array small_adis [[black; white]; [black; black]]));
    [simpl; lia | closed_image..].
Defined.

(** ** Bytes *)


Lemma bytes_of_ok (l : list Z) : Forall is_byte l -> bytes_of l = Ok l.
Proof.
  unfold bytes_of. induction 1 as [|v l Hv Hl IH]; simpl; [reflexivity|].
  destruct (Z.leb_spec 0 v); [|unfold is_byte in Hv; lia].
  destruct (Z.ltb_spec v 256); [|unfold is_byte in Hv; lia].
  simpl. by rewrite IH.
Qed.

Lemma lxor_byte (a b : Z) : is_byte a -> is_byte b -> is_byte (Z.lxor a b).
Proof.
  unfold is_byte. intros Ha Hb.
  assert (Hnn : 0 <= Z.lxor a b) by (apply Z.lxor_nonneg; lia).
  split; [assumption|].
  destruct (Z.eq_dec (Z.lxor a b) 0) as [->|Hne]; [lia|].
  apply (Z.log2_lt_pow2 _ 8); [lia|].
  eapply Z.le_lt_trans; [apply Z.log2_lxor; lia|].
  apply Z.max_lub_lt.
  - destruct (Z.eq_dec a 0) as [->|]; [simpl; lia|].
    apply Z.log2_lt_pow2; lia.
  - destruct (Z.eq_dec b 0) as [->|]; [simpl; lia|].
    apply Z.log2_lt_pow2; lia.
Qed.

Lemma lxor_twice (a b : Z) : Z.lxor (Z.lxor a b) b = a.
Proof. by rewrite Z.lxor_assoc, Z.lxor_nilpotent, Z.lxor_0_r. Qed.

(** ** The cyclic key *)

Lemma length_list_mul {A : Type} (l : list A) (n : Z) :
  length (list_mul l n) = (Z.to_nat n * length l)%nat.
Proof.
  unfold list_mul. induction (Z.to_nat n) as [|k IH]; simpl; [reflexivity|].
  by rewrite length_app, IH.
Qed.

Lemma Forall_list_mul {A : Type} (P : A -> Prop) (l : list A) (n : Z) :
  Forall P l -> Forall P (list_mul l n).
Proof.
  intros Hl. unfold list_mul.
  induction (Z.to_nat n) as [|k IH]; simpl; [constructor|].
  by apply Forall_app.
Qed.

Lemma key_covers_data {A : Type} (data key_bytes : list A) :
  key_bytes <> [] ->
  (length data <= length (list_mul key_bytes (len data / len key_bytes + 1)))%nat.
Proof.
  intros Hne. rewrite length_list_mul. unfold len.
  assert (0 < Z.of_nat (length key_bytes))
    by (destruct key_bytes; [done | simpl; lia]).
  pose proof (Z.div_pos (Z.of_nat (length data)) (Z.of_nat (length key_bytes))).
  pose proof (Z.mod_pos_bound (Z.of_nat (length data)) (Z.of_nat (length key_bytes))).
  pose proof (Z.div_mod (Z.of_nat (length data)) (Z.of_nat (length key_bytes))).
  nia.
Qed.


Lemma xor_combine_byte (data K : list Z) :
  Forall is_byte data -> Forall is_byte K ->
  Forall is_byte (map xor_pair (combine data K)).
Proof.
  intros Hd. revert K. induction Hd as [|a data Ha Hd IH]; intros K HK; simpl.
  - constructor.
  - destruct HK as [|k K Hk HK]; simpl; constructor.
    + by apply lxor_byte.
    + by apply IH.
Qed.

Lemma xor_combine_twice (data K : list Z) :
  (length data <= length K)%nat ->
  map xor_pair (combine (map xor_pair (combine data K)) K) = data
  /\ length (map xor_pair (combine data K)) = length data.
Proof.
  revert K. induction data as [|a data IH]; intros K Hlen; simpl.
  - by split.
  - destruct K as [|k K]; simpl in *; [lia|].
    destruct (IH K) as [-> ->]; [lia|].
    unfold xor_pair at 1. simpl. unfold xor_pair at 1. simpl.
    by rewrite lxor_twice.
Qed.

(** XOR with the cyclic key is its own inverse. *)
Lemma xor_bytes_twice (data key_bytes : list Z) :
  key_bytes <> [] -> Forall is_byte key_bytes -> Forall is_byte data ->
  exists encrypted,
    xor_bytes data key_bytes = Ok encrypted
    /\ Forall is_byte encrypted
    /\ length encrypted = length data
    /\ xor_bytes encrypted key_bytes = Ok data.
Proof.
  intros Hne Hkey Hdata.
  assert (Hlen0 : (len key_bytes =? 0) = false).
  { apply Z.eqb_neq. unfold len. destruct key_bytes; [done | simpl; lia]. }
  set (K := list_mul key_bytes (len data / len key_bytes + 1)).
  pose proof (key_covers_data data key_bytes Hne) as Hcover. fold K in Hcover.
  assert (HK : Forall is_byte K) by by apply Forall_list_mul.
  destruct (xor_combine_twice data K Hcover) as [Hback Hlen].
  exists (map xor_pair (combine data K)).
  assert (Henc : Forall is_byte (map xor_pair (combine data K)))
    by by apply xor_combine_byte.
  split; [|split; [assumption|split; [assumption|]]].
  - unfold xor_bytes, floordiv. rewrite Hlen0. simpl. fold K.
    by apply bytes_of_ok.
  - unfold xor_bytes, floordiv. rewrite Hlen0. simpl.
    unfold len at 1. rewrite Hlen. fold (len data). fold K.
    fold xor_pair. rewrite Hback. by apply bytes_of_ok.
Qed.

(** ** Hexadecimal *)

Lemma hex_digit_val (n : Z) :
  0 <= n < 16 ->
  hex_val (hex_digit n) = Some n /\ is_space (hex_digit n) = false.
Proof.
  intros Hn. unfold hex_digit.
  rewrite <- (Z2Nat.id n) at 2 by lia.
  assert (Hlt : (Z.to_nat n < 16)%nat) by lia.
  revert Hlt. generalize (Z.to_nat n). intros m Hm.
  do 16 (destruct m as [|m]; [by vm_compute|]). lia.
Qed.

Lemma fromhex_hex (bs : list Z) : Forall is_byte bs -> fromhex (hex bs) = Ok bs.
Proof.
  induction 1 as [|b bs Hb Hbs IH]; [reflexivity|].
  unfold is_byte in Hb.
  destruct (hex_digit_val (b / 16)) as [Hh Hsp];
    [Z.div_mod_to_equations; lia|].
  destruct (hex_digit_val (b mod 16)) as [Hl _];
    [Z.div_mod_to_equations; lia|].
  change (hex (b :: bs))
    with (hex_digit (b / 16) :: hex_digit (b mod 16) :: hex bs).
  simpl. rewrite Hsp, Hh, Hl, IH. simpl.
  do 2 f_equal. Z.div_mod_to_equations; lia.
Qed.

(** ** UTF-8 *)


Lemma utf8_decode_cons (b0 : Z) (r0 : list Z) :
  utf8_decode (b0 :: r0)
  = if (0 <=? b0) && (b0 <? 128) then
      cs ← utf8_decode r0; Ok (b0 :: cs)
    else if (194 <=? b0) && (b0 <? 224) then
      match r0 with
      | b1 :: r1 =>
          if is_cont b1 then
            cs ← utf8_decode r1;
            Ok ((b0 - 192) * 64 + (b1 - 128) :: cs)
          else Raise UnicodeDecodeError
      | _ => Raise UnicodeDecodeError
      end
    else if (224 <=? b0) && (b0 <? 240) then
      match r0 with
      | b1 :: b2 :: r2 =>
          let c := (b0 - 224) * 4096 + (b1 - 128) * 64 + (b2 - 128) in
          if is_cont b1 && is_cont b2 && (2048 <=? c)
             && negb ((55296 <=? c) && (c <? 57344)) then
            cs ← utf8_decode r2; Ok (c :: cs)
          else Raise UnicodeDecodeError
      | _ => Raise UnicodeDecodeError
      end
    else if (240 <=? b0) && (b0 <? 245) then
      match r0 with
      | b1 :: b2 :: b3 :: r3 =>
          let c := (b0 - 240) * 262144 + (b1 - 128) * 4096
                   + (b2 - 128) * 64 + (b3 - 128) in
          if is_cont b1 && is_cont b2 && is_cont b3
             && (65536 <=? c) && (c <? 1114112) then
            cs ← utf8_decode r3; Ok (c :: cs)
          else Raise UnicodeDecodeError
      | _ => Raise UnicodeDecodeError
      end
    else Raise UnicodeDecodeError.
Proof. reflexivity. Qed.

Lemma encode_char_ok (c : Z) :
  is_scalar c ->
  exists bs, encode_char c = Ok bs /\ Forall is_byte bs
    /\ forall rest, utf8_decode (bs ++ rest)
                    = cs ← utf8_decode rest; Ok (c :: cs).
Proof.
  intros [Hrange Hsur]. unfold encode_char.
  destruct (Z.ltb_spec c 128); [|destruct (Z.ltb_spec c 2048);
    [|destruct (Z.ltb_spec c 65536)]].
  - decide_tests. simpl. eexists. split; [reflexivity|].
    split; [repeat constructor; lia|].
    intros rest. simpl app. rewrite utf8_decode_cons. decide_tests. reflexivity.
  - decide_tests. simpl. eexists. split; [reflexivity|].
    split; [repeat constructor; lia_div|].
    intros rest. simpl app. rewrite utf8_decode_cons. unfold is_cont.
    decide_tests. simpl.
    replace ((192 + c / 64 - 192) * 64 + (128 + c mod 64 - 128)) with c
      by lia_div.
    reflexivity.
  - decide_tests. simpl.
    assert (Hs : (55296 <=? c) && (c <? 57344) = false).
    { apply andb_false_iff.
      destruct (Z.leb_spec 55296 c); [|by left].
      right. apply Z.ltb_ge. lia. }
    rewrite Hs. eexists. split; [reflexivity|].
    split; [repeat constructor; lia_div|].
    intros rest. simpl app. rewrite utf8_decode_cons. unfold is_cont.
    cbv zeta.
    replace ((224 + c / 4096 - 224) * 4096 + (128 + (c / 64) mod 64 - 128) * 64
             + (128 + c mod 64 - 128)) with c by lia_div.
    rewrite Hs.
    decide_tests. reflexivity.
  - decide_tests. simpl. eexists. split; [reflexivity|].
    split; [repeat constructor; lia_div|].
    intros rest. simpl app. rewrite utf8_decode_cons. unfold is_cont.
    cbv zeta.
    replace ((240 + c / 262144 - 240) * 262144
             + (128 + (c / 4096) mod 64 - 128) * 4096
             + (128 + (c / 64) mod 64 - 128) * 64
             + (128 + c mod 64 - 128)) with c by lia_div.
    decide_tests. reflexivity.
Qed.

Lemma utf8_roundtrip (text : list Z) :
  Forall is_scalar text ->
  exists bs, utf8_encode text = Ok bs /\ Forall is_byte bs
             /\ utf8_decode bs = Ok text.
Proof.
  induction 1 as [|c text Hc Htext (bs & Henc & Hbytes & Hdec)]; simpl.
  - exists []. by repeat split.
  - destruct (encode_char_ok c Hc) as (cb & -> & Hcb & Hd).
    rewrite Henc. simpl. exists (cb ++ bs).
    split; [reflexivity|]. split; [by apply Forall_app|].
    by rewrite Hd, Hdec.
Qed.


(** ** Claims on the cipher *)

(** "hi" under the key bytes 5, 9 is "6d60", and back. *)
Example xor_hi :
  (hex <$> (match xor_bytes hi [5; 9] with Ok b => Some b | Raise _ => None end))
  = Some (list_ascii_of_string "6d60")
  /\ (encrypted_bytes ← fromhex (list_ascii_of_string "6d60");
      decrypted_bytes ← xor_bytes encrypted_bytes [5; 9];
      utf8_decode decrypted_bytes) = Ok hi.
Proof. split; vm_compute; reflexivity. Qed.

(** The cipher with any key: encoding, XOR, hex and back. *)
Lemma cipher_roundtrip (text key_bytes : list Z) :
  Forall is_scalar text -> key_bytes <> [] -> Forall is_byte key_bytes ->
  exists text_bytes encrypted_bytes,
    utf8_encode text = Ok text_bytes
    /\ xor_bytes text_bytes key_bytes = Ok encrypted_bytes
    /\ fromhex (hex encrypted_bytes) = Ok encrypted_bytes
    /\ xor_bytes encrypted_bytes key_bytes = Ok text_bytes
    /\ utf8_decode text_bytes = Ok text.
Proof.
  intros Htext Hne Hkey.
  destruct (utf8_roundtrip text Htext) as (tb & Henc & Htb & Hdec).
  destruct (xor_bytes_twice tb key_bytes Hne Hkey Htb)
    as (eb & Hxor & Heb & _ & Hback).
  exists tb, eb. repeat split; try assumption. by apply fromhex_hex.
Qed.

(** C3: for a text of Unicode scalar values, (a) with any non-empty key of
    byte values the pipeline encode, XOR, hex, unhex, XOR, decode gives the
    text back, and (b) on an object with resolution >= 1 and a well-shaped
    uint8 image, [decrypt_string] of what [encrypt_string] returned is the
    text. *)
Theorem encrypt_decrypt_roundtrip (text : list Z) :
  Forall is_scalar text ->
  (forall key_bytes, key_bytes <> [] -> Forall is_byte key_bytes ->
     exists text_bytes encrypted_bytes,
       utf8_encode text = Ok text_bytes
       /\ xor_bytes text_bytes key_bytes = Ok encrypted_bytes
       /\ fromhex (hex encrypted_bytes) = Ok encrypted_bytes
       /\ xor_bytes encrypted_bytes key_bytes = Ok text_bytes
       /\ utf8_decode text_bytes = Ok text)
  /\ (forall self,
        1 <= resolution self ->
        shape_ok (resolution self) (image_array self) ->
        dtype_ok (image_array self) ->
        exists encrypted_hex,
          encrypt_string self text = Ok encrypted_hex
          /\ decrypt_string self encrypted_hex = Ok text).
Proof.
  intros Htext. split.
  - intros key_bytes Hne Hkey. by apply cipher_roundtrip.
  - intros self HR Himg _.
    destruct (keystream_ok self HR Himg)
      as (binary & ks & _ & _ & _ & Hkey & _ & Hks & _ & Hne & Hrange & _).
    destruct (cipher_roundtrip text ks Htext Hne)
      as (tb & eb & H1 & H2 & H3 & H4 & H5).
    { eapply Forall_impl; [exact Hrange|]. unfold is_byte. simpl. lia. }
    exists (hex eb). unfold encrypt_string, decrypt_string.
    rewrite Hkey. simpl. rewrite Hks. simpl.
    rewrite H1. simpl. rewrite H2. simpl. split; [reflexivity|].
    rewrite H3. simpl. rewrite H4. simpl. exact H5.
Qed.


Lemma encrypt_decrypt_roundtrip_witness :
  (exists text_bytes encrypted_bytes,
     utf8_encode mixed_text = Ok text_bytes
     /\ xor_bytes text_bytes [5; 9] = Ok encrypted_bytes
     /\ fromhex (hex encrypted_bytes) = Ok encrypted_bytes
     /\ xor_bytes encrypted_bytes [5; 9] = Ok text_bytes
     /\ utf8_decode text_bytes = Ok mixed_text)
  /\ (exists encrypted_hex,
        encrypt_string small_adis mixed_text = Ok encrypted_hex
        /\ decrypt_string small_adis encrypted_hex = Ok mixed_text).
Proof.
  assert (Htext : Forall is_scalar mixed_text)
    by (unfold is_scalar; decide_closed).
  destruct (encrypt_decrypt_roundtrip mixed_text Htext) as [Hkey Hself].
  split.
  - apply Hkey; [discriminate | unfold is_byte; decide_closed].
  - apply Hself; [simpl; lia | closed_image..].
Defined.

(** C1: the code decrypts with the key of the live image. On [small_adis],
    "hi" is encrypted and the key image stored; after one further
    [iterate_once] the stored key image is still the image of encryption
    time, yet decrypting the stored ciphertext returns "fh". *)
Theorem decrypt_uses_live_image :
  (forall self h k,
     decrypt_string
       (mkADISFile (resolution self) (color_depth self) (iteration_speed self)
          (last_time self) (now_time self) (iteration_count self)
          (color_set self) (image_array self) (encrypted_string self) k) h
     = decrypt_string self h)
  /\ exists s1 s2,
       app_encrypt_string small_adis hi = Ok s1
       /\ key_image s1 = Some (image_array small_adis)
       /\ app_decrypt_string s1 = Some (Ok hi)
       /\ iterate_once s1 = Ok s2
       /\ key_image s2 = Some (image_array small_adis)
       /\ encrypted_string s2 = encrypted_string s1
       /\ image_array s2 <> image_array small_adis
       /\ app_decrypt_string s2 = Some (Ok [102; 104]).
Proof.
  split; [reflexivity|].
  eexists. eexists.
  split; [vm_compute; reflexivity|].
  split; [reflexivity|].
  split; [vm_compute; reflexivity|].
  split; [vm_compute; reflexivity|].
  split; [reflexivity|].
  split; [reflexivity|].
  split; [vm_compute; discriminate|].
  vm_compute. reflexivity.
Qed.

(** ** Palette generation never raises *)


Lemma returns_bind {A B : Type} (m : rand A) (f : A -> rand B)
    (Q : A -> Prop) (Q' : B -> Prop) :
  returns m Q -> (forall a, Q a -> returns (f a) Q') -> returns (m ≫= f) Q'.
Proof.
  intros Hm Hf t. unfold mbind, rand_bind. specialize (Hm t).
  destruct (m t) as [[[a|e] t']|]; [|contradiction|exact I].
  by apply Hf.
Qed.

Lemma returns_ret {A : Type} (a : A) (Q : A -> Prop) : Q a -> returns (mret a) Q.
Proof. intros H t. exact H. Qed.

Lemma returns_randint (a b : Z) :
  a <= b -> returns (randint a b) (fun v => a <= v <= b).
Proof.
  intros Hab t. unfold randint.
  destruct (Z.ltb_spec b a); [lia|].
  destruct t as [|d t']; [exact I|].
  pose proof (Z.mod_pos_bound d (b - a + 1)). lia.
Qed.

Lemma returns_random_choice {A : Type} (seq : list A) :
  seq <> [] -> returns (random_choice seq) (fun v => v ∈ seq).
Proof.
  intros Hne. unfold random_choice.
  destruct seq as [|x seq'] eqn:E; [done|]. rewrite <- E.
  assert (Hlen : 0 < len seq) by (rewrite E; unfold len; simpl; lia).
  eapply returns_bind; [apply returns_randint; lia|].
  intros j Hj. simpl in Hj.
  destruct (lookup_lt_is_Some_2 seq (Z.to_nat j)) as [v Hv];
    [unfold len in *; lia|].
  rewrite Hv. apply returns_ret. by eapply list_elem_of_lookup_2.
Qed.

Lemma returns_sample_loop {A : Type} (k : nat) (pool : list A) :
  (k <= length pool)%nat ->
  returns (sample_loop pool k) (fun l => length l = k).
Proof.
  revert pool. induction k as [|k IH]; intros pool Hk; simpl.
  - by apply returns_ret.
  - eapply returns_bind; [apply returns_randint; unfold len; lia|].
    intros j Hj. simpl in Hj. unfold len in Hj.
    destruct (lookup_lt_is_Some_2 pool (Z.to_nat j)) as [v Hv]; [lia|].
    rewrite Hv.
    eapply returns_bind.
    + apply IH. rewrite length_delete by eauto. lia.
    + intros rest Hrest. apply returns_ret. simpl. by rewrite Hrest.
Qed.

Lemma returns_random_sample {A : Type} (population : list A) (k : Z) :
  0 <= k <= len population ->
  returns (random_sample population k) (fun l => len l = k).
Proof.
  intros Hk. unfold random_sample.
  destruct (Z.ltb_spec k 0); [lia|].
  destruct (Z.ltb_spec (len population) k); [lia|]. simpl.
  intros t. pose proof (returns_sample_loop (Z.to_nat k) population) as H1.
  specialize (H1 ltac:(unfold len in *; lia) t).
  destruct (sample_loop _ _ t) as [[[l|e] t']|]; try exact H1.
  unfold len. lia.
Qed.

Lemma returns_fresh_rgb (used_colors : gset RGB) :
  returns (fresh_rgb used_colors) (fun c => c ∉ used_colors).
Proof.
  intros t. unfold fresh_rgb. generalize (length t) as fuel. intros fuel.
  revert t. induction fuel as [|fuel IH]; intros t; simpl; [exact I|].
  apply (returns_bind _ _ (fun _ => True)); [|clear t; intros r _].
  { intros t0. pose proof (returns_randint 0 255 ltac:(lia) t0) as H.
    by destruct (randint 0 255 t0) as [[[v|e] t']|]. }
  apply (returns_bind _ _ (fun _ => True)); [|intros g _].
  { intros t0. pose proof (returns_randint 0 255 ltac:(lia) t0) as H.
    by destruct (randint 0 255 t0) as [[[v|e] t']|]. }
  apply (returns_bind _ _ (fun _ => True)); [|intros b _].
  { intros t0. pose proof (returns_randint 0 255 ltac:(lia) t0) as H.
    by destruct (randint 0 255 t0) as [[[v|e] t']|]. }
  case_bool_decide; [by apply returns_ret | exact IH].
Qed.

Lemma returns_generate_color (used_colors : gset RGB) (color_set : list Color) :
  returns (generate_color (used_colors, color_set))
    (fun acc => length acc.2 = S (length color_set)).
Proof.
  unfold generate_color.
  eapply returns_bind; [apply returns_fresh_rgb|]. intros c Hc. simpl.
  set (available := elements (({[c]} ∪ used_colors) ∖ {[c]})).
  apply (returns_bind _ _ (fun _ => True)).
  - destruct (Z.leb_spec 1 (len available)); [|by apply returns_ret].
    apply (returns_bind _ _ (fun n => 1 <= n <= Z.min 2 (len available)));
      [apply returns_randint; lia|].
    intros n Hn. intros t.
    pose proof (returns_random_sample available n ltac:(lia) t) as H1.
    by destruct (random_sample available n t) as [[[l|e] t']|].
  - intros activation _.
    apply (returns_bind _ _ (fun v => v ∈ directions));
      [exact (returns_random_choice directions ltac:(discriminate))|].
    intros d _. apply returns_ret. simpl. rewrite length_app. simpl. lia.
Qed.

Lemma returns_rand_repeat (n : nat) (acc : gset RGB * list Color) :
  returns (rand_repeat n generate_color acc)
    (fun acc' => length acc'.2 = (length acc.2 + n)%nat).
Proof.
  revert acc. induction n as [|n IH]; intros acc; simpl.
  - apply returns_ret. lia.
  - destruct acc as [used cs].
    eapply returns_bind; [apply returns_generate_color|].
    intros acc' Hacc' t. specialize (IH acc' t). simpl in *.
    destruct (rand_repeat n generate_color acc' t) as [[[a|e] t']|];
      [|assumption..]. lia.
Qed.

Lemma set_color_set_id (self : ADISFile) : set_color_set self (color_set self) = self.
Proof. by destruct self. Qed.

(** ** Palette generation returns on a suitable tape *)

Lemma nth_color_inj (j k : Z) :
  0 <= j < 16777216 -> 0 <= k < 16777216 -> nth_color j = nth_color k -> j = k.
Proof. unfold nth_color. intros Hj Hk [= H1 H2 H3]. lia_div. Qed.

(** As long as fewer than 2^24 colours are used, some colour is free. *)
Lemma fresh_color_exists (used_colors : gset RGB) :
  Z.of_nat (size used_colors) < 16777216 ->
  exists r g b, 0 <= r < 256 /\ 0 <= g < 256 /\ 0 <= b < 256
                /\ (r, g, b) ∉ used_colors.
Proof.
  intros Hsize.
  set (L := (fun k => nth_color (Z.of_nat k)) <$> seq 0 (S (size used_colors))).
  assert (Hnd : NoDup L).
  { apply NoDup_fmap_2_strong; [|apply NoDup_seq].
    intros j k Hj Hk Heq. apply elem_of_seq in Hj, Hk.
    apply nth_color_inj in Heq; lia. }
  destruct (decide (Forall (fun c => c ∈ used_colors) L)) as [Hall|Hsome].
  - exfalso.
    assert (Hsub : L ⊆+ elements used_colors).
    { apply NoDup_submseteq; [assumption|].
      intros c Hc. apply elem_of_elements.
      rewrite Forall_forall in Hall. by apply Hall. }
    apply submseteq_length in Hsub.
    unfold L in Hsub. rewrite length_fmap, length_seq in Hsub.
    unfold size, set_size in Hsub. simpl in Hsub. lia.
  - apply not_Forall_Exists in Hsome; [|apply _].
    apply Exists_exists in Hsome as (c & Hc & Hfree).
    apply list_elem_of_fmap in Hc as (k & -> & Hk). apply elem_of_seq in Hk.
    exists (Z.of_nat k / 65536), ((Z.of_nat k / 256) mod 256), (Z.of_nat k mod 256).
    repeat split; try lia_div. exact Hfree.
Qed.

Lemma randint_draw (a b d : Z) (t : list Z) :
  a <= b -> randint a b (d :: t) = Some (Ok (a + d mod (b - a + 1)), t).
Proof. intros Hab. unfold randint. by destruct (Z.ltb_spec b a); [lia|]. Qed.

Lemma fresh_rgb_hit (used_colors : gset RGB) (r g b : Z) (rest : list Z) :
  0 <= r < 256 -> 0 <= g < 256 -> 0 <= b < 256 -> (r, g, b) ∉ used_colors ->
  fresh_rgb used_colors (r :: g :: b :: rest) = Some (Ok (r, g, b), rest).
Proof.
  intros Hr Hg Hb Hfree. unfold fresh_rgb. simpl length.
  cbn [fresh_rgb_loop]. unfold mbind, rand_bind.
  rewrite !randint_draw by lia. simpl.
  rewrite !Z.mod_small by lia. by rewrite bool_decide_eq_true_2.
Qed.

(** One round succeeds on a tape of at most six draws. *)
Lemma generate_color_total (used_colors : gset RGB) (color_set : list Color) :
  Z.of_nat (size used_colors) < 16777216 ->
  exists tape used' color,
    size used' = S (size used_colors)
    /\ forall rest,
         generate_color (used_colors, color_set) (tape ++ rest)
         = Some (Ok (used', color_set ++ [color]), rest).
Proof.
  intros Hsize.
  destruct (fresh_color_exists used_colors Hsize)
    as (r & g & b & Hr & Hg & Hb & Hfree).
  set (used' := {[(r, g, b)]} ∪ used_colors).
  assert (Hsize' : size used' = S (size used_colors)).
  { unfold used'. rewrite size_union by (by apply disjoint_singleton_l).
    by rewrite size_singleton. }
  destruct (elements (used' ∖ {[(r, g, b)]})) as [|v available] eqn:Havail.
  - exists [r; g; b; 0], used', (mkColor (r, g, b) "left" []).
    split; [assumption|]. intros rest.
    unfold generate_color, mbind, rand_bind. simpl app.
    rewrite fresh_rgb_hit by assumption. fold used'. rewrite Havail.
    reflexivity.
  - exists [r; g; b; 0; 0; 0], used', (mkColor (r, g, b) "left" [v]).
    split; [assumption|]. intros rest.
    unfold generate_color, mbind, rand_bind. simpl app.
    rewrite fresh_rgb_hit by assumption. fold used'. rewrite Havail.
    assert (Hlen : 1 <= len (v :: available)) by (unfold len; simpl; lia).
    destruct (Z.leb_spec 1 (len (v :: available))) as [_|]; [|lia].
    unfold mbind, rand_bind.
    rewrite randint_draw by lia. rewrite Z.mod_0_l by lia. rewrite Z.add_0_r.
    unfold random_sample.
    destruct (Z.ltb_spec 1 0); [lia|].
    destruct (Z.ltb_spec (len (v :: available)) 1); [lia|]. cbn [orb].
    change (Z.to_nat 1) with 1%nat. cbn [sample_loop]. unfold mbind, rand_bind.
    rewrite randint_draw by lia. rewrite Z.mod_0_l by lia.
    reflexivity.
Qed.

(** [n] rounds succeed on some tape as long as colours remain. *)
Lemma rand_repeat_total (n : nat) (used_colors : gset RGB) (color_set : list Color) :
  Z.of_nat (size used_colors) + Z.of_nat n <= 16777216 ->
  exists tape acc,
    length acc.2 = (length color_set + n)%nat
    /\ forall rest,
         rand_repeat n generate_color (used_colors, color_set) (tape ++ rest)
         = Some (Ok acc, rest).
Proof.
  revert used_colors color_set.
  induction n as [|n IH]; intros used_colors color_set Hroom.
  - exists [], (used_colors, color_set). simpl. split; [lia | reflexivity].
  - destruct (generate_color_total used_colors color_set)
      as (tape1 & used' & color & Hsize' & H1); [lia|].
    destruct (IH used' (color_set ++ [color])) as (tape2 & acc & Hlen & H2); [lia|].
    exists (tape1 ++ tape2), acc. split.
    + rewrite Hlen, length_app. simpl. lia.
    + intros rest. cbn [rand_repeat]. unfold mbind, rand_bind.
      rewrite <- app_assoc, H1. apply H2.
Qed.

(** With at most 2^24 colours asked for, [generate_random_colors] returns on
    some tape. *)
Lemma generate_random_colors_total (self : ADISFile) :
  color_depth self <= 16777216 ->
  exists tape self',
    generate_random_colors self tape = Some (Ok self', [])
    /\ length (color_set self')
       = (length (color_set self) + Z.to_nat (color_depth self))%nat.
Proof.
  intros Hdepth.
  destruct (rand_repeat_total (Z.to_nat (color_depth self)) ∅ (color_set self))
    as (tape & acc & Hlen & Hrun).
  { rewrite size_empty. lia. }
  exists tape, (set_color_set self acc.2). split; [|exact Hlen].
  unfold generate_random_colors, mbind, rand_bind.
  specialize (Hrun []). rewrite app_nil_r in Hrun. by rewrite Hrun.
Qed.

(** ** Claims on palette generation *)

(** A palette of one colour: its only rule has no activation colour. *)
Example generate_one_color :
  generate_random_colors one_color_adis [10; 20; 30; 1]
  = Some (Ok (set_color_set one_color_adis [mkColor (10, 20, 30) "right" []]), []).
Proof. vm_compute. reflexivity. Qed.

(** C6, as stated, fails: an object with [color_depth = 0] is built and its
    palette generated without any error; the palette is empty. *)
Lemma color_depth_zero_counterexample :
  exists self, init 4 0 1 0 0 0 = Ok self
    /\ generate_random_colors self [] = Some (Ok self, [])
    /\ color_set self = [].
Proof. eexists. repeat split. Qed.

(** C6, amended: [generate_random_colors] has no error path for any
    [color_depth]: on every tape it either is still drawing when the tape
    ends or returns, with [max color_depth 0] colours added, and for a
    [color_depth] of at most 2^24 some tape makes it return; for
    [color_depth <= 0] it returns the object unchanged. The constructor
    raises only numpy's [ValueError], and only for a negative resolution. *)
Theorem generate_random_colors_no_error (self : ADISFile) (tape : list Z) :
  (forall e tape', generate_random_colors self tape <> Some (Raise e, tape'))
  /\ (forall self' tape',
        generate_random_colors self tape = Some (Ok self', tape') ->
        length (color_set self')
        = (length (color_set self) + Z.to_nat (color_depth self))%nat)
  /\ (color_depth self <= 16777216 ->
        exists tape0 self',
          generate_random_colors self tape0 = Some (Ok self', [])
          /\ length (color_set self')
             = (length (color_set self) + Z.to_nat (color_depth self))%nat)
  /\ (color_depth self <= 0 ->
        generate_random_colors self tape = Some (Ok self, tape))
  /\ (forall r d s l n c e,
        init r d s l n c = Raise e -> r < 0 /\ e = ValueError)
  /\ (forall r d s l n c,
        0 <= r -> exists self0, init r d s l n c = Ok self0).
Proof.
  pose proof (returns_rand_repeat (Z.to_nat (color_depth self))
                (∅, color_set self) tape) as Hrun.
  pose proof (generate_random_colors_total self) as Htotal.
  unfold generate_random_colors, mbind, rand_bind in *.
  split; [|split; [|split; [exact Htotal|split; [|split]]]].
  - intros e tape'.
    destruct (rand_repeat _ _ _ tape) as [[[acc|e'] t']|];
      [discriminate | contradiction | discriminate].
  - intros self' tape'.
    destruct (rand_repeat _ _ _ tape) as [[[acc|e'] t']|];
      [|contradiction|discriminate].
    intros [= <- <-]. exact Hrun.
  - intros Hd. replace (Z.to_nat (color_depth self)) with 0%nat by lia.
    simpl. by rewrite set_color_set_id.
  - intros r d s l n c e. unfold init, np_zeros.
    destruct (Z.ltb_spec r 0); simpl; [|discriminate].
    intros [= <-]. by split.
  - intros r d s l n c Hr. unfold init, np_zeros.
    destruct (Z.ltb_spec r 0); [lia|]. simpl. eauto.
Qed.

Lemma generate_random_colors_no_error_witness :
  generate_random_colors no_colors_adis [7; 7; 7]
  = Some (Ok no_colors_adis, [7; 7; 7]).
Proof.
  destruct (generate_random_colors_no_error no_colors_adis [7; 7; 7])
    as (_ & _ & _ & Hzero & _).
  apply Hzero. simpl. lia.
Defined.

(** * Further properties *)

(** ** The palette [generate_random_colors] builds *)

Lemma returns_weaken {A : Type} (m : rand A) (Q Q' : A -> Prop) :
  returns m Q -> (forall a, Q a -> Q' a) -> returns m Q'.
Proof.
  intros Hm HQ t. specialize (Hm t).
  destruct (m t) as [[[a|e] t']|]; [by apply HQ | assumption | exact I].
Qed.

Lemma returns_fresh_rgb_u8 (used_colors : gset RGB) :
  returns (fresh_rgb used_colors) (fun c => (c ∉ used_colors) /\ rgb_u8 c).
Proof.
  intros t. unfold fresh_rgb. generalize (length t) as fuel. intros fuel.
  revert t. induction fuel as [|fuel IH]; intros t; simpl; [exact I|].
  revert t.
  eapply returns_bind; [apply (returns_randint 0 255); lia|]. intros r Hr.
  eapply returns_bind; [apply (returns_randint 0 255); lia|]. intros g Hg.
  eapply returns_bind; [apply (returns_randint 0 255); lia|]. intros b Hb.
  case_bool_decide; [|exact IH].
  apply returns_ret. split; [assumption|].
  unfold rgb_u8, is_u8. simpl in *. lia.
Qed.

Lemma lookup_not_in_delete {A : Type} (pool : list A) (j : nat) (v : A) :
  NoDup pool -> pool !! j = Some v -> v ∉ delete j pool.
Proof.
  intros Hnd Hv. rewrite <- (take_drop_middle pool j v Hv) in Hnd.
  rewrite delete_take_drop.
  apply NoDup_app in Hnd as (_ & Hdisj & Hnd).
  apply NoDup_cons in Hnd as [Hnotin _].
  intros Hin. apply elem_of_app in Hin as [Hin|Hin]; [|contradiction].
  apply (Hdisj v Hin). left.
Qed.

Lemma returns_sample_loop_distinct {A : Type} (k : nat) (pool : list A) :
  NoDup pool -> (k <= length pool)%nat ->
  returns (sample_loop pool k)
    (fun l => length l = k /\ NoDup l /\ forall v, v ∈ l -> v ∈ pool).
Proof.
  revert pool. induction k as [|k IH]; intros pool Hnd Hk; simpl.
  - apply returns_ret. split; [reflexivity|]. split; [constructor|].
    intros v Hv. by apply elem_of_nil in Hv.
  - eapply returns_bind; [apply returns_randint; unfold len; lia|].
    intros j Hj. simpl in Hj. unfold len in Hj.
    destruct (lookup_lt_is_Some_2 pool (Z.to_nat j)) as [v Hv]; [lia|].
    rewrite Hv.
    eapply returns_bind.
    + apply IH.
      * eapply sublist_NoDup; [exact Hnd | apply sublist_delete].
      * rewrite length_delete by eauto. lia.
    + intros rest (Hlen & Hrest & Hsub). apply returns_ret.
      split; [simpl; by rewrite Hlen|]. split.
      * apply NoDup_cons. split; [|assumption].
        intros Hin. apply Hsub in Hin.
        by apply (lookup_not_in_delete pool (Z.to_nat j) v).
      * intros w Hw. apply elem_of_cons in Hw as [->|Hw].
        -- by eapply list_elem_of_lookup_2.
        -- apply Hsub in Hw.
           eapply elem_of_sublist; [exact Hw | apply sublist_delete].
Qed.

Lemma returns_random_sample_distinct {A : Type} (population : list A) (k : Z) :
  NoDup population -> 0 <= k <= len population ->
  returns (random_sample population k)
    (fun l => len l = k /\ NoDup l /\ forall v, v ∈ l -> v ∈ population).
Proof.
  intros Hnd Hk. unfold random_sample.
  destruct (Z.ltb_spec k 0); [lia|].
  destruct (Z.ltb_spec (len population) k); [lia|]. simpl.
  eapply returns_weaken.
  - apply (returns_sample_loop_distinct (Z.to_nat k)); [assumption|].
    unfold len in *. lia.
  - intros l (Hlen & Hl & Hsub). unfold len. repeat split; try assumption. lia.
Qed.

Lemma generated_palette_snoc (cs : list Color) (c : Color) :
  generated_palette cs -> rule_ok cs c -> generated_palette (cs ++ [c]).
Proof.
  intros Hcs Hc i d Hd.
  destruct (decide (i < length cs)%nat) as [Hlt|Hge].
  - rewrite lookup_app_l in Hd by assumption.
    rewrite take_app_le by lia. by apply Hcs.
  - rewrite lookup_app_r in Hd by lia.
    destruct (i - length cs)%nat eqn:E; [|by destruct n].
    injection Hd as <-.
    assert (i = length cs) as -> by lia.
    by rewrite take_app_length.
Qed.

Lemma returns_generate_color_inv (acc : gset RGB * list Color) :
  palette_inv acc -> returns (generate_color acc) palette_inv.
Proof.
  destruct acc as [used cs]. intros [Hused Hcs]. simpl in Hused, Hcs.
  unfold generate_color.
  eapply returns_bind; [apply returns_fresh_rgb_u8|]. intros c [Hfresh Hu8].
  simpl.
  set (available := elements (({[c]} ∪ used) ∖ {[c]})).
  assert (Havail : forall a, a ∈ available <-> a ∈ map rgb cs).
  { intros a. unfold available. rewrite elem_of_elements, Hused.
    rewrite elem_of_difference, elem_of_union, elem_of_singleton,
      elem_of_list_to_set.
    split; [tauto|]. intros Ha. split; [by right|].
    intros ->. apply Hfresh. rewrite Hused. by apply elem_of_list_to_set. }
  assert (Hnd : NoDup available) by apply NoDup_elements.
  apply (returns_bind _ _
           (fun l => NoDup l /\ (forall a, a ∈ l -> a ∈ map rgb cs)
                     /\ (length l <= 2)%nat
                     /\ (cs <> [] -> (1 <= length l)%nat))).
  - destruct (Z.leb_spec 1 (len available)) as [Hge|Hlt].
    + eapply returns_bind; [apply returns_randint; lia|].
      intros n Hn. simpl in Hn.
      eapply returns_weaken;
        [apply returns_random_sample_distinct; [assumption | lia]|].
      intros l (Hlen & Hl & Hsub). unfold len in *.
      split; [assumption|]. split; [intros a Ha; by apply Havail, Hsub|].
      split; lia.
    + apply returns_ret. split; [constructor|].
      split; [intros a Ha; by apply elem_of_nil in Ha|].
      split; [simpl; lia|].
      intros Hne. exfalso. destruct cs as [|c0 cs']; [done|].
      assert (Hin : rgb c0 ∈ available) by (apply Havail; left).
      unfold len in Hlt. destruct available; [by apply elem_of_nil in Hin|].
      simpl in Hlt. lia.
  - intros activation (Hact & Hsub & Hle & Hge).
    eapply returns_bind;
      [exact (returns_random_choice directions ltac:(discriminate))|].
    intros d Hd. apply returns_ret. split; simpl.
    + rewrite map_app, list_to_set_app_L, Hused. simpl.
      rewrite (right_id_L ∅ (∪)). apply (comm_L (∪)).
    + apply generated_palette_snoc; [assumption|].
      unfold rule_ok. simpl.
      split; [assumption|]. split; [exact Hd|]. split; [|tauto].
      intros Hin. apply Hfresh. rewrite Hused. by apply elem_of_list_to_set.
Qed.

Lemma returns_rand_repeat_inv (n : nat) (acc : gset RGB * list Color) :
  palette_inv acc -> returns (rand_repeat n generate_color acc) palette_inv.
Proof.
  revert acc. induction n as [|n IH]; intros acc Hacc; simpl.
  - by apply returns_ret.
  - eapply returns_bind; [by apply returns_generate_color_inv|]. exact IH.
Qed.

Lemma generate_random_colors_palette (self self' : ADISFile) (tape tape' : list Z) :
  color_set self = [] ->
  generate_random_colors self tape = Some (Ok self', tape') ->
  generated_palette (color_set self').
Proof.
  intros Hempty Hrun.
  pose proof (returns_rand_repeat_inv (Z.to_nat (color_depth self))
                (∅, color_set self)) as Hinv.
  unfold generate_random_colors, mbind, rand_bind in Hrun.
  assert (Hstart : palette_inv (∅, color_set self)).
  { rewrite Hempty. split; [reflexivity|]. intros i c Hc. simpl in Hc.
    by rewrite lookup_nil in Hc. }
  specialize (Hinv Hstart tape).
  destruct (rand_repeat _ _ _ tape) as [[[acc|e] t']|]; try discriminate.
  injection Hrun as <- <-. simpl. apply Hinv.
Qed.

Lemma generated_palette_NoDup (cs : list Color) :
  generated_palette cs -> NoDup (map rgb cs).
Proof.
  induction cs as [|c cs IH] using rev_ind; intros Hcs; [constructor|].
  rewrite map_app. simpl. apply NoDup_app. split; [|split].
  - apply IH. intros i d Hd.
    pose proof (lookup_lt_Some _ _ _ Hd) as Hlt.
    specialize (Hcs i d). rewrite lookup_app_l in Hcs by assumption.
    rewrite take_app_le in Hcs by lia. by apply Hcs.
  - intros a Ha Ha'. apply list_elem_of_singleton in Ha' as ->.
    specialize (Hcs (length cs) c).
    rewrite lookup_app_r, Nat.sub_diag in Hcs by lia.
    rewrite take_app_length in Hcs.
    destruct (Hcs eq_refl) as (_ & _ & Hnotin & _). contradiction.
  - apply NoDup_singleton.
Qed.

Lemma generated_palette_u8 (cs : list Color) :
  generated_palette cs -> Forall (fun c => rgb_u8 (rgb c)) cs.
Proof.
  intros Hcs. apply Forall_lookup_2. intros i c Hc.
  by destruct (Hcs i c Hc).
Qed.

(** ** Computations that take a known number of draws *)

Lemma draws_ret {A : Type} (a : A) (Q : A -> Prop) : Q a -> draws (mret a) 0 Q.
Proof.
  intros Ha t. split; [|lia]. intros _. exists a. by split.
Qed.

Lemma draws_lift {A : Type} (a : A) (Q : A -> Prop) :
  Q a -> draws (rand_lift (Ok a)) 0 Q.
Proof. apply draws_ret. Qed.

Lemma draws_bind {A B : Type} (m : rand A) (f : A -> rand B) (n k : nat)
    (Q : A -> Prop) (Q' : B -> Prop) :
  draws m n Q -> (forall a, Q a -> draws (f a) k Q') ->
  draws (m ≫= f) (n + k) Q'.
Proof.
  intros Hm Hf t. unfold mbind, rand_bind.
  destruct (Hm t) as [Hlong Hshort].
  destruct (decide (n <= length t)%nat) as [Hn|Hn].
  - destruct (Hlong Hn) as (a & -> & Ha).
    destruct (Hf a Ha (drop n t)) as [Hlong' Hshort'].
    rewrite length_drop in Hlong', Hshort'. split.
    + intros Hnk. destruct Hlong' as (b & -> & Hb); [lia|].
      exists b. by rewrite drop_drop.
    + intros Hnk. apply Hshort'. lia.
  - rewrite Hshort by lia. split; [lia | reflexivity].
Qed.

Lemma draws_randint (a b : Z) :
  a <= b -> draws (randint a b) 1 (fun v => a <= v <= b).
Proof.
  intros Hab t. unfold randint. destruct (Z.ltb_spec b a); [lia|].
  destruct t as [|d t']; simpl; split; try lia; try reflexivity.
  intros _. eexists. split; [reflexivity|].
  pose proof (Z.mod_pos_bound d (b - a + 1)). lia.
Qed.

Lemma draws_random_choice {A : Type} (seq : list A) :
  seq <> [] -> draws (random_choice seq) 1 (fun v => v ∈ seq).
Proof.
  intros Hne. unfold random_choice.
  destruct seq as [|x seq'] eqn:E; [done|]. rewrite <- E.
  assert (Hlen : 0 < len seq) by (rewrite E; unfold len; simpl; lia).
  apply (draws_bind _ _ 1 0 (fun j => 0 <= j <= len seq - 1));
    [apply draws_randint; lia|].
  intros j Hj.
  destruct (lookup_lt_is_Some_2 seq (Z.to_nat j)) as [v Hv];
    [unfold len in *; lia|].
  rewrite Hv. apply draws_ret. by eapply list_elem_of_lookup_2.
Qed.

Lemma draws_weaken {A : Type} (m : rand A) (n : nat) (Q Q' : A -> Prop) :
  draws m n Q -> (forall a, Q a -> Q' a) -> draws m n Q'.
Proof.
  intros Hm HQ t. destruct (Hm t) as [Hlong Hshort]. split; [|assumption].
  intros Hn. destruct (Hlong Hn) as (a & Ha & HQa). exists a. auto.
Qed.

(** A loop whose body takes [k] draws each round takes [k] times the number
    of rounds; [I pre s] is the invariant after the rounds [pre]. *)
Lemma draws_rand_for_from {A S : Type} (I : list A -> S -> Prop)
    (body : A -> S -> rand S) (k : nat) (l done : list A) (s : S) :
  (forall pre v post s, l = pre ++ v :: post -> I (done ++ pre) s ->
     draws (body v s) k (I (done ++ pre ++ [v]))) ->
  I done s ->
  draws (rand_for l body s) (length l * k) (I (done ++ l)).
Proof.
  revert done s. induction l as [|v l IH]; intros done s Hbody Hs.
  - simpl. rewrite app_nil_r. by apply draws_ret.
  - cbn [rand_for length Nat.mul].
    apply (draws_bind _ _ k (length l * k) (I (done ++ [v]))).
    + apply (Hbody [] v l); [reflexivity|]. by rewrite app_nil_r.
    + intros s' Hs'.
      replace (done ++ v :: l) with ((done ++ [v]) ++ l)
        by (by rewrite <- app_assoc).
      apply IH; [|assumption].
      intros pre w post s0 Hl Hpre.
      replace ((done ++ [v]) ++ pre ++ [w]) with (done ++ (v :: pre) ++ [w])
        by (by rewrite <- !app_assoc).
      apply (Hbody (v :: pre) w post); [by rewrite Hl|].
      by rewrite <- app_assoc in Hpre.
Qed.

Lemma draws_rand_for {A S : Type} (I : list A -> S -> Prop)
    (body : A -> S -> rand S) (k : nat) (l : list A) (s : S) :
  (forall pre v post s, l = pre ++ v :: post -> I pre s ->
     draws (body v s) k (I (pre ++ [v]))) ->
  I [] s ->
  draws (rand_for l body s) (length l * k) (I l).
Proof.
  intros Hbody Hs. apply (draws_rand_for_from I body k l [] s); assumption.
Qed.

(** ** [initialize_image] *)

Lemma painted_weaken (self : ADISFile) (V V' : Z * Z -> Prop) (image : ndarray) :
  painted self V image ->
  (forall p, in_grid (resolution self) p -> V' p -> V p) ->
  painted self V' image.
Proof.
  intros [Hshape Hcells] HV. split; [assumption|].
  intros p Hp Hv. apply Hcells; auto.
Qed.

Lemma uint8_rgb_ok (c : RGB) : rgb_u8 c -> uint8_rgb c = Ok c.
Proof.
  destruct c as [[r g] b]. unfold rgb_u8, is_u8, uint8_rgb, uint8. simpl.
  intros (Hr & Hg & Hb).
  destruct (Z.leb_spec 0 r), (Z.ltb_spec r 256); try lia.
  destruct (Z.leb_spec 0 g), (Z.ltb_spec g 256); try lia.
  destruct (Z.leb_spec 0 b), (Z.ltb_spec b 256); try lia.
  reflexivity.
Qed.

Lemma setitem_uint8_ok (n : Z) (image : ndarray) (i j : Z) (c : RGB) :
  shape_ok n image -> in_grid n (i, j) -> rgb_u8 c ->
  setitem_uint8 image i j c = Ok (put image (i, j) c).
Proof.
  intros Hshape Hij Hc. unfold setitem_uint8.
  rewrite (getitem_ok _ _ Hshape _ _ Hij). simpl.
  rewrite (uint8_rgb_ok c Hc). simpl.
  apply (setitem_ok _ _ Hshape _ _ _ Hij).
Qed.

Lemma draws_initialize_cell (self : ADISFile) (V : Z * Z -> Prop)
    (i j : Z) (image : ndarray) :
  color_set self <> [] ->
  Forall (fun c => rgb_u8 (rgb c)) (color_set self) ->
  in_grid (resolution self) (i, j) ->
  painted self V image ->
  draws (initialize_cell self i j image) 1
    (painted self (fun p => V p \/ p = (i, j))).
Proof.
  intros Hne Hu8 Hij [Hshape Hcells]. unfold initialize_cell.
  apply (draws_bind _ _ 1 0 (fun c => c ∈ color_set self));
    [by apply draws_random_choice|].
  intros c Hc.
  rewrite (setitem_uint8_ok _ _ _ _ _ Hshape Hij)
    by (rewrite Forall_forall in Hu8; by apply Hu8).
  apply draws_lift. split; [by apply shape_put|].
  intros p Hp HV. rewrite (cell_put _ _ Hshape) by assumption.
  case_bool_decide as Heq.
  - apply list_elem_of_fmap. by exists c.
  - destruct HV as [HV|HV]; [by apply Hcells | contradiction].
Qed.

Lemma split_elem_of {A : Type} (l pre post : list A) (v : A) :
  l = pre ++ v :: post -> v ∈ l.
Proof. intros ->. apply elem_of_app. right. left. Qed.

Lemma draws_initialize_row (self : ADISFile) (V : Z * Z -> Prop) (i : Z)
    (image : ndarray) :
  color_set self <> [] ->
  Forall (fun c => rgb_u8 (rgb c)) (color_set self) ->
  0 <= i < resolution self ->
  painted self V image ->
  draws (rand_for (range (resolution self))
           (fun j image => initialize_cell self i j image) image)
    (Z.to_nat (resolution self))
    (painted self (fun p => V p \/ p.1 = i)).
Proof.
  intros Hne Hu8 Hi Himage.
  pose proof (draws_rand_for
                (fun js => painted self (fun p => V p \/ (p.1 = i /\ p.2 ∈ js)))
                (fun j image => initialize_cell self i j image) 1
                (range (resolution self)) image) as Hloop.
  unfold range in *. rewrite length_seqZ, Nat.mul_1_r in Hloop.
  eapply draws_weaken; [apply Hloop|].
  - intros pre j post image' Hsplit Hpre.
    apply split_elem_of, elem_of_seqZ in Hsplit.
    eapply draws_weaken;
      [apply draws_initialize_cell;
         [assumption | assumption | split; simpl; lia | exact Hpre]|].
    intros image'' Hpainted. eapply painted_weaken; [exact Hpainted|].
    intros p Hp [HV|[Hp1 Hp2]]; [by left; left|].
    apply elem_of_app in Hp2 as [Hp2|Hp2]; [left; right; by split|].
    apply list_elem_of_singleton in Hp2. right.
    destruct p; simpl in *; congruence.
  - eapply painted_weaken; [exact Himage|].
    intros p Hp [HV|[_ Hnil]]; [assumption | by apply elem_of_nil in Hnil].
  - intros image' Hpainted. eapply painted_weaken; [exact Hpainted|].
    intros p [Hp1 Hp2] [HV|Hrow]; [by left|]. right. split; [assumption|].
    apply elem_of_seqZ. lia.
Qed.

Lemma draws_initialize_image (self : ADISFile) :
  color_set self <> [] ->
  Forall (fun c => rgb_u8 (rgb c)) (color_set self) ->
  shape_ok (resolution self) (image_array self) ->
  draws (initialize_image self)
    (Z.to_nat (resolution self) * Z.to_nat (resolution self))
    (fun self' => self' = set_image_array self (image_array self')
                  /\ painted self (fun _ => True) (image_array self')).
Proof.
  intros Hne Hu8 Hshape. unfold initialize_image.
  rewrite <- (Nat.add_0_r (_ * _)).
  apply (draws_bind _ _ _ 0 (painted self (fun _ => True))).
  - pose proof (draws_rand_for
                  (fun rows => painted self (fun p => p.1 ∈ rows))
                  (fun i image =>
                     rand_for (range (resolution self))
                       (fun j image => initialize_cell self i j image) image)
                  (Z.to_nat (resolution self))
                  (range (resolution self)) (image_array self)) as Hloop.
    unfold range in *. rewrite length_seqZ in Hloop.
    eapply draws_weaken; [apply Hloop|].
    + intros pre i post image Hsplit Hpre.
      apply split_elem_of, elem_of_seqZ in Hsplit.
      eapply draws_weaken;
        [apply (draws_initialize_row self (fun p => p.1 ∈ pre) i);
           [assumption | assumption | lia | exact Hpre]|].
      intros image' Hpainted. eapply painted_weaken; [exact Hpainted|].
      intros p Hp Hin. apply elem_of_app in Hin as [Hin|Hin]; [by left|].
      apply list_elem_of_singleton in Hin. by right.
    + split; [assumption|]. intros p _ Hnil. by apply elem_of_nil in Hnil.
    + intros image' Hpainted. eapply painted_weaken; [exact Hpainted|].
      intros p [Hp1 _] _. apply elem_of_seqZ. lia.
  - intros image Hpainted. apply draws_ret. by split.
Qed.

Lemma painted_palette_ok (self self' : ADISFile) :
  resolution self' = resolution self -> color_set self' = color_set self ->
  painted self (fun _ => True) (image_array self') -> palette_ok self'.
Proof.
  intros HR Hcs [Hshape Hcells] v Hv. rewrite Hcs.
  apply (elem_of_image _ _ Hshape) in Hv as (p & Hp & <-). by apply Hcells.
Qed.

(** ** The creation of an object *)

Lemma np_zeros_ok (n : Z) :
  0 <= n ->
  exists image, np_zeros n = Ok image /\ shape_ok n image /\ dtype_ok image.
Proof.
  intros Hn. unfold np_zeros. destruct (Z.ltb_spec n 0); [lia|].
  eexists. split; [reflexivity|]. split; [split|].
  - by rewrite length_replicate.
  - apply Forall_replicate. by rewrite length_replicate.
  - apply Forall_replicate, Forall_replicate. unfold is_u8. simpl. lia.
Qed.

Lemma generate_random_colors_frame (self self' : ADISFile) (tape tape' : list Z) :
  generate_random_colors self tape = Some (Ok self', tape') ->
  self' = set_color_set self (color_set self')
  /\ length (color_set self')
     = (length (color_set self) + Z.to_nat (color_depth self))%nat.
Proof.
  intros Hrun.
  pose proof (returns_rand_repeat (Z.to_nat (color_depth self))
                (∅, color_set self) tape) as Hlen.
  unfold generate_random_colors, mbind, rand_bind in Hrun.
  destruct (rand_repeat _ _ _ tape) as [[[acc|e] t']|]; try discriminate.
  injection Hrun as <- <-. by split.
Qed.


Lemma generate_key_no_cells (self : ADISFile) :
  resolution self <= 0 -> generate_key self = Raise IndexError.
Proof.
  intros HR. unfold generate_key, image_bits, range.
  by rewrite seqZ_nil by lia.
Qed.

Lemma initialize_image_no_cells (self : ADISFile) (tape : list Z) :
  resolution self <= 0 -> initialize_image self tape = Some (Ok self, tape).
Proof.
  intros HR. unfold initialize_image, range.
  rewrite seqZ_nil by lia. by destruct self.
Qed.

Lemma initialize_image_no_colors (self : ADISFile) (tape : list Z) :
  1 <= resolution self -> color_set self = [] ->
  initialize_image self tape = Some (Raise IndexError, tape).
Proof.
  intros HR Hcs. unfold initialize_image, range.
  rewrite seqZ_cons by lia. cbn [rand_for].
  unfold initialize_cell. rewrite Hcs. reflexivity.
Qed.

Lemma encode_char_scalar (c : Z) (bs : list Z) :
  encode_char c = Ok bs -> is_scalar c.
Proof.
  unfold encode_char, is_scalar.
  destruct (Z.leb_spec 0 c), (Z.ltb_spec c 128), (Z.leb_spec 128 c),
    (Z.ltb_spec c 2048), (Z.leb_spec 2048 c), (Z.ltb_spec c 65536),
    (Z.leb_spec 55296 c), (Z.ltb_spec c 57344), (Z.leb_spec 65536 c),
    (Z.ltb_spec c 1114112); simpl; intros Hok; try discriminate; lia.
Qed.

Lemma utf8_encode_scalar (text bs : list Z) :
  utf8_encode text = Ok bs -> Forall is_scalar text.
Proof.
  revert bs. induction text as [|c text IH]; intros bs; simpl; [constructor|].
  destruct (encode_char c) as [cb|e] eqn:Hc; [|discriminate]. simpl.
  destruct (utf8_encode text) as [rest|e]; [|discriminate]. simpl.
  intros _. constructor; [by eapply encode_char_scalar | by eapply IH].
Qed.

(** What [encrypt_string] returned, [decrypt_string] reads back. *)
Lemma encrypt_string_inverse (self : ADISFile) (text : list Z) (h : list ascii) :
  1 <= resolution self ->
  shape_ok (resolution self) (image_array self) ->
  encrypt_string self text = Ok h ->
  decrypt_string self h = Ok text
  /\ exists text_bytes, utf8_encode text = Ok text_bytes
                        /\ length h = (2 * length text_bytes)%nat.
Proof.
  intros HR Himg Henc.
  destruct (keystream_ok self HR Himg)
    as (binary & ks & _ & _ & _ & Hkey & _ & Hks & _ & Hne & Hrange & _).
  unfold encrypt_string in Henc. unfold decrypt_string.
  rewrite Hkey in *. simpl in *. rewrite Hks in *. simpl in *.
  destruct (utf8_encode text) as [tb|e] eqn:Htb; [|discriminate].
  pose proof (utf8_encode_scalar _ _ Htb) as Hscalar.
  destruct (cipher_roundtrip text ks Hscalar Hne)
    as (tb' & eb & H1 & H2 & H3 & H4 & H5).
  { eapply Forall_impl; [exact Hrange|]. unfold is_byte. simpl. lia. }
  rewrite Htb in H1. injection H1 as <-.
  simpl in Henc. rewrite H2 in Henc. simpl in Henc. injection Henc as <-.
  rewrite H3. simpl. rewrite H4. simpl. split; [exact H5|].
  exists tb. split; [reflexivity|].
  destruct (xor_bytes_twice tb ks Hne) as (eb' & Heb' & _ & Hlen & _).
  { eapply Forall_impl; [exact Hrange|]. unfold is_byte. simpl. lia. }
  { destruct (utf8_roundtrip text Hscalar) as (tb'' & Henc' & Hbytes & _).
    rewrite Htb in Henc'. by injection Henc' as <-. }
  rewrite H2 in Heb'. injection Heb' as <-. rewrite <- Hlen.
  clear. induction eb as [|b eb IH]; [reflexivity|].
  change (hex (b :: eb)) with (hex_digit (b / 16) :: hex_digit (b mod 16) :: hex eb).
  simpl. rewrite IH. lia.
Qed.

Lemma encrypt_string_total (self : ADISFile) (text : list Z) :
  1 <= resolution self ->
  shape_ok (resolution self) (image_array self) ->
  Forall is_scalar text ->
  exists h, encrypt_string self text = Ok h.
Proof.
  intros HR Himg Htext.
  destruct (keystream_ok self HR Himg)
    as (binary & ks & _ & _ & _ & Hkey & _ & Hks & _ & Hne & Hrange & _).
  destruct (cipher_roundtrip text ks Htext Hne) as (tb & eb & H1 & H2 & _).
  { eapply Forall_impl; [exact Hrange|]. unfold is_byte. simpl. lia. }
  exists (hex eb). unfold encrypt_string.
  rewrite Hkey. simpl. rewrite Hks. simpl. rewrite H1. simpl.
  by rewrite H2.
Qed.

(** The first scheduled run of a fresh object: one step, whatever the
    non-zero speed. *)
Lemma first_iterate_required (self : ADISFile) (current_time : Z) :
  last_time self = 0 -> iteration_speed self <> 0 ->
  shape_ok (resolution self) (image_array self) ->
  let u := update_times self current_time in
  iterate_required u
  = Ok (set_iteration_count (set_image_array u (step_image u))
          (iteration_count self + 1)).
Proof.
  intros Hlast Hspeed Himg u.
  assert (Hu : u = set_times self current_time (current_time + iteration_speed self)).
  { unfold u, update_times. by rewrite Hlast. }
  destruct (iterate_required_ok u) as (s & Hs & ->).
  { by rewrite Hu. }
  { by rewrite Hu. }
  assert (Hone : (now_time u - last_time u) / iteration_speed u = 1).
  { rewrite Hu. simpl.
    replace (current_time + iteration_speed self - current_time)
      with (iteration_speed self) by lia.
    by apply Z.div_same. }
  rewrite Hone in *. change (Z.to_nat 1) with 1%nat in Hs. simpl in Hs.
  destruct (iterate_once_ok u) as [Hstep _]; [by rewrite Hu|].
  rewrite Hstep in Hs. simpl in Hs. injection Hs as <-.
  do 2 f_equal. rewrite Hu. simpl. lia.
Qed.

Lemma initialize_image_inv (self self' : ADISFile) (tape tape' : list Z) :
  0 <= resolution self ->
  Forall (fun c => rgb_u8 (rgb c)) (color_set self) ->
  shape_ok (resolution self) (image_array self) ->
  initialize_image self tape = Some (Ok self', tape') ->
  self' = set_image_array self (image_array self')
  /\ shape_ok (resolution self) (image_array self')
  /\ (1 <= resolution self ->
      color_set self <> [] /\ painted self (fun _ => True) (image_array self')).
Proof.
  intros HR Hu8 Himg Hrun.
  destruct (decide (resolution self = 0)) as [H0|H0].
  - rewrite initialize_image_no_cells in Hrun by lia.
    injection Hrun as <- <-. split; [by destruct self|]. split; [assumption|lia].
  - destruct (decide (color_set self = [])) as [Hcs|Hcs].
    + rewrite initialize_image_no_colors in Hrun by (assumption || lia).
      discriminate.
    + destruct (draws_initialize_image self Hcs Hu8 Himg tape)
        as [Hlong Hshort].
      destruct (decide (Z.to_nat (resolution self) * Z.to_nat (resolution self)
                        <= length tape)%nat) as [Hlen|Hlen].
      * destruct (Hlong Hlen) as (a & Ha & Hset & Hpainted).
        rewrite Ha in Hrun. injection Hrun as <- <-.
        split; [assumption|]. split; [apply Hpainted|]. by intros _.
      * rewrite Hshort in Hrun by lia. discriminate.
Qed.

Lemma create_adis_inv (R D S : Z) (text : list Z) (t : Z) (tape tape' : list Z)
    (adis : ADISFile) :
  create_adis R D S text t tape = Some (Ok adis, tape') ->
  exists cs image h,
    let painted_adis := mkADISFile R D S 0 0 0 cs image None None in
    let u := update_times painted_adis t in
    let stepped := set_iteration_count (set_image_array u (step_image u)) 1 in
    1 <= R /\ 1 <= D /\ S <> 0
    /\ generated_palette cs /\ length cs = Z.to_nat D
    /\ shape_ok R image /\ painted painted_adis (fun _ => True) image
    /\ encrypt_string stepped text = Ok h
    /\ adis = set_encrypted stepped h (step_image u).
Proof.
  unfold create_adis, mbind, rand_bind, rand_lift, init.
  destruct (Z.ltb_spec R 0) as [Hneg|HR0].
  { unfold np_zeros. destruct (Z.ltb_spec R 0); [|lia]. discriminate. }
  destruct (np_zeros_ok R HR0) as (zeros & -> & Hzeros & _). simpl.
  set (adis0 := mkADISFile R D S 0 0 0 [] zeros None None).
  destruct (generate_random_colors adis0 tape) as [[[adis1|e] t1]|] eqn:Hgen;
    try discriminate.
  pose proof (generate_random_colors_palette adis0 adis1 tape t1 eq_refl Hgen)
    as Hpal.
  destruct (generate_random_colors_frame _ _ _ _ Hgen) as [Hadis1 Hlen].
  simpl in Hlen. set (cs := color_set adis1) in *.
  destruct (initialize_image adis1 t1) as [[[adis2|e] t2]|] eqn:Hinit;
    try discriminate.
  rewrite Hadis1 in Hinit.
  destruct (initialize_image_inv (set_color_set adis0 cs) adis2 t1 t2
              HR0 (generated_palette_u8 cs Hpal) Hzeros Hinit)
    as (Hadis2 & Hshape & Hpainted).
  simpl in Hshape, Hpainted. set (image := image_array adis2) in *.
  assert (Hform : adis2 = mkADISFile R D S 0 0 0 cs image None None)
    by (rewrite Hadis2; reflexivity).
  clear Hadis2. rewrite Hform. clear Hform.
  set (painted_adis := mkADISFile R D S 0 0 0 cs image None None).
  destruct (Z.eq_dec S 0) as [->|HS].
  { unfold iterate_required, floordiv. simpl. discriminate. }
  rewrite (first_iterate_required painted_adis t eq_refl HS Hshape). simpl.
  change (0 + 1) with 1.
  set (u := update_times painted_adis t).
  set (stepped := set_iteration_count (set_image_array u (step_image u)) 1).
  unfold app_encrypt_string.
  destruct (encrypt_string stepped text) as [h|e] eqn:Henc; [|discriminate].
  simpl. intros [= <- <-].
  assert (HR1 : 1 <= R).
  { destruct (Z.le_gt_cases 1 R) as [|Hlt]; [assumption|].
    unfold encrypt_string in Henc.
    rewrite generate_key_no_cells in Henc by (simpl; lia). discriminate. }
  destruct (Hpainted HR1) as [Hcs Hcells].
  exists cs, image, h. simpl.
  split; [assumption|]. split.
  { destruct cs; [done|]. simpl in Hlen. lia. }
  split; [assumption|]. split; [assumption|]. split; [assumption|].
  split; [assumption|]. split; [exact Hcells|]. split; [exact Henc|reflexivity].
Qed.

(** ** Properties of the generated palette *)

(** X1: a palette generated into an empty [color_set] has pairwise distinct
    colours with uint8 channels, one of the four direction names in every
    rule, and [max color_depth 0] rules; nothing else of the object changes. *)
Theorem generated_colors_distinct (self self' : ADISFile) (tape tape' : list Z) :
  color_set self = [] ->
  generate_random_colors self tape = Some (Ok self', tape') ->
  NoDup (map rgb (color_set self'))
  /\ Forall (fun c => rgb_u8 (rgb c) /\ check_direction c ∈ directions)
       (color_set self')
  /\ len (color_set self') = Z.max 0 (color_depth self)
  /\ self' = set_color_set self (color_set self').
Proof.
  intros Hempty Hrun.
  pose proof (generate_random_colors_palette _ _ _ _ Hempty Hrun) as Hpal.
  destruct (generate_random_colors_frame _ _ _ _ Hrun) as [Hframe Hlen].
  split; [by apply generated_palette_NoDup|]. split; [|split; [|assumption]].
  - apply Forall_lookup. intros i c Hc.
    destruct (Hpal i c Hc) as (Hu8 & Hdir & _). by split.
  - unfold len. rewrite Hlen, Hempty. simpl. lia.
Qed.

Lemma generated_colors_distinct_witness :
  NoDup (map rgb three_colors)
  /\ Forall (fun c => rgb_u8 (rgb c) /\ check_direction c ∈ directions)
       three_colors
  /\ len three_colors = Z.max 0 3
  /\ set_color_set three_color_adis three_colors
     = set_color_set three_color_adis three_colors.
Proof.
  apply (generated_colors_distinct three_color_adis
           (set_color_set three_color_adis three_colors) three_color_tape []);
    [reflexivity | vm_compute; reflexivity].
Defined.

(** X2: in such a palette the activation colours of a rule are distinct
    colours of rules generated before it, so never its own colour; the first
    rule has none, every later rule has one or two. *)
Theorem generated_activation_backward (self self' : ADISFile)
    (tape tape' : list Z) (i : nat) (c : Color) :
  color_set self = [] ->
  generate_random_colors self tape = Some (Ok self', tape') ->
  color_set self' !! i = Some c ->
  NoDup (activation_colors c)
  /\ (forall a, a ∈ activation_colors c ->
        exists j c', (j < i)%nat /\ color_set self' !! j = Some c' /\ rgb c' = a)
  /\ (rgb c ∉ activation_colors c)
  /\ (length (activation_colors c) <= Nat.min 2 i)%nat
  /\ ((1 <= i)%nat -> (1 <= length (activation_colors c))%nat).
Proof.
  intros Hempty Hrun Hc.
  pose proof (generate_random_colors_palette _ _ _ _ Hempty Hrun) as Hpal.
  destruct (Hpal i c Hc) as (_ & _ & Hself & Hnd & Hsub & Hle & Hge).
  pose proof (lookup_lt_Some _ _ _ Hc) as Hi.
  split; [assumption|]. split; [|split; [|split]].
  - intros a Ha. apply Hsub, list_elem_of_fmap in Ha as (c' & -> & Hc').
    apply list_elem_of_lookup in Hc' as [j Hj].
    pose proof (lookup_lt_Some _ _ _ Hj) as Hjlt.
    rewrite length_take in Hjlt.
    exists j, c'. split; [lia|]. split; [|reflexivity].
    by rewrite lookup_take_lt in Hj by lia.
  - intros Hin. by apply Hself, Hsub.
  - assert (Hlen : (length (activation_colors c) <= i)%nat).
    { assert (Hsubm : activation_colors c ⊆+ map rgb (take i (color_set self')))
        by (by apply NoDup_submseteq).
      apply submseteq_length in Hsubm.
      rewrite length_map, length_take in Hsubm. lia. }
    lia.
  - intros Hpos. apply Hge.
    destruct (color_set self'); [simpl in Hi; lia|].
    destruct i; [lia | discriminate].
Qed.

Lemma generated_activation_backward_witness :
  let c := mkColor (7, 8, 9) "down" [(4, 5, 6); (1, 2, 3)] in
  NoDup (activation_colors c)
  /\ (forall a, a ∈ activation_colors c ->
        exists j c', (j < 2)%nat /\ three_colors !! j = Some c' /\ rgb c' = a)
  /\ (rgb c ∉ activation_colors c)
  /\ (length (activation_colors c) <= Nat.min 2 2)%nat
  /\ ((1 <= 2)%nat -> (1 <= length (activation_colors c))%nat).
Proof.
  apply (generated_activation_backward three_color_adis
           (set_color_set three_color_adis three_colors) three_color_tape []);
    [reflexivity | vm_compute; reflexivity | reflexivity].
Defined.

(** ** Properties of [initialize_image] *)

(** X3: on an object with a non-empty palette whose colours all have
    channels in 0..255 and with a well-shaped image, [initialize_image]
    takes exactly resolution^2 draws: given that many it returns, leaves the
    rest of the tape, changes the image only, and every cell then holds a
    palette colour, so the image has channels in 0..255; given fewer it is
    still drawing when the tape ends. It never raises. *)
Theorem initialize_image_paints (self : ADISFile) (tape : list Z) :
  0 <= resolution self ->
  color_set self <> [] ->
  Forall (fun c => rgb_u8 (rgb c)) (color_set self) ->
  shape_ok (resolution self) (image_array self) ->
  let n := resolution self * resolution self in
  (n <= len tape ->
     exists self',
       initialize_image self tape = Some (Ok self', drop (Z.to_nat n) tape)
       /\ self' = set_image_array self (image_array self')
       /\ shape_ok (resolution self) (image_array self')
       /\ palette_ok self'
       /\ dtype_ok (image_array self'))
  /\ (len tape < n -> initialize_image self tape = None).
Proof.
  intros HR Hcs Hu8 Himg n.
  destruct (draws_initialize_image self Hcs Hu8 Himg tape) as [Hlong Hshort].
  assert (Hn : Z.to_nat n = (Z.to_nat (resolution self)
                             * Z.to_nat (resolution self))%nat)
    by (unfold n; lia).
  unfold len. split.
  - intros Hlen. destruct Hlong as (self' & Hrun & Hframe & Hpainted); [lia|].
    exists self'. rewrite Hn. split; [assumption|]. split; [assumption|].
    split; [apply Hpainted|].
    assert (Hpal : palette_ok self').
    { apply (painted_palette_ok self); [by rewrite Hframe..|assumption]. }
    split; [assumption|].
    unfold dtype_ok. apply Forall_concat, Forall_forall.
    intros v Hv. apply Hpal in Hv. rewrite Hframe in Hv. simpl in Hv.
    apply list_elem_of_fmap in Hv as (c & -> & Hc).
    rewrite Forall_forall in Hu8. by apply Hu8.
  - intros Hlen. apply Hshort. lia.
Qed.

Lemma initialize_image_paints_witness :
  (exists self',
     initialize_image blank_adis [1; 0; 0; 1; 7] = Some (Ok self', [7])
     /\ self' = set_image_array blank_adis (image_array self')
     /\ shape_ok 2 (image_array self')
     /\ palette_ok self'
     /\ dtype_ok (image_array self'))
  /\ initialize_image blank_adis [1; 0; 0] = None.
Proof.
  destruct (initialize_image_paints blank_adis [1; 0; 0; 1; 7])
    as [Hlong _];
    [simpl; lia | discriminate | unfold rgb_u8, is_u8; decide_closed
    | unfold shape_ok; decide_closed |].
  destruct (initialize_image_paints blank_adis [1; 0; 0])
    as [_ Hshort];
    [simpl; lia | discriminate | unfold rgb_u8, is_u8; decide_closed
    | unfold shape_ok; decide_closed |].
  split; [apply Hlong | apply Hshort]; vm_compute; [discriminate | reflexivity].
Defined.

(** ** Properties of [create_adis] *)



(** X5: conversely, whenever [create_adis] returns an object, the resolution
    and the colour depth were at least 1, the iteration speed was not 0, and
    the text had a UTF-8 encoding. *)
Theorem create_adis_valid (R D S : Z) (text : list Z) (t : Z)
    (tape tape' : list Z) (adis : ADISFile) :
  create_adis R D S text t tape = Some (Ok adis, tape') ->
  1 <= R /\ 1 <= D /\ S <> 0 /\ Forall is_scalar text.
Proof.
  intros Hrun.
  destruct (create_adis_inv _ _ _ _ _ _ _ _ Hrun)
    as (cs & image & h & HR & HD & HS & _ & _ & Hshape & _ & Henc & _).
  do 3 (split; [assumption|]).
  set (u := update_times (mkADISFile R D S 0 0 0 cs image None None) t) in *.
  destruct (iterate_once_ok u) as [_ Hstep];
    [unfold u, update_times; by simpl|].
  destruct (encrypt_string_inverse
              (set_iteration_count (set_image_array u (step_image u)) 1)
              text h HR Hstep Henc)
    as (_ & tb & Htb & _).
  by eapply utf8_encode_scalar.
Qed.

Lemma create_adis_valid_witness :
  1 <= 2 /\ 1 <= 2 /\ 1 <> 0 /\ Forall is_scalar hi.
Proof.
  apply (create_adis_valid 2 2 1 hi 29000000 creation_tape [] created_adis).
  vm_compute. reflexivity.
Defined.

(** X6: the object [create_adis] returns carries the form's three numbers,
    [last_time] the tick and [now_time] the tick plus the speed, has run
    exactly one step, holds a well-shaped image of palette colours over a
    palette of [color_depth] generated rules, and stores a key image equal to
    its image together with a ciphertext that [decrypt_string] turns back
    into the text. *)
Theorem create_adis_result (R D S : Z) (text : list Z) (t : Z)
    (tape tape' : list Z) (adis : ADISFile) :
  create_adis R D S text t tape = Some (Ok adis, tape') ->
  resolution adis = R /\ color_depth adis = D /\ iteration_speed adis = S
  /\ last_time adis = t /\ now_time adis = t + S /\ iteration_count adis = 1
  /\ shape_ok R (image_array adis)
  /\ generated_palette (color_set adis) /\ len (color_set adis) = D
  /\ palette_ok adis
  /\ key_image adis = Some (image_array adis)
  /\ exists h, encrypted_string adis = Some h /\ decrypt_string adis h = Ok text.
Proof.
  intros Hrun.
  destruct (create_adis_inv _ _ _ _ _ _ _ _ Hrun)
    as (cs & image & h & HR & HD & HS & Hpal & Hlen & Hshape & Hpainted
        & Henc & ->).
  set (painted_adis := mkADISFile R D S 0 0 0 cs image None None) in *.
  set (u := update_times painted_adis t) in *.
  assert (Hu : shape_ok (resolution u) (image_array u)) by exact Hshape.
  destruct (iterate_once_ok u Hu) as [_ Hstep].
  simpl. do 6 (split; [reflexivity|]). split; [exact Hstep|].
  split; [assumption|]. split; [unfold len; lia|]. split; [|split; [reflexivity|]].
  - intros v Hv. simpl in *.
    apply (step_image_colors u v Hu) in Hv.
    apply (elem_of_image _ _ Hshape) in Hv as (p & Hp & <-).
    by apply Hpainted.
  - exists h. split; [reflexivity|].
    by destruct (encrypt_string_inverse
              (set_iteration_count (set_image_array u (step_image u)) 1)
              text h HR Hstep Henc).
Qed.

Lemma create_adis_result_witness :
  resolution created_adis = 2 /\ color_depth created_adis = 2
  /\ iteration_speed created_adis = 1
  /\ last_time created_adis = 29000000
  /\ now_time created_adis = 29000000 + 1 /\ iteration_count created_adis = 1
  /\ shape_ok 2 (image_array created_adis)
  /\ generated_palette (color_set created_adis)
  /\ len (color_set created_adis) = 2
  /\ palette_ok created_adis
  /\ key_image created_adis = Some (image_array created_adis)
  /\ exists h, encrypted_string created_adis = Some h
               /\ decrypt_string created_adis h = Ok hi.
Proof.
  apply (create_adis_result 2 2 1 hi 29000000 creation_tape []).
  vm_compute. reflexivity.
Defined.

(** X7: for a resolution of at least 1, a colour depth from 1 to 2^24, a
    non-zero speed and a text of Unicode scalar values, some tape makes
    [create_adis] return. *)
Theorem create_adis_total (R D S : Z) (text : list Z) (t : Z) :
  1 <= R -> 1 <= D <= 16777216 -> S <> 0 -> Forall is_scalar text ->
  exists tape adis, create_adis R D S text t tape = Some (Ok adis, []).
Proof.
  intros HR HD HS Htext.
  destruct (np_zeros_ok R) as (zeros & Hzeros & Hshape & _); [lia|].
  destruct (rand_repeat_total (Z.to_nat D) ∅ []) as (tape0 & acc & Hlen & Hgen).
  { rewrite size_empty. lia. }
  set (n := (Z.to_nat R * Z.to_nat R)%nat).
  set (adis1 := mkADISFile R D S 0 0 0 acc.2 zeros None None).
  assert (Hcs : color_set adis1 <> []).
  { simpl. intros Hnil. rewrite Hnil in Hlen. simpl in Hlen. lia. }
  assert (Hu8 : Forall (fun c => rgb_u8 (rgb c)) (color_set adis1)).
  { apply generated_palette_u8.
    apply (generate_random_colors_palette
             (mkADISFile R D S 0 0 0 [] zeros None None) adis1 (tape0 ++ []) []
             eq_refl).
    unfold generate_random_colors, mbind, rand_bind. simpl.
    by rewrite Hgen. }
  destruct (draws_initialize_image adis1 Hcs Hu8 Hshape (replicate n 0))
    as [Hlong _].
  destruct Hlong as (adis2 & Hinit & Hframe & Hpainted);
    [by rewrite length_replicate|].
  fold n in Hinit. rewrite drop_replicate, Nat.sub_diag in Hinit.
  assert (Hshape2 : shape_ok (resolution adis2) (image_array adis2))
    by (rewrite Hframe at 1; apply Hpainted).
  assert (Hlast : last_time adis2 = 0) by (by rewrite Hframe).
  assert (Hspeed : iteration_speed adis2 <> 0) by (by rewrite Hframe).
  pose proof (first_iterate_required adis2 t Hlast Hspeed Hshape2) as Hfirst.
  cbv zeta in Hfirst.
  set (u := update_times adis2 t) in *.
  destruct (iterate_once_ok u) as [_ Hstep].
  { unfold u, update_times. rewrite Hframe. simpl. apply Hpainted. }
  set (stepped := set_iteration_count (set_image_array u (step_image u))
                    (iteration_count adis2 + 1)) in *.
  destruct (encrypt_string_total stepped text) as [h Henc];
    [unfold stepped, u, update_times; rewrite Hframe; simpl; lia
    | exact Hstep | assumption |].
  exists (tape0 ++ replicate n 0), (set_encrypted stepped h (image_array stepped)).
  unfold create_adis, mbind, rand_bind, rand_lift, init.
  rewrite Hzeros. simpl.
  unfold generate_random_colors, mbind, rand_bind. simpl.
  rewrite Hgen. simpl.
  change (set_color_set _ acc.2) with adis1. rewrite Hinit.
  fold u. rewrite Hfirst.
  unfold app_encrypt_string. fold stepped. by rewrite Henc.
Qed.

Lemma create_adis_total_witness :
  exists tape adis, create_adis 2 2 1 hi 29000000 tape = Some (Ok adis, []).
Proof.
  apply (create_adis_total 2 2 1 hi 29000000); try lia.
  unfold is_scalar. decide_closed.
Defined.

(** ** Further properties of the step *)

Lemma index_raises (n : nat) (i : Z) (e : exn) :
  index n i = Raise e -> e = IndexError.
Proof. unfold index. repeat case_match; congruence. Qed.

Lemma getitem_raises (a : ndarray) (x y : Z) (e : exn) :
  getitem a x y = Raise e -> e = IndexError.
Proof.
  unfold getitem. destruct (index (length a) x) as [i|e'] eqn:Hi; simpl.
  - destruct (a !! i) as [row|]; [|congruence].
    destruct (index (length row) y) as [j|e''] eqn:Hj; simpl.
    + destruct (row !! j); congruence.
    + intros [= <-]. by eapply index_raises.
  - intros [= <-]. by eapply index_raises.
Qed.

Lemma setitem_raises (a : ndarray) (x y : Z) (v : RGB) (e : exn) :
  setitem a x y v = Raise e -> e = IndexError.
Proof.
  unfold setitem. destruct (index (length a) x) as [i|e'] eqn:Hi; simpl.
  - destruct (a !! i) as [row|]; [|congruence].
    destruct (index (length row) y) as [j|e''] eqn:Hj; simpl; [congruence|].
    intros [= <-]. by eapply index_raises.
  - intros [= <-]. by eapply index_raises.
Qed.

Lemma iterate_cell_raises (self : ADISFile) (x y : Z) (new_array : ndarray)
    (e : exn) :
  resolution self <> 0 ->
  iterate_cell self x y new_array = Raise e -> e = IndexError.
Proof.
  intros HR. unfold iterate_cell.
  destruct (getitem (image_array self) x y) as [current|e1] eqn:H1; simpl;
    [|intros [= <-]; by eapply getitem_raises].
  destruct (find _ (color_set self)) as [color_obj|]; [|discriminate].
  rewrite get_check_position_ok by assumption. simpl.
  destruct (check_position _ _ _) as [cx cy].
  destruct (getitem (image_array self) cx cy) as [nb|e2] eqn:H2; simpl;
    [|intros [= <-]; by eapply getitem_raises].
  case_bool_decide; [|discriminate].
  destruct (setitem new_array x y nb) as [new1|e3] eqn:H3; simpl;
    [|intros [= <-]; by eapply setitem_raises].
  apply setitem_raises.
Qed.

Lemma for_each_raises {A S : Type} (P : exn -> Prop) (body : A -> S -> result S)
    (l : list A) (s : S) (e : exn) :
  (forall v s e, v ∈ l -> body v s = Raise e -> P e) ->
  for_each l body s = Raise e -> P e.
Proof.
  revert s. induction l as [|v l IH]; intros s Hbody; simpl; [discriminate|].
  destruct (body v s) as [s'|e'] eqn:Hv; simpl.
  - apply IH. intros w s0 e0 Hw. apply Hbody. by right.
  - intros [= <-]. apply (Hbody v s e'); [left | assumption].
Qed.

(** X8: [iterate_once] fails only with [IndexError], and only on an image
    that does not have the shape (resolution, resolution) of an object with
    resolution at least 1. *)
Theorem iterate_once_raises (self : ADISFile) (e : exn) :
  iterate_once self = Raise e ->
  e = IndexError
  /\ 1 <= resolution self
  /\ ~ shape_ok (resolution self) (image_array self).
Proof.
  intros Hrun. split; [|split].
  - unfold iterate_once in Hrun.
    destruct (for_each _ _ _) as [new|e'] eqn:Hloop; [discriminate|].
    injection Hrun as <-.
    apply (for_each_raises (fun e => e = IndexError)) in Hloop; [assumption|].
    intros x s e0 Hx. apply elem_of_range in Hx.
    apply (for_each_raises (fun e => e = IndexError)). intros y s' e1 _.
    apply iterate_cell_raises. lia.
  - destruct (Z.le_gt_cases 1 (resolution self)) as [|Hlt]; [assumption|].
    unfold iterate_once, range in Hrun. rewrite seqZ_nil in Hrun by lia.
    discriminate.
  - intros Hshape. destruct (iterate_once_ok self Hshape) as [Hok _].
    rewrite Hok in Hrun. discriminate.
Qed.

Lemma iterate_once_raises_witness :
  IndexError = IndexError
  /\ 1 <= resolution short_adis
  /\ ~ shape_ok (resolution short_adis) (image_array short_adis).
Proof.
  apply (iterate_once_raises short_adis IndexError). vm_compute. reflexivity.
Defined.

Lemma swap_target_inert (self : ADISFile) (p : Z * Z) :
  Forall (fun c => activation_colors c = []) (color_set self) ->
  swap_target self p = None.
Proof.
  intros Hinert. unfold swap_target.
  destruct (find _ (color_set self)) as [color_obj|] eqn:Hfind; [|reflexivity].
  apply find_some in Hfind as [Hin _].
  rewrite Forall_forall in Hinert.
  rewrite (Hinert color_obj) by (by apply list_elem_of_In).
  by rewrite bool_decide_eq_false_2 by apply not_elem_of_nil.
Qed.

(** X9: with a palette in which no rule has an activation colour (an empty
    palette, or the one-colour palette [generate_random_colors] builds),
    [iterate_once] returns the object unchanged. *)
Theorem iterate_once_inert (self : ADISFile) :
  shape_ok (resolution self) (image_array self) ->
  Forall (fun c => activation_colors c = []) (color_set self) ->
  iterate_once self = Ok self.
Proof.
  intros Himg Hinert. destruct (iterate_once_ok self Himg) as [-> _].
  assert (Hstep : step_image self = image_array self).
  { unfold step_image.
    induction (scan_order (resolution self)) as [|p ps IH] using rev_ind;
      [reflexivity|].
    rewrite fold_left_app. simpl. rewrite IH. unfold apply_cell.
    by rewrite swap_target_inert. }
  rewrite Hstep. by destruct self.
Qed.

Lemma iterate_once_inert_witness : iterate_once inert_adis = Ok inert_adis.
Proof.
  apply (iterate_once_inert inert_adis).
  - unfold shape_ok. decide_closed.
  - decide_closed.
Defined.

Lemma fold_apply_cell_frame (self : ADISFile) (ps : list (Z * Z))
    (new : ndarray) (c : Z * Z) :
  (forall p, p ∈ ps -> in_grid (resolution self) p) ->
  shape_ok (resolution self) new ->
  in_grid (resolution self) c ->
  c ∉ flat_map (fun p => match swap_target self p with
                         | Some q => [p; q]
                         | None => []
                         end) ps ->
  cell (fold_left (apply_cell self) ps new) c = cell new c.
Proof.
  revert new. induction ps as [|p ps IH]; intros new Hps Hnew Hc Hnotin;
    [reflexivity|].
  simpl in *.
  assert (Hp : in_grid (resolution self) p) by (apply Hps; left).
  assert (Hps' : forall p0, p0 ∈ ps -> in_grid (resolution self) p0)
    by (intros p0 H0; apply Hps; by right).
  unfold apply_cell at 2.
  destruct (swap_target self p) as [q|] eqn:Hq.
  - pose proof (swap_target_in_grid self p q Hp Hq) as Hqin.
    simpl in Hnotin.
    apply not_elem_of_cons in Hnotin as [Hcp Hnotin].
    apply not_elem_of_cons in Hnotin as [Hcq Hnotin].
    rewrite IH; [| assumption | by do 2 apply shape_put | assumption..].
    rewrite (cell_put (resolution self)); [|by apply shape_put|assumption..].
    rewrite bool_decide_eq_false_2 by assumption.
    rewrite (cell_put (resolution self)) by assumption.
    by rewrite bool_decide_eq_false_2.
  - by apply IH.
Qed.

(** X10: a cell that no swap of the pass writes keeps its colour. *)
Theorem iterate_once_frame (self : ADISFile) (x y : Z) :
  shape_ok (resolution self) (image_array self) ->
  in_grid (resolution self) (x, y) ->
  (x, y) ∉ touched self ->
  exists self',
    iterate_once self = Ok self'
    /\ getitem (image_array self') x y = getitem (image_array self) x y.
Proof.
  intros Himg Hxy Hnotin. destruct (iterate_once_ok self Himg) as [-> Hshape].
  eexists. split; [reflexivity|]. simpl.
  rewrite (getitem_ok _ _ Hshape _ _ Hxy), (getitem_ok _ _ Himg _ _ Hxy).
  f_equal. unfold step_image.
  apply fold_apply_cell_frame; try assumption.
  intros p. apply elem_of_scan_order.
Qed.

Lemma iterate_once_frame_witness :
  exists self',
    iterate_once small_adis = Ok self'
    /\ getitem (image_array self') 1 1 = getitem (image_array small_adis) 1 1.
Proof.
  apply (iterate_once_frame small_adis 1 1).
  - unfold shape_ok. decide_closed.
  - unfold in_grid. simpl. lia.
  - decide_closed.
Defined.

(** X11: when no cell is written by more than one swap of the pass, a cell
    whose rule fires really exchanges colours with its neighbour. *)
Theorem iterate_once_swaps (self : ADISFile) (p q : Z * Z) :
  shape_ok (resolution self) (image_array self) ->
  NoDup (touched self) ->
  in_grid (resolution self) p ->
  swap_target self p = Some q ->
  exists self',
    iterate_once self = Ok self'
    /\ getitem (image_array self') p.1 p.2 = getitem (image_array self) q.1 q.2
    /\ getitem (image_array self') q.1 q.2 = getitem (image_array self) p.1 p.2.
Proof.
  intros Himg Hnd Hp Hq. destruct (iterate_once_ok self Himg) as [-> Hshape].
  pose proof (swap_target_in_grid self p q Hp Hq) as Hqin.
  eexists. split; [reflexivity|]. simpl.
  assert (Hp' : in_grid (resolution self) (p.1, p.2)) by (by destruct p).
  assert (Hq' : in_grid (resolution self) (q.1, q.2)) by (by destruct q).
  rewrite !(getitem_ok _ _ Hshape) by assumption.
  rewrite !(getitem_ok _ _ Himg) by assumption.
  replace (p.1, p.2) with p by (by destruct p).
  replace (q.1, q.2) with q by (by destruct q).
  unfold step_image, touched in *.
  assert (Hin : p ∈ scan_order (resolution self)) by (by apply elem_of_scan_order).
  assert (Hall : forall p0, p0 ∈ scan_order (resolution self) ->
                            in_grid (resolution self) p0)
    by (intros p0; apply elem_of_scan_order).
  apply list_elem_of_split in Hin as (l1 & l2 & Hsplit).
  rewrite Hsplit in *. clear Hsplit.
  rewrite flat_map_app in Hnd. simpl in Hnd. rewrite Hq in Hnd. simpl in Hnd.
  apply NoDup_app in Hnd as (_ & _ & Hnd).
  apply NoDup_cons in Hnd as [Hp2 Hnd]. apply NoDup_cons in Hnd as [Hq2 _].
  assert (Hpq : p <> q) by (intros ->; apply Hp2; left).
  assert (Hp2' : p ∉ flat_map (fun p => match swap_target self p with
                                        | Some q => [p; q]
                                        | None => []
                                        end) l2)
    by (intros H; apply Hp2; by right).
  rewrite fold_left_app. simpl.
  set (mid := fold_left (apply_cell self) l1 (image_array self)).
  assert (Hmid : shape_ok (resolution self) mid).
  { unfold mid. apply (fold_left_invariant (shape_ok (resolution self)));
      [|assumption].
    intros s p0 _ Hs. unfold apply_cell.
    destruct (swap_target self p0); [by do 2 apply shape_put | assumption]. }
  assert (Hl2 : forall p0, p0 ∈ l2 -> in_grid (resolution self) p0)
    by (intros p0 H0; apply Hall, elem_of_app; right; by right).
  assert (Hafter : shape_ok (resolution self) (apply_cell self mid p)).
  { unfold apply_cell. rewrite Hq. by do 2 apply shape_put. }
  rewrite !fold_apply_cell_frame by assumption.
  unfold apply_cell. rewrite Hq. split.
  - rewrite (cell_put (resolution self)); [|by apply shape_put|assumption..].
    rewrite bool_decide_eq_false_2 by assumption.
    rewrite (cell_put (resolution self)) by assumption.
    by rewrite bool_decide_eq_true_2.
  - rewrite (cell_put (resolution self)); [|by apply shape_put|assumption..].
    by rewrite bool_decide_eq_true_2.
Qed.

Lemma iterate_once_swaps_witness :
  exists self',
    iterate_once small_adis = Ok self'
    /\ getitem (image_array self') 0 0 = getitem (image_array small_adis) 0 1
    /\ getitem (image_array self') 0 1 = getitem (image_array small_adis) 0 0.
Proof.
  apply (iterate_once_swaps small_adis (0, 0) (0, 1)).
  - unfold shape_ok. decide_closed.
  - decide_closed.
  - unfold in_grid. simpl. lia.
  - vm_compute. reflexivity.
Defined.

(** ** [get_check_position] *)

(** X12: [get_check_position] raises [ZeroDivisionError] exactly when the
    resolution is 0; for a resolution of at least 1 and a cell of the grid
    it returns a cell of the grid, from which the opposite direction leads
    back to the cell it started from. *)
Theorem get_check_position_torus (self : ADISFile) (x y : Z) (direction : string) :
  (resolution self = 0 ->
     get_check_position self x y direction = Raise ZeroDivisionError)
  /\ (1 <= resolution self -> in_grid (resolution self) (x, y) ->
      exists x' y',
        get_check_position self x y direction = Ok (x', y')
        /\ in_grid (resolution self) (x', y')
        /\ get_check_position self x' y' (opposite direction) = Ok (x, y)).
Proof.
  split.
  - intros HR. unfold get_check_position, pymod. rewrite HR.
    by repeat case_match.
  - intros HR [Hx Hy]. simpl in Hx, Hy.
    rewrite get_check_position_ok by lia.
    set (q := check_position (resolution self) (x, y) direction).
    exists q.1, q.2.
    assert (Hq : in_grid (resolution self) q)
      by (apply check_position_in_grid; by split).
    split; [by destruct q|]. split; [by destruct q|].
    rewrite get_check_position_ok by lia. f_equal.
    unfold q, check_position, opposite.
    destruct (String.eqb direction "right") eqn:E1;
      [|destruct (String.eqb direction "left") eqn:E2;
        [|destruct (String.eqb direction "up") eqn:E3]];
      simpl; f_equal.
    + rewrite Zminus_mod_idemp_l. replace (y + 1 - 1) with y by lia.
      apply Z.mod_small. lia.
    + rewrite Zplus_mod_idemp_l. replace (y - 1 + 1) with y by lia.
      apply Z.mod_small. lia.
    + rewrite Zplus_mod_idemp_l. replace (x - 1 + 1) with x by lia.
      apply Z.mod_small. lia.
    + rewrite Zminus_mod_idemp_l. replace (x + 1 - 1) with x by lia.
      apply Z.mod_small. lia.
Qed.

Lemma get_check_position_torus_witness :
  exists x' y',
    get_check_position small_adis 0 1 "right" = Ok (x', y')
    /\ in_grid 2 (x', y')
    /\ get_check_position small_adis x' y' (opposite "right") = Ok (0, 1).
Proof.
  destruct (get_check_position_torus small_adis 0 1 "right") as [_ H].
  apply H; [simpl; lia | unfold in_grid; simpl; lia].
Defined.

(** ** Further properties of the scheduler *)



(** X14: on a well-shaped image [iterate_required] raises exactly when
    [iteration_speed] is 0, and what it raises is [ZeroDivisionError]. *)
Theorem iterate_required_raises (self : ADISFile) (e : exn) :
  shape_ok (resolution self) (image_array self) ->
  iterate_required self = Raise e
  <-> iteration_speed self = 0 /\ e = ZeroDivisionError.
Proof.
  intros Himg. split.
  - intros Hrun. destruct (Z.eq_dec (iteration_speed self) 0) as [H0|H0].
    + split; [assumption|]. unfold iterate_required, floordiv in Hrun.
      rewrite H0 in Hrun. simpl in Hrun. congruence.
    + destruct (iterate_required_ok self H0 Himg) as (s & _ & Hok).
      rewrite Hok in Hrun. discriminate.
  - intros [H0 ->]. unfold iterate_required, floordiv. by rewrite H0.
Qed.

Lemma iterate_required_raises_witness :
  iterate_required stopped_adis = Raise ZeroDivisionError
  <-> iteration_speed stopped_adis = 0 /\ ZeroDivisionError = ZeroDivisionError.
Proof.
  apply (iterate_required_raises stopped_adis ZeroDivisionError).
  unfold shape_ok. decide_closed.
Defined.

(** X15: on an object updated before (with non-zero times), an update that
    comes less than one period after the previous one schedules nothing: [iterate_required] returns the updated object as it
    is, and the next update is measured from this tick, so the ticks of the
    unfinished period are not carried over. *)
Theorem update_too_soon (self : ADISFile) (current_time : Z) :
  last_time self <> 0 -> now_time self <> 0 -> 1 <= iteration_speed self ->
  current_time < now_time self + iteration_speed self ->
  shape_ok (resolution self) (image_array self) ->
  let self' := update_times self current_time in
  iterate_required self' = Ok self'
  /\ forall next_time,
       (now_time (update_times self' next_time)
        - last_time (update_times self' next_time))
       = next_time - current_time.
Proof.
  intros Hlast Hnow Hspeed Hsoon Himg self'.
  assert (Hu : self' = set_times self (now_time self) current_time).
  { unfold self', update_times.
    by destruct (Z.eqb_spec (last_time self) 0); [contradiction|]. }
  split.
  - destruct (iterate_required_ok self') as (s & Hs & ->);
      [rewrite Hu; simpl; lia | by rewrite Hu |].
    assert (Hpending : (now_time self' - last_time self') / iteration_speed self'
                       <= 0).
    { rewrite Hu. simpl.
      assert ((current_time - now_time self) / iteration_speed self < 1);
        [apply Z.div_lt_upper_bound; lia | lia]. }
    replace (Z.to_nat _) with 0%nat in Hs by lia. simpl in Hs.
    injection Hs as <-.
    replace (Z.max 0 _) with 0 by lia. rewrite Z.add_0_r. by destruct self'.
  - intros next_time. rewrite Hu. unfold update_times. simpl.
    destruct (Z.eqb_spec (now_time self) 0) as [H0|H0]; simpl; lia.
Qed.

Lemma update_too_soon_witness :
  let self' := update_times three_ticks_adis 103 in
  iterate_required self' = Ok self'
  /\ forall next_time,
       (now_time (update_times self' next_time)
        - last_time (update_times self' next_time))
       = next_time - 103.
Proof.
  apply (update_too_soon three_ticks_adis 103);
    [simpl; lia | simpl; lia | simpl; lia | simpl; lia
    | unfold shape_ok; decide_closed].
Defined.

(** ** Further properties of the key *)

(** X16: an object without cells has no key: for a resolution of 0 or less
    [generate_key] raises the [IndexError] of [binary[0]], and so do
    [encrypt_string] and [decrypt_string], whatever text or ciphertext they
    are given. *)
Theorem key_needs_cells (self : ADISFile) (text : list Z) (h : list ascii) :
  resolution self <= 0 ->
  generate_key self = Raise IndexError
  /\ encrypt_string self text = Raise IndexError
  /\ decrypt_string self h = Raise IndexError.
Proof.
  intros HR. pose proof (generate_key_no_cells self HR) as Hkey.
  unfold encrypt_string, decrypt_string. by rewrite Hkey.
Qed.

Lemma key_needs_cells_witness :
  generate_key empty_adis = Raise IndexError
  /\ encrypt_string empty_adis hi = Raise IndexError
  /\ decrypt_string empty_adis (list_ascii_of_string "6441") = Raise IndexError.
Proof. apply (key_needs_cells empty_adis). simpl. lia. Defined.

Lemma runs_spec (s : list ascii) :
  expand (runs s) = s
  /\ Forall (fun r => 1 <= r.2) (runs s)
  /\ alternating (runs s).
Proof.
  induction s as [|c s (Hexp & Hpos & Halt)]; simpl.
  - split; [reflexivity|]. split; [constructor | exact I].
  - destruct (runs s) as [|[d n] rs] eqn:Hruns; simpl.
    + split; [by rewrite <- Hexp|]. split; [|exact I].
      constructor; [simpl; lia | constructor].
    + apply Forall_cons in Hpos as [Hn Hpos]. simpl in Hn.
      destruct (Ascii.eqb_spec c d) as [->|Hne]; simpl.
      * split; [|split].
        -- rewrite <- Hexp. unfold expand. simpl.
           replace (Z.to_nat (n + 1)) with (S (Z.to_nat n)) by lia.
           reflexivity.
        -- constructor; [simpl; lia | assumption].
        -- destruct rs; [exact I | exact Halt].
      * split; [|split].
        -- by rewrite <- Hexp.
        -- constructor; [simpl; lia|]. by constructor.
        -- split; [assumption | exact Halt].
Qed.

(** X17: the run-length compression of [generate_key] loses nothing at the
    level of runs: the key is the concatenation, over a list of runs, of the
    run's bit followed by the decimal spelling of its length, where the runs
    expand to exactly the bit string of the image, every run is at least one
    bit long, and neighbouring runs have different bits. *)
Theorem generate_key_runs (self : ADISFile) :
  1 <= resolution self ->
  shape_ok (resolution self) (image_array self) ->
  exists binary rs,
    image_bits self = Ok binary
    /\ generate_key self = Ok (flat_map (fun r => r.1 :: str_int r.2) rs)
    /\ expand rs = binary
    /\ Forall (fun r => 1 <= r.2) rs
    /\ alternating rs.
Proof.
  intros HR Himg.
  destruct (generate_key_ok self HR Himg) as (binary & Hbits & _ & _ & Hkey & _).
  destruct (runs_spec binary) as (Hexp & Hpos & Halt).
  exists binary, (runs binary). by repeat split.
Qed.

Lemma generate_key_runs_witness :
  exists binary rs,
    image_bits small_adis = Ok binary
    /\ generate_key small_adis = Ok (flat_map (fun r => r.1 :: str_int r.2) rs)
    /\ expand rs = binary
    /\ Forall (fun r => 1 <= r.2) rs
    /\ alternating rs.
Proof.
  apply (generate_key_runs small_adis);
    [simpl; lia | unfold shape_ok; decide_closed].
Defined.

(** ** Further properties of the cipher *)

Lemma bytes_of_inv (l l' : list Z) : bytes_of l = Ok l' -> l' = l.
Proof.
  unfold bytes_of. revert l'. induction l as [|v l IH]; intros l'; simpl.
  - by intros [= <-].
  - destruct ((0 <=? v) && (v <? 256)); [|discriminate]. simpl.
    destruct (comprehension _ l) as [bs|e]; [|discriminate]. simpl.
    intros [= <-]. by rewrite (IH bs).
Qed.

Lemma list_mul_lookup {A : Type} (ks : list A) (n : Z) (i : nat) :
  (i < Z.to_nat n * length ks)%nat ->
  list_mul ks n !! i = ks !! (i mod length ks)%nat.
Proof.
  unfold list_mul. revert i. induction (Z.to_nat n) as [|m IH]; intros i Hi;
    [simpl in Hi; lia|].
  simpl. destruct (decide (i < length ks)%nat) as [Hlt|Hge].
  - rewrite lookup_app_l by assumption. by rewrite Nat.mod_small.
  - rewrite lookup_app_r by lia. rewrite IH by (simpl in Hi; lia).
    f_equal.
    replace i with ((i - length ks) + 1 * length ks)%nat at 2 by lia.
    by rewrite Nat.Div0.mod_add.
Qed.

Lemma combine_lookup {A B : Type} (l : list A) (k : list B) (i : nat) (a : A) (b : B) :
  l !! i = Some a -> k !! i = Some b -> combine l k !! i = Some (a, b).
Proof.
  revert k i. induction l as [|a0 l IH]; intros k i Ha Hb; [by destruct i|].
  destruct k as [|b0 k]; [by destruct i|].
  destruct i as [|i]; simpl in *; [congruence | by apply IH].
Qed.

(** What [xor_bytes] returns: the XOR of the data with the key repeated. *)
Lemma xor_bytes_inv (data key_bytes encrypted : list Z) :
  xor_bytes data key_bytes = Ok encrypted ->
  key_bytes <> []
  /\ length encrypted = length data
  /\ forall i d, data !! i = Some d ->
       exists k, key_bytes !! (i mod length key_bytes)%nat = Some k
                 /\ encrypted !! i = Some (Z.lxor d k).
Proof.
  unfold xor_bytes, floordiv. intros Hrun.
  assert (Hne : key_bytes <> []).
  { intros ->. simpl in Hrun. discriminate. }
  assert (Hlen0 : (len key_bytes =? 0) = false).
  { apply Z.eqb_neq. unfold len. destruct key_bytes; [done | simpl; lia]. }
  rewrite Hlen0 in Hrun. simpl in Hrun. apply bytes_of_inv in Hrun as ->.
  set (K := list_mul key_bytes (len data / len key_bytes + 1)).
  pose proof (key_covers_data data key_bytes Hne) as Hcover. fold K in Hcover.
  split; [assumption|]. split.
  { rewrite length_map, length_combine. lia. }
  intros i d Hd. pose proof (lookup_lt_Some _ _ _ Hd) as Hi.
  assert (HK : K !! i = key_bytes !! (i mod length key_bytes)%nat).
  { unfold K. apply list_mul_lookup. unfold K in Hcover.
    rewrite length_list_mul in Hcover. lia. }
  destruct (lookup_lt_is_Some_2 K i) as [k Hk]; [lia|].
  exists k. split; [by rewrite <- HK|].
  rewrite list_lookup_fmap.
  by rewrite (combine_lookup data K i d k Hd Hk).
Qed.

(** X18: the key is applied cyclically: byte [i] of what [xor_bytes] returns
    is byte [i] of the data XOR key byte [i mod len(key_bytes)], and nothing
    is added or dropped. *)
Theorem xor_bytes_cyclic (data key_bytes encrypted : list Z) :
  xor_bytes data key_bytes = Ok encrypted ->
  length encrypted = length data
  /\ forall i d, data !! i = Some d ->
       exists k, key_bytes !! (i mod length key_bytes)%nat = Some k
                 /\ encrypted !! i = Some (Z.lxor d k).
Proof. intros Hrun. by destruct (xor_bytes_inv _ _ _ Hrun) as (_ & Hlen & Hi). Qed.

Lemma xor_bytes_cyclic_witness :
  length [109; 96; 100] = length [104; 105; 97]
  /\ forall i d, [104; 105; 97] !! i = Some d ->
       exists k, [5; 9] !! (i mod length [5; 9])%nat = Some k
                 /\ [109; 96; 100] !! i = Some (Z.lxor d k).
Proof.
  apply (xor_bytes_cyclic [104; 105; 97] [5; 9] [109; 96; 100]).
  vm_compute. reflexivity.
Defined.

(** X19: two byte strings encrypted with the same key give away the XOR of
    their plaintexts: at every position the XOR of the two ciphertext bytes
    is the XOR of the two plaintext bytes. *)
Theorem xor_bytes_key_reuse (data1 data2 key_bytes encrypted1 encrypted2 : list Z)
    (i : nat) (a b x y : Z) :
  xor_bytes data1 key_bytes = Ok encrypted1 ->
  xor_bytes data2 key_bytes = Ok encrypted2 ->
  data1 !! i = Some a -> data2 !! i = Some b ->
  encrypted1 !! i = Some x -> encrypted2 !! i = Some y ->
  Z.lxor x y = Z.lxor a b.
Proof.
  intros H1 H2 Ha Hb Hx Hy.
  destruct (xor_bytes_inv _ _ _ H1) as (_ & _ & Hi1).
  destruct (xor_bytes_inv _ _ _ H2) as (_ & _ & Hi2).
  destruct (Hi1 i a Ha) as (k & Hk & Hx').
  destruct (Hi2 i b Hb) as (k' & Hk' & Hy').
  rewrite Hk in Hk'. injection Hk' as <-.
  rewrite Hx in Hx'. injection Hx' as ->.
  rewrite Hy in Hy'. injection Hy' as ->.
  rewrite Z.lxor_assoc, (Z.lxor_comm k (Z.lxor b k)), Z.lxor_assoc.
  by rewrite Z.lxor_nilpotent, Z.lxor_0_r.
Qed.

Lemma xor_bytes_key_reuse_witness : Z.lxor 109 100 = Z.lxor 104 97.
Proof.
  apply (xor_bytes_key_reuse [104; 105] [97; 98] [5; 9] [109; 96] [100; 107] 0);
    first [reflexivity | vm_compute; reflexivity].
Defined.

(** What [encrypt_string] computes on an object with a key. *)
Lemma encrypt_string_inv (self : ADISFile) (text : list Z) (h : list ascii) :
  1 <= resolution self ->
  shape_ok (resolution self) (image_array self) ->
  encrypt_string self text = Ok h ->
  exists key_bytes text_bytes encrypted_bytes,
    Forall (fun v => 0 <= v <= 99) key_bytes
    /\ utf8_encode text = Ok text_bytes
    /\ xor_bytes text_bytes key_bytes = Ok encrypted_bytes
    /\ h = hex encrypted_bytes.
Proof.
  intros HR Himg Henc.
  destruct (keystream_ok self HR Himg)
    as (binary & ks & _ & _ & _ & Hkey & _ & Hks & _ & _ & Hrange & _).
  unfold encrypt_string in Henc.
  rewrite Hkey in Henc. simpl in Henc. rewrite Hks in Henc. simpl in Henc.
  destruct (utf8_encode text) as [tb|e]; [|discriminate]. simpl in Henc.
  destruct (xor_bytes tb ks) as [eb|e] eqn:Hxor; [|discriminate].
  simpl in Henc. injection Henc as <-.
  by exists ks, tb, eb.
Qed.

Lemma hex_format (bs : list Z) :
  length (hex bs) = (2 * length bs)%nat /\ Forall is_hex_digit (hex bs).
Proof.
  induction bs as [|b bs [IHlen IHall]]; [split; [reflexivity | constructor]|].
  change (hex (b :: bs))
    with (hex_digit (b / 16) :: hex_digit (b mod 16) :: hex bs).
  assert (Hdigit : forall n, is_hex_digit (hex_digit n)).
  { intros n. unfold hex_digit, is_hex_digit. generalize (Z.to_nat n) as m.
    intros m. do 16 (destruct m as [|m]; [decide_closed|]).
    destruct m; decide_closed. }
  split; [simpl; lia|]. by repeat (constructor; [apply Hdigit|]).
Qed.

(** X20: the ciphertext [encrypt_string] returns has two characters of
    [0123456789abcdef] for every byte of the UTF-8 encoding of the text, and
    the top bit of every byte passes through unchanged (the key bytes are
    below 100): an ASCII text gives ciphertext bytes below 128. *)
Theorem encrypt_string_format (self : ADISFile) (text : list Z) (h : list ascii) :
  1 <= resolution self ->
  shape_ok (resolution self) (image_array self) ->
  encrypt_string self text = Ok h ->
  exists text_bytes encrypted_bytes,
    utf8_encode text = Ok text_bytes
    /\ h = hex encrypted_bytes
    /\ length h = (2 * length text_bytes)%nat
    /\ Forall is_hex_digit h
    /\ forall i d e, text_bytes !! i = Some d -> encrypted_bytes !! i = Some e ->
         Z.testbit e 7 = Z.testbit d 7.
Proof.
  intros HR Himg Henc.
  destruct (encrypt_string_inv self text h HR Himg Henc)
    as (ks & tb & eb & Hrange & Htb & Hxor & ->).
  destruct (xor_bytes_inv _ _ _ Hxor) as (_ & Hlen & Hi).
  destruct (hex_format eb) as [Hhexlen Hhex].
  exists tb, eb. split; [assumption|]. split; [reflexivity|].
  split; [by rewrite Hhexlen, Hlen|]. split; [assumption|].
  intros i d e Hd He. destruct (Hi i d Hd) as (k & Hk & He').
  rewrite He in He'. injection He' as ->.
  rewrite Z.lxor_spec.
  assert (Hk7 : Z.testbit k 7 = false).
  { rewrite Forall_forall in Hrange.
    assert (0 <= k <= 99)
      by (apply Hrange; by eapply list_elem_of_lookup_2).
    apply Z.testbit_false; [lia|]. lia_div. }
  rewrite Hk7. by destruct (Z.testbit d 7).
Qed.

Lemma encrypt_string_format_witness :
  exists text_bytes encrypted_bytes,
    utf8_encode hi = Ok text_bytes
    /\ list_ascii_of_string "6441" = hex encrypted_bytes
    /\ length (list_ascii_of_string "6441") = (2 * length text_bytes)%nat
    /\ Forall is_hex_digit (list_ascii_of_string "6441")
    /\ forall i d e, text_bytes !! i = Some d -> encrypted_bytes !! i = Some e ->
         Z.testbit e 7 = Z.testbit d 7.
Proof.
  apply (encrypt_string_format small_adis hi);
    [simpl; lia | unfold shape_ok; decide_closed | vm_compute; reflexivity].
Defined.

Lemma fromhex_bad (h : list ascii) :
  (forall c, c ∈ h -> is_space c = false) ->
  Nat.Odd (length h) \/ (exists c, c ∈ h /\ hex_val c = None) ->
  fromhex h = Raise ValueError.
Proof.
  induction h as [| c | c d h IH] using pairs_ind; intros Hsp Hbad.
  - destruct Hbad as [[k Hk]|(c & Hc & _)]; [simpl in Hk; lia|].
    by apply elem_of_nil in Hc.
  - simpl. by rewrite (Hsp c) by left.
  - cbn [fromhex]. rewrite (Hsp c) by left.
    destruct (hex_val c) as [hc|] eqn:Hc; [|reflexivity].
    destruct (hex_val d) as [hd|] eqn:Hd; [|reflexivity].
    rewrite IH; [reflexivity | |].
    + intros c0 H0. apply Hsp. by do 2 right.
    + destruct Hbad as [[k Hk]|(c0 & H0 & Hnone)].
      * left. exists (k - 1)%nat. simpl in Hk. lia.
      * right. exists c0. split; [|assumption].
        apply elem_of_cons in H0 as [->|H0]; [congruence|].
        apply elem_of_cons in H0 as [->|H0]; [congruence | assumption].
Qed.

(** X21: on an object with a key, [decrypt_string] raises [ValueError] for a
    ciphertext without blanks that has an odd number of characters or a
    character that is not a hex digit. *)
Theorem decrypt_string_bad_hex (self : ADISFile) (encrypted_hex : list ascii) :
  1 <= resolution self ->
  shape_ok (resolution self) (image_array self) ->
  (forall c, c ∈ encrypted_hex -> is_space c = false) ->
  Nat.Odd (length encrypted_hex)
  \/ (exists c, c ∈ encrypted_hex /\ hex_val c = None) ->
  decrypt_string self encrypted_hex = Raise ValueError.
Proof.
  intros HR Himg Hsp Hbad.
  destruct (keystream_ok self HR Himg)
    as (binary & ks & _ & _ & _ & Hkey & _ & Hks & _).
  unfold decrypt_string. rewrite Hkey. simpl. rewrite Hks. simpl.
  by rewrite fromhex_bad.
Qed.

Lemma decrypt_string_bad_hex_witness :
  decrypt_string small_adis (list_ascii_of_string "644") = Raise ValueError.
Proof.
  apply (decrypt_string_bad_hex small_adis);
    [simpl; lia | unfold shape_ok; decide_closed | |].
  - intros c Hc. simpl in Hc.
    repeat (apply elem_of_cons in Hc as [->|Hc]; [reflexivity|]).
    by apply elem_of_nil in Hc.
  - left. exists 1%nat. reflexivity.
Defined.

Lemma utf8_encode_nonempty (text bs : list Z) :
  text <> [] -> utf8_encode text = Ok bs -> bs <> [].
Proof.
  destruct text as [|c text]; [done|]. intros _. simpl.
  destruct (encode_char c) as [cb|e] eqn:Hc; [|discriminate]. simpl.
  destruct (utf8_encode text) as [rest|e]; [|discriminate]. simpl.
  intros [= <-]. unfold encode_char in Hc.
  repeat case_match; try discriminate; injection Hc as <-; discriminate.
Qed.

(** X22: what the decrypt button finds on an object [create_adis] has just
    returned. For a non-empty text it shows the text. For the empty text the
    object stores the empty ciphertext, which the button takes for no
    ciphertext at all: it reports that nothing is stored and decrypts
    nothing. *)
Theorem create_adis_decrypt_button (R D S : Z) (text : list Z) (t : Z)
    (tape tape' : list Z) (adis : ADISFile) :
  create_adis R D S text t tape = Some (Ok adis, tape') ->
  (text <> [] -> app_decrypt_string adis = Some (Ok text))
  /\ (text = [] -> encrypted_string adis = Some []
                   /\ app_decrypt_string adis = None).
Proof.
  intros Hrun.
  destruct (create_adis_inv _ _ _ _ _ _ _ _ Hrun)
    as (cs & image & h & HR & _ & _ & _ & _ & Hshape & _ & Henc & ->).
  set (painted_adis := mkADISFile R D S 0 0 0 cs image None None) in *.
  set (u := update_times painted_adis t) in *.
  assert (Hu : shape_ok (resolution u) (image_array u)) by exact Hshape.
  destruct (iterate_once_ok u Hu) as [_ Hstep].
  set (stepped := set_iteration_count (set_image_array u (step_image u)) 1) in *.
  destruct (encrypt_string_inverse stepped text h HR Hstep Henc)
    as (Hdec & tb & Htb & Hlen).
  unfold app_decrypt_string. simpl. split.
  - intros Hne. pose proof (utf8_encode_nonempty text tb Hne Htb) as Htbne.
    destruct h as [|c h]; [destruct tb; [done | simpl in Hlen; lia]|].
    f_equal. exact Hdec.
  - intros ->. simpl in Htb. injection Htb as <-. simpl in Hlen.
    destruct h; [by split | simpl in Hlen; lia].
Qed.

Lemma create_adis_decrypt_button_witness :
  (hi <> [] -> app_decrypt_string created_adis = Some (Ok hi))
  /\ (hi = [] -> encrypted_string created_adis = Some []
                 /\ app_decrypt_string created_adis = None).
Proof.
  apply (create_adis_decrypt_button 2 2 1 hi 29000000 creation_tape []).
  vm_compute. reflexivity.
Defined.
